(** * rt-2-demo: language-to-action pipeline

    A shallow embedding of the matcher, the tokenizer and the action
    generator of [Pybulllet/p.py], [Pybulllet/p_clip.py] and
    [Pybulllet/Simullation.py], and the properties of them that the
    specification states; then of the code around them: the object
    database, the controllers, [handle_command], the loop of [main], the
    crops and the text batches of [p_clip.py], and the views of
    [Pybulllet/demo_server.py] and [Pybulllet/server.py].

    Modelling conventions.
    - Python [str] is [string]; the model covers ASCII text (code points
      below 128), on which [str.lower], [str.strip], [\w] and [\s] are
      what [lower], [strip], [is_word] and [is_space] compute.
    - A number is a rational ([Q]). The float32 tensors of the tokenizer
      round every result ([Float32.f32], through [Rounding]); the scores
      of the matchers and the coordinates of the action vectors are only
      compared or copied, and are kept exact. NaN and infinities are not
      modelled.
    - A [dict] whose iteration order the code relies on is an association
      list in insertion order.
    - The text encoder (sentence-transformers, CLIP) is external: it is an
      interface, [EmbeddingProvider], and every theorem holds for each of
      its implementations.
    - The physics engine (PyBullet) is external: it is an interface,
      [Engine], and every theorem holds for each of its implementations.
    - [print] and [logging] calls are dropped, but for the tokens and the
      vectors that [main] prints. *)

From Stdlib Require Import Bool Arith ZArith QArith Qabs Qround Qpower.
From Stdlib Require Import Lia Lqa Psatz List Permutation Sorted.
From Stdlib Require Import Ascii String Numbers.DecimalString.
Import ListNotations.

Open Scope string_scope.

(* ================================================================== *)
(** * Python strings *)

Module PyStr.

Definition is_upper (c : ascii) : bool :=
  let n := nat_of_ascii c in (65 <=? n)%nat && (n <=? 90)%nat.

Definition is_lower (c : ascii) : bool :=
  let n := nat_of_ascii c in (97 <=? n)%nat && (n <=? 122)%nat.

Definition is_digit (c : ascii) : bool :=
  let n := nat_of_ascii c in (48 <=? n)%nat && (n <=? 57)%nat.

(** [\w] on ASCII text: letters, digits and the underscore. *)
Definition is_word (c : ascii) : bool :=
  is_upper c || is_lower c || is_digit c || (nat_of_ascii c =? 95)%nat.

(** [\s] and the characters [str.strip] removes, on ASCII text:
    tab, newline, vertical tab, form feed, carriage return, the four
    separators 28..31 and the space. *)
Definition is_space (c : ascii) : bool :=
  let n := nat_of_ascii c in
  ((9 <=? n)%nat && (n <=? 13)%nat) || ((28 <=? n)%nat && (n <=? 32)%nat).

Definition lower_char (c : ascii) : ascii :=
  if is_upper c then ascii_of_nat (nat_of_ascii c + 32) else c.

Definition upper_char (c : ascii) : ascii :=
  if is_lower c then ascii_of_nat (nat_of_ascii c - 32) else c.

Fixpoint map_chars (f : ascii -> ascii) (s : string) : string :=
  match s with
  | EmptyString => EmptyString
  | String c s' => String (f c) (map_chars f s')
  end.

(** [s.lower()] *)
Definition lower (s : string) : string := map_chars lower_char s.

(** [s.upper()] *)
Definition upper (s : string) : string := map_chars upper_char s.

Fixpoint lstrip (s : string) : string :=
  match s with
  | EmptyString => EmptyString
  | String c s' => if is_space c then lstrip s' else s
  end.

Fixpoint rstrip (s : string) : string :=
  match s with
  | EmptyString => EmptyString
  | String c s' =>
      match rstrip s' with
      | EmptyString => if is_space c then EmptyString else String c EmptyString
      | r => String c r
      end
  end.

(** [s.strip()] *)
Definition strip (s : string) : string := rstrip (lstrip s).

Fixpoint starts_with (p s : string) : bool :=
  match p, s with
  | EmptyString, _ => true
  | String a p', String b s' => Ascii.eqb a b && starts_with p' s'
  | String _ _, EmptyString => false
  end.

(** [needle in hay] *)
Fixpoint contains (needle hay : string) : bool :=
  starts_with needle hay ||
  match hay with
  | EmptyString => false
  | String _ hay' => contains needle hay'
  end.

(** Truth value of a string: [if s:] *)
Definition truthy (s : string) : bool :=
  match s with EmptyString => false | _ => true end.

(** Truth value of an optional string: [if phrase:] with [phrase] a
    string or [None]. *)
Definition truthy_opt (o : option string) : bool :=
  match o with Some s => truthy s | None => false end.

(** The text of a phrase that is present. *)
Definition text_of (o : option string) : string :=
  match o with Some s => s | None => EmptyString end.

Definition opt_eqb (a b : option string) : bool :=
  match a, b with
  | Some x, Some y => String.eqb x y
  | None, None => true
  | _, _ => false
  end.

(** [f"{n:+d}"] *)
Definition format_plus_d (n : Z) : string :=
  if (n <? 0)%Z then NilZero.string_of_int (Z.to_int n)
  else "+" ++ NilZero.string_of_int (Z.to_int n).

End PyStr.

(* ================================================================== *)
(** * The fragment of Python's [re] the matchers use

    A backtracking matcher in continuation-passing style: alternatives are
    tried left to right, greedy quantifiers try the longest repetition
    first and lazy ones the shortest, and [search] returns the leftmost
    match. Every pattern of the sources has exactly one capturing group,
    so a match state carries one optional capture. *)

Module Re.

Inductive regex : Type :=
| Lit (s : string)            (* literal text *)
| Word                        (* \w *)
| Space                       (* \s *)
| AnyChar                     (* .  (no newline) *)
| Cat (r1 r2 : regex)         (* r1 r2 *)
| Alt (r1 r2 : regex)         (* r1|r2 *)
| Opt (r : regex)             (* r?  *)
| Star (r : regex)            (* r*  *)
| Plus (r : regex)            (* r+  *)
| LazyStar (r : regex)        (* r*? *)
| LazyPlus (r : regex)        (* r+? *)
| Group (r : regex)           (* (r) : group 1 *)
| Eos.                        (* $ *)

Definition newline : ascii := ascii_of_nat 10.

(** The text consumed between the suffixes [s] and [s'] of the subject. *)
Definition consumed (s s' : string) : string :=
  substring 0 (String.length s - String.length s') s.

Definition shorter (s' s : string) : bool :=
  (String.length s' <? String.length s)%nat.

Section Matcher.
Variable A : Type.

(** The continuation receives the rest of the subject and the capture. *)
Definition cont := string -> option string -> option A.

Definition one_char (p : ascii -> bool) (s : string) (cap : option string)
           (k : cont) : option A :=
  match s with
  | String c s' => if p c then k s' cap else None
  | EmptyString => None
  end.

Fixpoint drop_prefix (p s : string) : option string :=
  match p, s with
  | EmptyString, _ => Some s
  | String a p', String b s' =>
      if Ascii.eqb a b then drop_prefix p' s' else None
  | String _ _, EmptyString => None
  end.

Definition or_else (a : option A) (b : unit -> option A) : option A :=
  match a with Some x => Some x | None => b tt end.

Fixpoint run (r : regex) : string -> option string -> cont -> option A :=
  match r with
  | Lit p => fun s cap k =>
      match drop_prefix p s with Some s' => k s' cap | None => None end
  | Word => one_char PyStr.is_word
  | Space => one_char PyStr.is_space
  | AnyChar => one_char (fun c => negb (Ascii.eqb c newline))
  | Cat r1 r2 => fun s cap k =>
      run r1 s cap (fun s' cap' => run r2 s' cap' k)
  | Alt r1 r2 => fun s cap k =>
      or_else (run r1 s cap k) (fun _ => run r2 s cap k)
  | Opt r1 => fun s cap k =>
      or_else (run r1 s cap k) (fun _ => k s cap)
  | Star r1 => fun s cap k =>
      (fix greedy (fuel : nat) (s : string) (cap : option string) : option A :=
         match fuel with
         | O => k s cap
         | S fuel' =>
             or_else
               (run r1 s cap (fun s' cap' =>
                  if shorter s' s then greedy fuel' s' cap' else None))
               (fun _ => k s cap)
         end) (S (String.length s)) s cap
  | Plus r1 => fun s cap k =>
      run r1 s cap (fun s1 cap1 =>
      (fix greedy (fuel : nat) (s : string) (cap : option string) : option A :=
         match fuel with
         | O => k s cap
         | S fuel' =>
             or_else
               (run r1 s cap (fun s' cap' =>
                  if shorter s' s then greedy fuel' s' cap' else None))
               (fun _ => k s cap)
         end) (S (String.length s1)) s1 cap1)
  | LazyStar r1 => fun s cap k =>
      (fix lazy (fuel : nat) (s : string) (cap : option string) : option A :=
         match fuel with
         | O => k s cap
         | S fuel' =>
             or_else (k s cap)
               (fun _ => run r1 s cap (fun s' cap' =>
                  if shorter s' s then lazy fuel' s' cap' else None))
         end) (S (String.length s)) s cap
  | LazyPlus r1 => fun s cap k =>
      run r1 s cap (fun s1 cap1 =>
      (fix lazy (fuel : nat) (s : string) (cap : option string) : option A :=
         match fuel with
         | O => k s cap
         | S fuel' =>
             or_else (k s cap)
               (fun _ => run r1 s cap (fun s' cap' =>
                  if shorter s' s then lazy fuel' s' cap' else None))
         end) (S (String.length s1)) s1 cap1)
  | Group r1 => fun s cap k =>
      run r1 s cap (fun s' _ => k s' (Some (consumed s s')))
  | Eos => fun s cap k =>
      match s with
      | EmptyString => k s cap
      | String c EmptyString => if Ascii.eqb c newline then k s cap else None
      | _ => None
      end
  end.
End Matcher.

(** [re.match(r, s)]: the capture of a match anchored at the start. The
    value is [Some None] when the pattern matched without its group. *)
Definition match_here (r : regex) (s : string) : option (option string) :=
  run (option string) r s None (fun _ cap => Some cap).

(** [re.search(r, s)]: the leftmost match. *)
Fixpoint search (r : regex) (s : string) : option (option string) :=
  match match_here r s with
  | Some cap => Some cap
  | None =>
      match s with
      | EmptyString => None
      | String _ s' => search r s'
      end
  end.

(** [m.group(1)] of a successful search; every pattern used here binds
    group 1 on every match, so an unbound group reads as the empty text. *)
Definition group1 (m : option string) : string :=
  match m with Some g => g | None => EmptyString end.

Definition alts (l : list string) : regex :=
  match l with
  | [] => Lit EmptyString
  | x :: l' => fold_left (fun r y => Alt r (Lit y)) l' (Lit x)
  end.

End Re.

(* ================================================================== *)
(** * Python values, dicts and exceptions *)

Module Py.

(** The values the matchers store in their debug dictionaries. *)
Inductive pyval : Type :=
| VNone
| VBool (b : bool)
| VStr (s : string)
| VFloat (q : Q)
| VInt (z : Z)
| VInts (l : list Z)
| VPair (a b : pyval)
| VTriple (a b c : pyval)
| VScores (l : list (Z * Q))              (* list of (uid, score) *)
| VTexts (l : list (Z * list string)).    (* dict uid -> descriptors *)

Definition of_opt_str (o : option string) : pyval :=
  match o with Some s => VStr s | None => VNone end.

(** A dict in insertion order: [d[k] = v] overwrites the value of a key
    that is present and appends a new key at the end. *)
Section Dict.
Context {K V : Type}.
Variable eqb : K -> K -> bool.

Fixpoint get (d : list (K * V)) (k : K) : option V :=
  match d with
  | [] => None
  | (k', v) :: d' => if eqb k' k then Some v else get d' k
  end.

Fixpoint set (d : list (K * V)) (k : K) (v : V) : list (K * V) :=
  match d with
  | [] => [(k, v)]
  | (k', v') :: d' =>
      if eqb k' k then (k', v) :: d' else (k', v') :: set d' k v
  end.

(** [d.get(k, default)] *)
Definition get_default (d : list (K * V)) (k : K) (default : V) : V :=
  match get d k with Some v => v | None => default end.
End Dict.

Definition dict (K V : Type) := list (K * V).
Definition debug_dict := dict string pyval.
Definition dget (d : debug_dict) (k : string) : option pyval := get String.eqb d k.
Definition dset (d : debug_dict) (k : string) (v : pyval) : debug_dict :=
  set String.eqb d k v.

(** Exceptions the modelled code could raise. *)
Inductive exn : Type :=
| IndexError       (* a list or tensor indexed out of range *)
| RuntimeError.    (* argmax or argmin of an empty tensor *)

Inductive result (A : Type) : Type :=
| Ok (a : A)
| Raise (e : exn).
Arguments Ok {A} a.
Arguments Raise {A} e.

Definition bind {A B : Type} (m : result A) (f : A -> result B) : result B :=
  match m with Ok a => f a | Raise e => Raise e end.

(** [l[i]] *)
Definition list_get {A : Type} (l : list A) (i : nat) : result A :=
  match nth_error l i with Some a => Ok a | None => Raise IndexError end.

Fixpoint mapM {A B : Type} (f : A -> result B) (l : list A) : result (list B) :=
  match l with
  | [] => Ok []
  | a :: l' =>
      bind (f a) (fun b => bind (mapM f l') (fun bs => Ok (b :: bs)))
  end.

(** [enumerate(l)] *)
Definition enumerate {A : Type} (l : list A) : list (nat * A) :=
  combine (seq 0 (List.length l)) l.

(** Comparison of floats: [a < b]. *)
Definition Qltb (a b : Q) : bool := negb (Qle_bool b a).

(** [max(a, b)]: the first argument unless the second is greater. *)
Definition max2 (a b : Q) : Q := if Qltb a b then b else a.

(** Index of the first greatest entry, scanning from index [i] with the
    best entry so far at [bi] with value [bv]. *)
Fixpoint argmax_from (l : list Q) (i bi : nat) (bv : Q) : nat :=
  match l with
  | [] => bi
  | x :: l' =>
      if Qltb bv x then argmax_from l' (S i) i x
      else argmax_from l' (S i) bi bv
  end.

(** [torch.argmax(t)] / [np.argmax(l)]: the index of the first maximum;
    an empty input raises. *)
Definition argmax (l : list Q) : result nat :=
  match l with
  | [] => Raise RuntimeError
  | x :: l' => Ok (argmax_from l' 1 0 x)
  end.

(** First smallest entry, symmetrically. *)
Fixpoint argmin_from (l : list Q) (i bi : nat) (bv : Q) : nat :=
  match l with
  | [] => bi
  | x :: l' =>
      if Qltb x bv then argmin_from l' (S i) i x
      else argmin_from l' (S i) bi bv
  end.

(** [torch.argmin(t)] *)
Definition argmin (l : list Q) : result nat :=
  match l with
  | [] => Raise RuntimeError
  | x :: l' => Ok (argmin_from l' 1 0 x)
  end.

(** [sorted(items, key=lambda item: item[1], reverse=True)]: a stable sort
    by decreasing score; items of equal score keep their order. *)
Section Sorted.
Context {K : Type}.

Fixpoint insert_desc (x : K * Q) (l : list (K * Q)) : list (K * Q) :=
  match l with
  | [] => [x]
  | y :: l' =>
      if Qltb (snd x) (snd y) then y :: insert_desc x l' else x :: y :: l'
  end.

Definition sorted_desc (l : list (K * Q)) : list (K * Q) :=
  fold_right insert_desc [] l.

(** [max(items, key=lambda x: x[1])]: the first item of greatest score. *)
Fixpoint max_by_score (best : K * Q) (l : list (K * Q)) : K * Q :=
  match l with
  | [] => best
  | x :: l' =>
      if Qltb (snd best) (snd x) then max_by_score x l'
      else max_by_score best l'
  end.
End Sorted.

End Py.

Declare Scope result_scope.
Delimit Scope result_scope with result.
Notation "x <- m ;; k" := (Py.bind m (fun x => k))
  (at level 61, m at next level, right associativity) : result_scope.
Notation "' p <- m ;; k" := (Py.bind m (fun x => let p := x in k))
  (at level 61, p pattern, m at next level, right associativity) : result_scope.

(* ================================================================== *)
(** * The embedding provider

    [encode] is one batched call of the encoder: a list of texts in, as
    many normalised vectors out. [cos_sim] is the cosine similarity of two
    vectors. Nothing else is assumed of the encoder. *)

Class EmbeddingProvider : Type := {
  Emb : Type;
  encode : list string -> list Emb;
  cos_sim : Emb -> Emb -> Q;
  encode_length : forall texts, List.length (encode texts) = List.length texts
}.

(* ================================================================== *)
(** * [p.py]: [SemanticMatcher] *)

Module P.
Import PyStr Re Py.
Local Open Scope result_scope.

(** [@dataclass ObjectInfo] *)
Record ObjectInfo : Type := {
  uid : Z;
  name : string;
  color : Q * Q * Q * Q;
  home_position : Q * Q * Q
}.

(** [@dataclass MatcherDecision] *)
Record MatcherDecision : Type := {
  pick_uid : option Z;
  place_uid : option Z;
  debug : debug_dict
}.

(** [(?:pick|grab|take|lift|pick up)\s+(?:the\s+)?(.+?)(?:\s+(?:and|then|,)|$)] *)
Definition pick_re : regex :=
  Cat (alts ["pick"; "grab"; "take"; "lift"; "pick up"])
 (Cat (Plus Space)
 (Cat (Opt (Cat (Lit "the") (Plus Space)))
 (Cat (Group (LazyPlus AnyChar))
      (Alt (Cat (Plus Space) (alts ["and"; "then"; ","])) Eos)))).

(** [(?:place|put|set|drop|stack)\s+(?:it\s+)?(?:on|onto|in|into|at|over)?\s*(?:the\s+)?(.+?)(?:\s+(?:and|then|,)|$)] *)
Definition place_re : regex :=
  Cat (alts ["place"; "put"; "set"; "drop"; "stack"])
 (Cat (Plus Space)
 (Cat (Opt (Cat (Lit "it") (Plus Space)))
 (Cat (Opt (alts ["on"; "onto"; "in"; "into"; "at"; "over"]))
 (Cat (Star Space)
 (Cat (Opt (Cat (Lit "the") (Plus Space)))
 (Cat (Group (LazyPlus AnyChar))
      (Alt (Cat (Plus Space) (alts ["and"; "then"; ","])) Eos))))))).

(** [m.group(1).strip() if m else None] *)
Definition phrase_of (m : option (option string)) : option string :=
  match m with
  | Some g => Some (strip (group1 g))
  | None => None
  end.

Definition pick_phrase_of (txt : string) : option string :=
  phrase_of (search pick_re txt).

Definition place_phrase_of (txt : string) : option string :=
  phrase_of (search place_re txt).

(** The values [decide] gives [include_pick] and [include_place] for a
    lowercased command: whether a phrase is embedded for the role. *)
Definition include_pick_of (txt : string) : bool :=
  truthy_opt (pick_phrase_of txt).

Definition include_place_of (txt : string) : bool :=
  truthy_opt (place_phrase_of txt)
  && negb (opt_eqb (place_phrase_of txt) (pick_phrase_of txt)).

(** The four descriptors of one object. *)
Definition descriptors (meta : ObjectInfo) : list string :=
  [ name meta ++ " cube";
    name meta ++ " block";
    name meta ++ " object";
    name meta ++ " colored cube" ].

(** The loop over [objects.items()] that fills [candidate_texts],
    [candidate_uid] and [uid_to_texts]. *)
Definition build_candidates (objects : list (Z * ObjectInfo))
  : list string * list Z * dict Z (list string) :=
  fold_left
    (fun acc (item : Z * ObjectInfo) =>
       let '(candidate_texts, candidate_uid, uid_to_texts) := acc in
       let '(u, meta) := item in
       let descs := descriptors meta in
       ((candidate_texts ++ descs)%list,
        (candidate_uid ++ map (fun _ => u) descs)%list,
        set Z.eqb uid_to_texts u descs))
    objects ([], [], []).

Definition is_none {A : Type} (o : option A) : bool :=
  match o with None => true | Some _ => false end.

(** [for uid, score in sorted_uids: if uid != pick_uid: ...; break] *)
Fixpoint first_other (pick : Z) (l : list (Z * Q)) : option (Z * Q) :=
  match l with
  | [] => None
  | (u, s) :: l' => if Z.eqb u pick then first_other pick l' else Some (u, s)
  end.

(** The loop that pools the whole-command scores per object:
    [uid_scores[uid] = max(uid_scores.get(uid, -1.0), val)]. *)
Definition pool_scores (scores : list Q) (uids : list Z) : dict Z Q :=
  fold_left
    (fun (acc : dict Z Q) (su : Q * Z) =>
       let '(val, u) := su in
       set Z.eqb acc u (max2 (get_default Z.eqb acc u (-1)%Q) val))
    (combine scores uids) [].

Section Decide.
Context `{EP : EmbeddingProvider}.

(** [util.cos_sim(e.unsqueeze(0), candidate_embs)[0]] *)
Definition cos_row (e : Emb) (candidate_embs : list Emb) : list Q :=
  map (cos_sim e) candidate_embs.

(** The inner function [best_uid_for]. *)
Definition best_uid_for (candidate_uid : list Z) (candidate_embs : list Emb)
           (embedding : Emb) : result (Z * Q) :=
  let scores := cos_row embedding candidate_embs in
  best_index <- argmax scores ;;
  u <- list_get candidate_uid best_index ;;
  s <- list_get scores best_index ;;
  Ok (u, s).

(** Lines 192-203 of [decide], the whole-command fallback: when a role
    is still unresolved, the objects are ranked by their best score
    against the whole command; pick takes the first and place the
    second. *)
Definition fallback (user_emb : Emb) (candidate_embs : list Emb)
           (candidate_uid : list Z)
           (pick_uid place_uid : option Z) (debug : debug_dict)
  : result (option Z * option Z * debug_dict) :=
  if is_none pick_uid || is_none place_uid then
    let scores_full := cos_row user_emb candidate_embs in
    let uid_scores := pool_scores scores_full candidate_uid in
    let sorted_uids := sorted_desc uid_scores in
    let debug := dset debug "fallback_scores" (VScores sorted_uids) in
    pick_uid <-
      (match pick_uid, sorted_uids with
       | None, _ :: _ => e <- list_get sorted_uids 0 ;; Ok (Some (fst e))
       | _, _ => Ok pick_uid
       end) ;;
    place_uid <-
      (if is_none place_uid && (1 <? List.length sorted_uids)%nat
       then e <- list_get sorted_uids 1 ;; Ok (Some (fst e))
       else Ok place_uid) ;;
    Ok (pick_uid, place_uid, debug)
  else Ok (pick_uid, place_uid, debug).

(** Lines 205-216 of [decide]: pick and place are the same object and
    more than one object is visible, so place moves to the first other
    object in the order of the whole-command scores. *)
Definition resolve_same_object (n_objects : nat) (user_emb : Emb)
           (candidate_embs : list Emb) (candidate_uid : list Z)
           (pick_uid place_uid : option Z) (debug : debug_dict)
  : result (option Z * debug_dict) :=
  match pick_uid, place_uid with
  | Some pk, Some pl =>
      if Z.eqb pk pl && (1 <? n_objects)%nat then
        let scores_full := cos_row user_emb candidate_embs in
        scored <- mapM (fun iu : nat * Z =>
                          s <- list_get scores_full (fst iu) ;;
                          Ok (snd iu, s))
                       (enumerate candidate_uid) ;;
        let sorted_uids := sorted_desc scored in
        match first_other pk sorted_uids with
        | Some (u, score) =>
            Ok (Some u, dset debug "resolved_same_object" (VFloat score))
        | None => Ok (place_uid, debug)
        end
      else Ok (place_uid, debug)
  | _, _ => Ok (place_uid, debug)
  end.

(** Lines 163-172 of [decide]: the rows of the batch are taken apart
    again, in the order the texts went in. *)
Definition split_embeddings (embeddings : list Emb)
           (include_pick include_place : bool)
  : result (Emb * option Emb * option Emb * list Emb) :=
  user_emb <- list_get embeddings 0 ;;
  let idx := 1%nat in
  '(pick_emb, idx) <-
    (if include_pick
     then e <- list_get embeddings idx ;; Ok (Some e, S idx)
     else Ok (None, idx)) ;;
  '(place_emb, idx) <-
    (if include_place
     then e <- list_get embeddings idx ;; Ok (Some e, S idx)
     else Ok (None, idx)) ;;
  Ok (user_emb, pick_emb, place_emb, skipn idx embeddings).

(** [SemanticMatcher.decide]; the image and the segmentation mask are
    not read by the method and are left out. *)
Definition decide (command : string) (objects : list (Z * ObjectInfo))
  : result MatcherDecision :=
  match objects with
  | [] => Ok {| pick_uid := None; place_uid := None;
                debug := [("error", VStr "no visible objects")] |}
  | _ :: _ =>
  let normalized := strip command in
  if negb (truthy normalized) then
    Ok {| pick_uid := None; place_uid := None;
          debug := [("error", VStr "empty command")] |}
  else
  let txt := lower normalized in
  let debug : debug_dict := [] in
  let pick_phrase := pick_phrase_of txt in
  let place_phrase := place_phrase_of txt in
  let debug := dset debug "pick_phrase" (of_opt_str pick_phrase) in
  let debug := dset debug "place_phrase" (of_opt_str place_phrase) in
  let '(candidate_texts, candidate_uid, uid_to_texts) :=
    build_candidates objects in
  let include_pick := truthy_opt pick_phrase in
  let include_place :=
    truthy_opt place_phrase && negb (opt_eqb place_phrase pick_phrase) in
  let texts_to_embed :=
    ([txt]
     ++ (if include_pick then [text_of pick_phrase] else [])
     ++ (if include_place then [text_of place_phrase] else [])
     ++ candidate_texts)%list in
  let embeddings := encode texts_to_embed in
  '(user_emb, pick_emb, place_emb, candidate_embs) <-
    split_embeddings embeddings include_pick include_place ;;
  match candidate_embs with
  | [] => Ok {| pick_uid := None; place_uid := None;
                debug := [("error", VStr "no candidate embeddings")] |}
  | _ :: _ =>
  '(pick_uid, debug) <-
    match pick_emb with
    | Some e =>
        '(u, s) <- best_uid_for candidate_uid candidate_embs e ;;
        Ok (Some u, dset debug "pick_score" (VFloat s))
    | None => Ok (None, debug)
    end ;;
  '(place_uid, debug) <-
    match place_emb with
    | Some e =>
        '(u, s) <- best_uid_for candidate_uid candidate_embs e ;;
        Ok (Some u, dset debug "place_score" (VFloat s))
    | None => Ok (None, debug)
    end ;;
  '(pick_uid, place_uid, debug) <-
    fallback user_emb candidate_embs candidate_uid pick_uid place_uid debug ;;
  '(place_uid, debug) <-
    resolve_same_object (List.length objects) user_emb candidate_embs
                        candidate_uid pick_uid place_uid debug ;;
  let debug := dset debug "uid_to_texts" (VTexts uid_to_texts) in
  Ok {| pick_uid := pick_uid; place_uid := place_uid; debug := debug |}
  end
  end.
End Decide.

End P.

(* ================================================================== *)
(** * [Simullation.py]: [CLIPMatcher] *)

Module Sim.
Import PyStr Re Py.

(** The metadata [create_scene] stores per cube:
    [{'name': name, 'color': col}]. Every entry carries a name, so the
    default of [meta.get('name', 'object')] is never taken. *)
Record ObjectMeta : Type := {
  name : string;
  color : Q * Q * Q * Q
}.

(** What [place_uid] can hold besides [None]: the uid of an object or the
    string ["GROUND"]. *)
Inductive place_target : Type :=
| PlaceObj (uid : Z)
| GROUND.

Definition ground_keywords : list string :=
  ["ground"; "table"; "floor"; "down"; "surface"].

(** [any(keyword in s for keyword in ground_keywords)] *)
Definition any_ground_keyword (s : string) : bool :=
  existsb (fun keyword => contains keyword s) ground_keywords.

Definition pick_verbs : regex :=
  Alt (Cat (Lit "pick") (Cat (Plus Space) (Lit "up")))
      (alts ["pick"; "grab"; "take"; "lift"; "get"]).

Definition to_words : regex := alts ["on"; "onto"; "to"; "at"; "over"].

Definition opt_the : regex := Opt (Cat (Lit "the") (Plus Space)).

Definition one_word : regex := Group (Plus Word).

Definition two_words : regex :=
  Group (Cat (Plus Word) (Cat (Plus Space) (Plus Word))).

(** [pick_patterns] *)
Definition pick_patterns : list regex :=
  [ Cat pick_verbs (Cat (Plus Space) (Cat opt_the one_word));
    Cat pick_verbs (Cat (Plus Space) (Cat opt_the two_words)) ].

(** [place_patterns] *)
Definition place_patterns : list regex :=
  [ Cat (alts ["place"; "put"; "set"; "drop"; "move"])
   (Cat (LazyStar AnyChar)
   (Cat to_words (Cat (Plus Space) (Cat opt_the one_word))));
    Cat to_words (Cat (Plus Space) (Cat opt_the two_words));
    Cat to_words (Cat (Plus Space) (Cat opt_the one_word)) ].

(** [for pattern in patterns: m = re.search(pattern, txt); if m:
    phrase = m.group(1).strip(); break] *)
Fixpoint first_match (patterns : list regex) (txt : string) : option string :=
  match patterns with
  | [] => None
  | pattern :: rest =>
      match search pattern txt with
      | Some g => Some (strip (group1 g))
      | None => first_match rest txt
      end
  end.

Definition pick_phrase_of (txt : string) : option string :=
  first_match pick_patterns txt.

Definition place_phrase_of (txt : string) : option string :=
  first_match place_patterns txt.

(** The five candidate descriptions of one object. *)
Definition candidate_texts (meta : ObjectMeta) : list string :=
  let color_name := name meta in
  [ color_name;
    color_name ++ " cube";
    color_name ++ " block";
    "the " ++ color_name;
    "the " ++ color_name ++ " cube" ].

(** The loop that fills [lookup_texts] and [cand_index_to_uid]. *)
Definition build_lookup (objects_meta : list (Z * ObjectMeta))
  : list string * list Z :=
  fold_left
    (fun acc (item : Z * ObjectMeta) =>
       let '(lookup_texts, cand_index_to_uid) := acc in
       let '(u, meta) := item in
       let texts := candidate_texts meta in
       ((lookup_texts ++ texts)%list,
        (cand_index_to_uid ++ map (fun _ => u) texts)%list))
    objects_meta ([], []).

Definition phrase_variations (phrase : string) : list string :=
  [ phrase; "the " ++ phrase; phrase ++ " cube"; phrase ++ " block" ].

(** [torch.stack(all_sims).max(dim=0)[0]]: the entrywise maximum of rows
    of one length. *)
Definition elementwise_max (rows : list (list Q)) : list Q :=
  match rows with
  | [] => []
  | r :: rest =>
      fold_left
        (fun acc r' => map (fun ab => max2 (fst ab) (snd ab)) (combine acc r'))
        rest r
  end.

(** [if exclude_uid and uid == exclude_uid]: [None] and the uid [0] are
    both false as a condition. *)
Definition excluded (exclude_uid : option Z) (u : Z) : bool :=
  match exclude_uid with
  | Some e => negb (Z.eqb e 0) && Z.eqb u e
  | None => false
  end.

(** The loop of [best_uid_for] over [enumerate(max_sims)]; entry [idx] of
    [max_sims] belongs to [cand_index_to_uid[idx]], and the two lists have
    one length. *)
Definition pool_scores (exclude_uid : option Z) (cand_index_to_uid : list Z)
           (max_sims : list Q) : dict Z Q :=
  fold_left
    (fun (uid_scores : dict Z Q) (us : Z * Q) =>
       let '(u, score) := us in
       if excluded exclude_uid u then uid_scores
       else set Z.eqb uid_scores u
                (max2 (get_default Z.eqb uid_scores u (-1)%Q) score))
    (combine cand_index_to_uid max_sims) [].

(** [meta['name'] in txt] for one item of [objects_meta]. *)
Definition contains_name (txt : string) (item : Z * ObjectMeta) : bool :=
  contains (name (snd item)) txt.

(** The fallback loop [for uid, meta in objects_meta.items(): if
    meta['name'] in txt: ...; break]. *)
Fixpoint direct_color_match (txt : string) (objects_meta : list (Z * ObjectMeta))
  : option (Z * string) :=
  match objects_meta with
  | [] => None
  | (u, meta) :: rest =>
      if contains (name meta) txt then Some (u, name meta)
      else direct_color_match txt rest
  end.

Section Matcher.
Context `{EP : EmbeddingProvider}.

(** [CLIPMatcher.encode_text] *)
Definition encode_text (texts : list string) : list Emb := encode texts.

(** [CLIPMatcher.compute_similarity] for one query row: the 1 x N
    product squeezed to its N entries (N is a multiple of five here). *)
Definition compute_similarity (query_features candidate_features : list Emb)
  : list Q :=
  match query_features with
  | q :: _ => map (cos_sim q) candidate_features
  | [] => []
  end.

(** The inner function [best_uid_for]. *)
Definition best_uid_for (cand_features : list Emb) (cand_index_to_uid : list Z)
           (phrase : string) (exclude_uid : option Z) : option Z * Q :=
  let all_sims :=
    map (fun var =>
           let phrase_feature := encode_text [var] in
           compute_similarity phrase_feature cand_features)
        (phrase_variations phrase) in
  let max_sims := elementwise_max all_sims in
  let uid_scores := pool_scores exclude_uid cand_index_to_uid max_sims in
  match uid_scores with
  | [] => (None, 0%Q)
  | first :: rest =>
      let best_uid := max_by_score first rest in
      (Some (fst best_uid), snd best_uid)
  end.

(** [CLIPMatcher.pick_and_place_from_text] *)
Definition pick_and_place_from_text (text : string)
           (objects_meta : list (Z * ObjectMeta))
  : option Z * option place_target * debug_dict :=
  let txt := lower text in
  let place_on_ground := any_ground_keyword txt in
  let pick_phrase := pick_phrase_of txt in
  let place_phrase := place_phrase_of txt in
  let place_on_ground :=
    match place_phrase with
    | Some p => if any_ground_keyword p then true else place_on_ground
    | None => place_on_ground
    end in
  let '(lookup_texts, cand_index_to_uid) := build_lookup objects_meta in
  let cand_features := encode_text lookup_texts in
  let best := best_uid_for cand_features cand_index_to_uid in
  let pick_uid : option Z := None in
  let place_uid : option place_target := None in
  let debug_scores : debug_dict := [("place_on_ground", VBool place_on_ground)] in
  let '(pick_uid, debug_scores) :=
    if truthy_opt pick_phrase then
      let '(u, pick_score) := best (text_of pick_phrase) None in
      (u, dset (dset debug_scores "pick_score" (VFloat pick_score))
               "pick_phrase" (of_opt_str pick_phrase))
    else (pick_uid, debug_scores) in
  let '(place_uid, debug_scores) :=
    if place_on_ground then
      (Some GROUND, dset debug_scores "ground_detected" (VBool true))
    else if truthy_opt place_phrase && negb (opt_eqb place_phrase pick_phrase)
    then
      let '(u, place_score) := best (text_of place_phrase) pick_uid in
      (option_map PlaceObj u,
       dset (dset debug_scores "place_score" (VFloat place_score))
            "place_phrase" (of_opt_str place_phrase))
    else (place_uid, debug_scores) in
  let '(pick_uid, debug_scores) :=
    match pick_uid with
    | Some _ => (pick_uid, debug_scores)
    | None =>
        match direct_color_match txt objects_meta with
        | Some (u, color) =>
            (Some u, dset debug_scores "direct_color_match" (VStr color))
        | None =>
            let '(u, score) := best txt None in
            (u, dset debug_scores "fallback_pick_score" (VFloat score))
        end
    end in
  (pick_uid, place_uid, debug_scores).
End Matcher.

End Sim.

(* ================================================================== *)
(** * Float32

    The tensors of [ActionTokenizerV2] are float32 (torch's default), and
    every operation on them rounds its exact result to the nearest
    float32, ties to even. [f32] is that rounding on the rationals: 24
    significant bits, the exponent range not modelled (no overflow to
    infinity, no subnormals). *)

Module Float32.
Local Open Scope Q_scope.

(** Round to the nearest integer, ties to even. *)
Definition rne (x : Q) : Z :=
  let f := Qfloor x in
  match Qcompare (x - inject_Z f) (1 # 2) with
  | Lt => f
  | Gt => (f + 1)%Z
  | Eq => if Z.even f then f else (f + 1)%Z
  end.

(** For [a > 0], the exponent [e] with [2^e <= a < 2^(e+1)]. *)
Definition expo (a : Q) : Z :=
  let k := (Z.log2 (Qnum a) - Z.log2 (Zpos (Qden a)))%Z in
  if Qle_bool (2 ^ k) a then k else (k - 1)%Z.

(** The float32 nearest to a positive real: a significand of 24 bits
    times the unit in the last place. *)
Definition mag (a : Q) : Q :=
  let ulp := 2 ^ (expo a - 23) in
  inject_Z (rne (a / ulp)) * ulp.

Definition f32 (q : Q) : Q :=
  match Qcompare q 0 with
  | Eq => 0
  | Gt => mag q
  | Lt => - mag (- q)
  end.

End Float32.

(** The number format of a tensor: how the exact result of an operation
    is rounded. [float32] is what the code runs on; [unrounded] is the
    same code on exact numbers. *)
Class Rounding : Type := { rnd : Q -> Q }.

Definition float32 : Rounding := {| rnd := Float32.f32 |}.

Definition unrounded : Rounding := {| rnd := fun x => x |}.

(* ================================================================== *)
(** * [Simullation.py]: [ActionTokenizerV2] *)

Module ActionTokenizerV2.
Import PyStr Py.
Local Open Scope result_scope.
Local Open Scope Q_scope.

(** [math.pi], the double 3.141592653589793, as the rational it is. *)
Definition math_pi : Q := 884279719003555 # 281474976710656.

Section Tensors.
Context {R : Rounding}.

(** [torch.linspace(start, end, steps)]: [steps] evenly spaced points from
    [start] to [end], both included, each rounded to the format of the
    tensor. (The kernel rounds its intermediate results too, so its last
    bit may differ; nothing below depends on it.) *)
Definition linspace (start stop : Q) (steps : nat) : list Q :=
  map (fun i : nat =>
         rnd (start + inject_Z (Z.of_nat i) *
                      ((stop - start) / inject_Z (Z.of_nat (steps - 1)))))
      (seq 0 steps).

(** The fields [__init__] sets. *)
Record t : Type := {
  x_bins : list Q;
  y_bins : list Q;
  z_bins : list Q;
  yaw_bins : list Q
}.

(** [ActionTokenizerV2(env_size_meters, env_height_meters)] *)
Definition init (env_size_meters env_height_meters : Q) : t :=
  let half_size := env_size_meters / 2 in
  {| x_bins := linspace (- half_size) half_size 11;
     y_bins := linspace (- half_size) half_size 11;
     z_bins := linspace 0 env_height_meters 11;
     yaw_bins := linspace (- math_pi / 2) (math_pi / 2) 11 |}.

(** The defaults of [__init__], which [main] also passes. *)
Definition default : t := init 3 1.

(** [torch.argmin(torch.abs(bins - value)).item()], for [value] a tensor;
    the subtraction rounds, the absolute value is exact. *)
Definition closest_bin (value : Q) (bins : list Q) : result nat :=
  argmin (map (fun b => Qabs (rnd (b - value))) bins).

(** [ActionTokenizerV2.discretize]; [torch.tensor(float(value))] rounds
    the number to the format of the tensor. *)
Definition discretize (value : Q) (bins : list Q) (prefix : string)
  : result string :=
  let value := rnd value in
  idx <- closest_bin value bins ;;
  let token_val := (Z.of_nat idx - 5)%Z in
  Ok (prefix ++ "_" ++ format_plus_d token_val)%string.

(** [ActionTokenizerV2.position_to_tokens] *)
Definition position_to_tokens (self : t) (pos : Q * Q * Q) (rotation : Q)
  : result (list string) :=
  let '(px, py, pz) := pos in
  x_token <- discretize px (x_bins self) "POS_X" ;;
  y_token <- discretize py (y_bins self) "POS_Y" ;;
  z_token <- discretize pz (z_bins self) "POS_Z" ;;
  yaw_token <- discretize rotation (yaw_bins self) "ROT_YAW" ;;
  Ok [x_token; y_token; z_token; yaw_token].

(** [ActionTokenizerV2.action_to_tokens] *)
Definition action_to_tokens (self : t) (action_type : string)
           (pos : Q * Q * Q) (rotation : Q) : result (list string) :=
  let tokens := [("ACTION_" ++ upper action_type)%string] in
  rest <- position_to_tokens self pos rotation ;;
  Ok (tokens ++ rest)%list.
End Tensors.

(** The four axes [position_to_tokens] discretizes, each with its bins,
    its token prefix and the ends of its range. *)
Inductive axis : Type := AxisX | AxisY | AxisZ | AxisYaw.

Definition bins_of (self : t) (a : axis) : list Q :=
  match a with
  | AxisX => x_bins self
  | AxisY => y_bins self
  | AxisZ => z_bins self
  | AxisYaw => yaw_bins self
  end.

Definition prefix_of (a : axis) : string :=
  match a with
  | AxisX => "POS_X"
  | AxisY => "POS_Y"
  | AxisZ => "POS_Z"
  | AxisYaw => "ROT_YAW"
  end.

Definition range_of (env_size_meters env_height_meters : Q) (a : axis) : Q * Q :=
  match a with
  | AxisX | AxisY => (- (env_size_meters / 2), env_size_meters / 2)
  | AxisZ => (0, env_height_meters)
  | AxisYaw => (- math_pi / 2, math_pi / 2)
  end.

(** The text of a token with integer component [n]. *)
Definition token (a : axis) (n : Z) : string :=
  (prefix_of a ++ "_" ++ format_plus_d n)%string.

End ActionTokenizerV2.

(* ================================================================== *)
(** * [Simullation.py]: [ActionExecutor] *)

Module ActionExecutor.
Local Open Scope list_scope.
Local Open Scope Q_scope.

(** An 8D action: [(terminate, x, y, z, roll, pitch, yaw, gripper)]. *)
Record action : Type := {
  terminate : Z;
  pos_x : Q; pos_y : Q; pos_z : Q;
  roll : Q; pitch : Q; yaw : Q;
  gripper : Z
}.

(** [(flag, *pos, *rot, gripper)] *)
Definition vec (flag : Z) (pos rot : Q * Q * Q) (grip : Z) : action :=
  let '(x, y, z) := pos in
  let '(r, p, w) := rot in
  {| terminate := flag; pos_x := x; pos_y := y; pos_z := z;
     roll := r; pitch := p; yaw := w; gripper := grip |}.

(** The fields of an executor. *)
Record t : Type := {
  home_pos : Q * Q * Q;
  home_rot : Q * Q * Q;
  gripper_open : Z
}.

(** [ActionExecutor()] *)
Definition init : t :=
  {| home_pos := (0, 0, 7 # 10); home_rot := (0, 0, 0); gripper_open := 1%Z |}.

Definition set_gripper_open (self : t) (g : Z) : t :=
  {| home_pos := home_pos self; home_rot := home_rot self; gripper_open := g |}.

Definition above (pos : Q * Q * Q) : Q * Q * Q :=
  let '(x, y, z) := pos in (x, y, z + (1 # 10)).

(** [ActionExecutor.generate_pick_actions]: the actions returned and the
    executor after the call. *)
Definition generate_pick_actions (self : t) (pos : Q * Q * Q) (is_final : bool)
  : list action * t :=
  let actions := [] in
  let pos_above := above pos in
  let actions := actions ++ [vec 0 pos_above (home_rot self) 1] in
  let actions := actions ++ [vec 0 pos (home_rot self) 1] in
  let self := set_gripper_open self 0 in
  let actions := actions ++ [vec 0 pos (home_rot self) 0] in
  let terminate_flag := if is_final then 1%Z else 0%Z in
  let actions := actions ++ [vec terminate_flag pos_above (home_rot self) 0] in
  (actions, self).

(** [ActionExecutor.generate_place_actions] *)
Definition generate_place_actions (self : t) (pos : Q * Q * Q) (is_final : bool)
  : list action * t :=
  let actions := [] in
  let pos_above := above pos in
  let actions := actions ++ [vec 0 pos_above (home_rot self) 0] in
  let actions := actions ++ [vec 0 pos (home_rot self) 0] in
  let self := set_gripper_open self 1 in
  let actions := actions ++ [vec 0 pos (home_rot self) 1] in
  let terminate_flag := if is_final then 1%Z else 0%Z in
  let actions := actions ++ [vec 0 pos_above (home_rot self) 1] in
  let actions := actions ++ [vec terminate_flag (home_pos self) (home_rot self) 1] in
  (actions, self).

(** One call of a generator, and the executor after a history of calls. *)
Inductive call : Type :=
| CallPick (pos : Q * Q * Q) (is_final : bool)
| CallPlace (pos : Q * Q * Q) (is_final : bool).

Definition step (self : t) (c : call) : list action * t :=
  match c with
  | CallPick pos is_final => generate_pick_actions self pos is_final
  | CallPlace pos is_final => generate_place_actions self pos is_final
  end.

Definition after (history : list call) (self : t) : t :=
  fold_left (fun s c => snd (step s c)) history self.

End ActionExecutor.


(* ================================================================== *)
(** * [p_clip.py]: [CLIPSemanticMatcher]

    The matcher scores a phrase against the image crop of every visible
    object. The crops come from the camera image and the segmentation
    mask; the model starts from their features, [image_feats], one entry
    per object that has a crop, in the order of [objects_meta]. CLIP puts
    texts and images in one space, so a crop's feature is an [Emb]. *)

Module PClip.
Import PyStr Re Py.
Local Open Scope result_scope.

(** [(?:place|put|set|drop|stack)\s+(?:it\s+)?(?:on|onto|in|into|at|over|onto)?\s*(?:the\s+)?(.+?)(?:\s+(?:and|then|,)|$)];
    the pick pattern is the one of [p.py]. *)
Definition place_re : regex :=
  Cat (alts ["place"; "put"; "set"; "drop"; "stack"])
 (Cat (Plus Space)
 (Cat (Opt (Cat (Lit "it") (Plus Space)))
 (Cat (Opt (alts ["on"; "onto"; "in"; "into"; "at"; "over"; "onto"]))
 (Cat (Star Space)
 (Cat (Opt (Cat (Lit "the") (Plus Space)))
 (Cat (Group (LazyPlus AnyChar))
      (Alt (Cat (Plus Space) (alts ["and"; "then"; ","])) Eos))))))).

Definition pick_phrase_of (txt : string) : option string :=
  P.phrase_of (search P.pick_re txt).

Definition place_phrase_of (txt : string) : option string :=
  P.phrase_of (search place_re txt).

Definition of_opt_uid (o : option Z) : pyval :=
  match o with Some u => VInt u | None => VNone end.

(** [for uid, s in sorted_uids: if uid != pick_uid: ...; break] *)
Definition first_other (pick : Z) (l : list (Z * Q)) : option (Z * Q) :=
  P.first_other pick l.

Section Matcher.
Context `{EP : EmbeddingProvider}.

(** [self._encode_text([t])[0]] *)
Definition text_emb (t : string) : result Emb := list_get (encode [t]) 0.

(** [{uid: float(t_emb @ ifeat) for uid, ifeat in image_feats.items()}] *)
Definition image_scores (t_emb : Emb) (image_feats : list (Z * Emb))
  : list (Z * Q) :=
  map (fun uf => (fst uf, cos_sim t_emb (snd uf))) image_feats.

(** The inner function [best_uid_for_phrase]. *)
Definition best_uid_for_phrase (image_feats : list (Z * Emb))
           (phrase : option string) : result (option Z * option Q) :=
  match phrase with
  | None => Ok (None, None)
  | Some phrase =>
      if negb (truthy (strip phrase)) then Ok (None, None)
      else
        t_emb <- text_emb phrase ;;
        let scored := image_scores t_emb image_feats in
        let sims := map snd scored in
        let uids := map fst scored in
        match sims with
        | [] => Ok (None, None)
        | _ :: _ =>
            best_idx <- argmax sims ;;
            u <- list_get uids best_idx ;;
            s <- list_get sims best_idx ;;
            Ok (Some u, Some s)
        end
  end.

(** [CLIPSemanticMatcher.pick_and_place_from_text], from the features of
    the crops on. *)
Definition pick_and_place_from_text (text : string) (visible_uids : list Z)
           (image_feats : list (Z * Emb))
  : result (option Z * option Z * debug_dict) :=
  let txt := strip (lower text) in
  let pick_phrase := pick_phrase_of txt in
  let place_phrase := place_phrase_of txt in
  match image_feats with
  | [] => Ok (None, None, [("error", VStr "no visible crops")])
  | _ :: _ =>
  let debug_scores : debug_dict := [] in
  '(pick_uid, pick_score, debug_scores) <-
    (if truthy_opt pick_phrase then
       '(u, sc) <- best_uid_for_phrase image_feats pick_phrase ;;
       match sc with
       | Some v =>
           Ok (u, sc, dset debug_scores "pick_phrase"
                        (VTriple (of_opt_str pick_phrase) (of_opt_uid u) (VFloat v)))
       | None => Ok (u, sc, debug_scores)
       end
     else Ok (None, None, debug_scores)) ;;
  '(place_uid, place_score, debug_scores) <-
    (if truthy_opt place_phrase then
       '(u, sc) <- best_uid_for_phrase image_feats place_phrase ;;
       match sc with
       | Some v =>
           Ok (u, sc, dset debug_scores "place_phrase"
                        (VTriple (of_opt_str place_phrase) (of_opt_uid u) (VFloat v)))
       | None => Ok (u, sc, debug_scores)
       end
     else Ok (None, None, debug_scores)) ;;
  '(pick_uid, place_uid, debug_scores) <-
    (if P.is_none pick_uid || P.is_none place_uid then
       t_emb <- text_emb txt ;;
       let uid_scores :=
         fold_left (fun (acc : dict Z Q) (us : Z * Q) =>
                      set Z.eqb acc (fst us) (snd us))
                   (image_scores t_emb image_feats) [] in
       let sorted_uids := sorted_desc uid_scores in
       '(pick_uid, debug_scores) <-
         (if P.is_none pick_uid && (1 <=? List.length sorted_uids)%nat then
            e <- list_get sorted_uids 0 ;;
            Ok (Some (fst e),
                dset debug_scores "fallback_pick"
                     (VPair (VInt (fst e)) (VFloat (snd e))))
          else Ok (pick_uid, debug_scores)) ;;
       '(place_uid, debug_scores) <-
         (if P.is_none place_uid && (2 <=? List.length sorted_uids)%nat then
            e <- list_get sorted_uids 1 ;;
            Ok (Some (fst e),
                dset debug_scores "fallback_place"
                     (VPair (VInt (fst e)) (VFloat (snd e))))
          else if P.is_none place_uid && (List.length sorted_uids =? 1)%nat
          then Ok (None, debug_scores)
          else Ok (place_uid, debug_scores)) ;;
       Ok (pick_uid, place_uid, debug_scores)
     else Ok (pick_uid, place_uid, debug_scores)) ;;
  '(place_uid, debug_scores) <-
    match pick_uid, place_uid with
    | Some pk, Some pl =>
        if Z.eqb pk pl then
          t_emb <- text_emb txt ;;
          let all_scores :=
            fold_left (fun (acc : dict Z Q) (us : Z * Q) =>
                         set Z.eqb acc (fst us) (snd us))
                      (image_scores t_emb image_feats) [] in
          let sorted_uids := sorted_desc all_scores in
          match first_other pk sorted_uids with
          | Some (u, s) =>
              Ok (Some u, dset debug_scores "resolved_same"
                               (VPair (VInt pk) (VInt u)))
          | None => Ok (place_uid, debug_scores)
          end
        else Ok (place_uid, debug_scores)
    | _, _ => Ok (place_uid, debug_scores)
    end ;;
  let debug_scores :=
    dset debug_scores "visible_uids" (VInts visible_uids) in
  Ok (pick_uid, place_uid, debug_scores)
  end.
End Matcher.

End PClip.

(* ================================================================== *)
(** * Encoders and scenes to run the matchers on *)

Module Encoders.

(** Every text is its own axis: equal texts have similarity 1, different
    texts 0. *)
Definition one_hot : EmbeddingProvider :=
  {| Emb := string;
     encode := fun texts => texts;
     cos_sim := fun a b => if String.eqb a b then 1%Q else 0%Q;
     encode_length := fun texts => eq_refl |}.

(** Every text has the same vector, so every similarity is 1 and every
    comparison of scores is a tie. *)
Definition constant : EmbeddingProvider :=
  {| Emb := unit;
     encode := map (fun _ => tt);
     cos_sim := fun _ _ => 1%Q;
     encode_length := length_map (fun _ => tt) |}.

End Encoders.

Module Scenes.

(** An [ObjectInfo] of [p.py] for a cube called [n] with body id [u]. *)
Definition cube (u : Z) (n : string) : Z * P.ObjectInfo :=
  (u, {| P.uid := u; P.name := n; P.color := (0, 0, 0, 1)%Q;
         P.home_position := (0, 0, 0)%Q |}).

Definition three_cubes : list (Z * P.ObjectInfo) :=
  [cube 2 "red"; cube 3 "green"; cube 4 "blue"].

(** The metadata of a cube of [Simullation.py]. *)
Definition meta (n : string) (rgba : Q * Q * Q * Q) : Sim.ObjectMeta :=
  {| Sim.name := n; Sim.color := rgba |}.

Definition red_cube : Sim.ObjectMeta := meta "red" (1, 0, 0, 1)%Q.
Definition green_cube : Sim.ObjectMeta := meta "green" (0, 1, 0, 1)%Q.
Definition blue_cube : Sim.ObjectMeta := meta "blue" (0, 0, 1, 1)%Q.

(** The dict [create_scene] returns: the plane is body 0 and the robot
    body 1, so the cubes are bodies 2, 3 and 4. *)
Definition create_scene : list (Z * Sim.ObjectMeta) :=
  [(2%Z, red_cube); (3%Z, green_cube); (4%Z, blue_cube)].

End Scenes.

(* ================================================================== *)
(** * [Simullation.py]: [ObjectDatabase]

    The poses come from the physics engine: [getBasePositionAndOrientation]
    and [getEulerFromQuaternion] are its calls, for the bodies of the
    scene. *)

Module ObjectDatabase.
Import PyStr Py.

(** A value of [self.objects]:
    [{'uid': .., 'pos': .., 'rotation': .., 'type': 'item', 'meta': ..}] *)
Record entry : Type := {
  uid : Z;
  pos : Q * Q * Q;
  rotation : Q;
  type : string;
  meta : Sim.ObjectMeta
}.

(** The field of a database: a dict from the name of an object to its
    entry. *)
Record t : Type := { objects : dict string entry }.

(** [ObjectDatabase()] *)
Definition init : t := {| objects := [] |}.

Section PyBullet.
Variable getBasePositionAndOrientation : Z -> (Q * Q * Q) * (Q * Q * Q * Q).
Variable getEulerFromQuaternion : Q * Q * Q * Q -> Q * Q * Q.

(** The entry the loop of [update_from_pybullet] stores for one cube. *)
Definition entry_of (item : Z * Sim.ObjectMeta) : entry :=
  let '(uid, meta) := item in
  let '(pos, orn) := getBasePositionAndOrientation uid in
  let euler := getEulerFromQuaternion orn in
  {| uid := uid; pos := pos; rotation := snd euler; type := "item";
     meta := meta |}.

(** [ObjectDatabase.update_from_pybullet] *)
Definition update_from_pybullet (self : t)
           (cubes_dict : list (Z * Sim.ObjectMeta)) : t :=
  let objects : dict string entry := [] in
  {| objects :=
       fold_left
         (fun objects (item : Z * Sim.ObjectMeta) =>
            set String.eqb objects (Sim.name (snd item)) (entry_of item))
         cubes_dict objects |}.
End PyBullet.

(** [name.lower() in obj_name.lower()] *)
Definition name_matches (name obj_name : string) : bool :=
  contains (lower name) (lower obj_name).

(** The loop of [find_object] over [self.objects.items()]. *)
Fixpoint find_in (name : string) (items : list (string * entry))
  : option entry :=
  match items with
  | [] => None
  | (obj_name, data) :: rest =>
      if name_matches name obj_name then Some data else find_in name rest
  end.

(** [ObjectDatabase.find_object]: the first entry, in the order of the
    dict, whose name contains the name asked for, letter case apart. *)
Definition find_object (self : t) (name : string) : option entry :=
  find_in name (objects self).

End ObjectDatabase.

(* ================================================================== *)
(** * Streams of action vectors *)

Module Streams.
Import ActionExecutor.
Local Open Scope list_scope.

(** The vectors a history of calls produces, in order, from an executor
    on. *)
Fixpoint stream (self : t) (history : list call) : list action :=
  match history with
  | [] => []
  | c :: rest => fst (step self c) ++ stream (snd (step self c)) rest
  end.

(** Picks and places take turns, as in [main]: a pick when nothing is
    held, a place when something is. *)
Fixpoint alternating (holding : bool) (history : list call) : bool :=
  match history with
  | [] => true
  | CallPick _ _ :: rest => negb holding && alternating true rest
  | CallPlace _ _ :: rest => holding && alternating false rest
  end.

Definition position (a : action) : Q * Q * Q := (pos_x a, pos_y a, pos_z a).

(** From one vector to the next, the gripper keeps its state or the
    position stays the same. *)
Fixpoint calm (prev : action) (l : list action) : Prop :=
  match l with
  | [] => True
  | a :: rest =>
      (gripper prev = gripper a \/ position prev = position a) /\ calm a rest
  end.

End Streams.

(* ================================================================== *)
(** * Exceptions of the servers and the simulation *)

Module PyExc.

Inductive exc : Type :=
| TypeError
| AttributeError
| KeyError
| IndexError
| StopIteration
| SimulationNotStarted   (* RuntimeError("Simulation not started. Call start() first.") *)
| EmptyTensor            (* the RuntimeError of argmax on an empty tensor *)
| PyBulletError.         (* pybullet.error *)

(** What a call gives: a value, or an exception on its way up. *)
Inductive attempt (A : Type) : Type :=
| Got (a : A)
| Raised (e : exc).
Arguments Got {A} a.
Arguments Raised {A} e.

Definition and_then {A B : Type} (m : attempt A) (f : A -> attempt B)
  : attempt B :=
  match m with Got a => f a | Raised e => Raised e end.

(** The exceptions of the matcher, as the callers of [decide] see them. *)
Definition of_result {A : Type} (r : Py.result A) : attempt A :=
  match r with
  | Py.Ok a => Got a
  | Py.Raise Py.IndexError => Raised IndexError
  | Py.Raise Py.RuntimeError => Raised EmptyTensor
  end.

End PyExc.

(* ================================================================== *)
(** * Requests and responses of the Flask servers

    A request body is the value [request.get_json()] returns; a response
    is what a view returns, [jsonify(body), status]. The model starts
    from the parsed body: a body Flask cannot parse is not covered. An
    object is a dict with distinct keys. *)

Module Http.
Import PyStr PyExc.

#[warnings="-register-all"] Inductive json : Type :=
| JNull
| JBool (b : bool)
| JNum (q : Q)
| JStr (s : string)
| JList (l : list json)
| JObj (d : list (string * json)).

Definition response : Type := json * Z.

(** [bool(data)] *)
Definition truthy_json (data : json) : bool :=
  match data with
  | JNull => false
  | JBool b => b
  | JNum q => negb (Qeq_bool q 0)
  | JStr s => truthy s
  | JList l => match l with [] => false | _ :: _ => true end
  | JObj d => match d with [] => false | _ :: _ => true end
  end.

(** [key in data]: a key of a dict, an element of a list, a substring of
    a string; anything else is not iterable. *)
Definition contains_key (key : string) (data : json) : attempt bool :=
  match data with
  | JObj d => Got (existsb (fun kv => String.eqb (fst kv) key) d)
  | JList l =>
      Got (existsb (fun x => match x with
                             | JStr s => String.eqb s key
                             | _ => false
                             end) l)
  | JStr s => Got (contains key s)
  | JNull | JBool _ | JNum _ => Raised TypeError
  end.

(** [data[key]] for a key that is a string; the views ask only for a key
    they have found in [data]. *)
Definition getitem (data : json) (key : string) : attempt json :=
  match data with
  | JObj d =>
      match find (fun kv => String.eqb (fst kv) key) d with
      | Some kv => Got (snd kv)
      | None => Raised KeyError
      end
  | _ => Raised TypeError
  end.

(** [value.strip()] *)
Definition strip_of (value : json) : attempt string :=
  match value with
  | JStr s => Got (strip s)
  | _ => Raised AttributeError
  end.

(** [jsonify({"error": message, "status": "error"}), code] *)
Definition error_response (message : string) (code : Z) : response :=
  (JObj [("error", JStr message); ("status", JStr "error")], code).

(** The first lines of [simulate], the same in [server.py] and
    [demo_server.py]: the command of the request, or the response that
    refuses the request. *)
Definition read_command (data : json) : attempt (string + response) :=
  and_then
    (if negb (truthy_json data) then Got true
     else and_then (contains_key "command" data) (fun b => Got (negb b)))
    (fun missing =>
       if (missing : bool) then
         Got (inr (error_response "Missing 'command' in request body" 400))
       else
         and_then (getitem data "command") (fun value =>
         and_then (strip_of value) (fun command =>
         if negb (truthy command) then
           Got (inr (error_response "Command cannot be empty" 400))
         else Got (inl command)))).

(** [body[key]] of a response body. *)
Definition field (body : json) (key : string) : option json :=
  match body with
  | JObj d =>
      option_map snd (find (fun kv => String.eqb (fst kv) key) d)
  | _ => None
  end.

Section Str.
(** [str(e)] *)
Variable str : exc -> string.

(** [except Exception as e: return jsonify({"error": str(e), "status":
    "error", "message": message}), 500] *)
Definition except_response (message : string) (m : attempt response)
  : response :=
  match m with
  | Got r => r
  | Raised e =>
      (JObj [("error", JStr (str e)); ("status", JStr "error");
             ("message", JStr message)], 500%Z)
  end.
End Str.

End Http.

(* ================================================================== *)
(** * [demo_server.py] *)

Module DemoServer.
Import PyStr PyExc Http.
Local Open Scope Q_scope.

(** An entry of [simulation_state["objects"]]. *)
Record object : Type := {
  uid : Z;
  name : string;
  position : Q * Q * Q;
  color : Z * Z * Z
}.

Definition simulation_state : list object :=
  [ {| uid := 2; name := "red"; position := (55 # 100, - (15 # 100), 3 # 100);
       color := (255, 0, 0)%Z |};
    {| uid := 3; name := "green"; position := (55 # 100, 0, 3 # 100);
       color := (0, 255, 0)%Z |};
    {| uid := 4; name := "blue"; position := (55 # 100, 15 # 100, 3 # 100);
       color := (0, 0, 255)%Z |} ].

(** [objects[i]["uid"]] *)
Definition uid_at (objects : list object) (i : nat) : attempt Z :=
  match nth_error objects i with
  | Some obj => Got (uid obj)
  | None => Raised IndexError
  end.

(** [match_objects], on the objects of the state. *)
Definition match_objects (objects : list object) (command : string)
  : attempt (Z * Z) :=
  let command_lower := lower command in
  let '(pick_uid, place_uid) :=
    fold_left
      (fun (acc : option Z * option Z) obj =>
         let '(pick_uid, place_uid) := acc in
         if contains (name obj) command_lower then
           match pick_uid, place_uid with
           | None, _ => (Some (uid obj), place_uid)
           | Some _, None => (pick_uid, Some (uid obj))
           | Some _, Some _ => (pick_uid, place_uid)
           end
         else (pick_uid, place_uid))
      objects (None, None) in
  and_then (match pick_uid with
            | Some u => Got u
            | None => uid_at objects 0
            end) (fun pick_uid =>
  and_then (match place_uid with
            | Some u => Got u
            | None => uid_at objects 1
            end) (fun place_uid =>
  Got (pick_uid, place_uid))).

(** [next(obj for obj in objects if obj["uid"] == u)] *)
Definition object_of (objects : list object) (u : Z) : attempt object :=
  match find (fun obj => Z.eqb (uid obj) u) objects with
  | Some obj => Got obj
  | None => Raised StopIteration
  end.

Section Simulate.
(** [generate_mock_frame], the drawing of the scene as a PNG in base 64,
    [round(random.uniform(0.75, 0.95), 2)], and [str(e)]. *)
Variable generate_mock_frame : string -> Z -> Z -> string.
Variable semantic_score : Q.
Variable str : exc -> string.

(** The view [simulate]. *)
Definition simulate (data : json) : response :=
  except_response str "Failed to execute demo simulation"
    (and_then (read_command data) (fun r =>
     match r with
     | inr refused => Got refused
     | inl command =>
         and_then (match_objects simulation_state command) (fun uids =>
         let '(pick_uid, place_uid) := uids in
         let frame_base64 := generate_mock_frame command pick_uid place_uid in
         and_then (object_of simulation_state pick_uid) (fun pick_obj =>
         and_then (object_of simulation_state place_uid) (fun place_obj =>
         let '(x, y, z) := position place_obj in
         let drop_position := [JNum x; JNum y; JNum (z + (6 # 100))] in
         Got (JObj
                [ ("frame", JStr frame_base64);
                  ("pick_uid", JNum (inject_Z pick_uid));
                  ("place_uid", JNum (inject_Z place_uid));
                  ("drop_position", JList drop_position);
                  ("message", JStr "Command executed successfully (DEMO MODE)");
                  ("status", JStr "success");
                  ("debug",
                   JObj [ ("mode", JStr "demo");
                          ("note", JStr "Install PyBullet for real simulation");
                          ("pick_object", JStr (name pick_obj));
                          ("place_object", JStr (name place_obj));
                          ("semantic_score", JNum semantic_score) ]) ],
              200%Z))))
     end)).
End Simulate.

End DemoServer.

(* ================================================================== *)
(** * [p.py]: frames, [IKController] and [RT2Simulation]

    The physics engine is an interface, [Engine]: its state, the calls
    that query it and the calls that change it. The calls that drive the
    arm may raise; the cleanup calls the code wraps in [try/except: pass]
    cannot. Timing ([time.sleep]) is dropped. *)

Module Frames.

(** [mask_for_uid]: [(seg == uid) | ((seg % 1000) == uid)], on a
    segmentation mask given by its rows. *)
Definition mask_for_uid (seg : list (list Z)) (uid : Z) : list (list bool) :=
  map (map (fun s => Z.eqb s uid || Z.eqb (s mod 1000) uid)) seg.

(** [mask.any()] *)
Definition any (mask : list (list bool)) : bool :=
  existsb (existsb (fun b => b)) mask.

End Frames.

Class Engine : Type := {
  World : Type;
  Image : Type;
  (** [p.stepSimulation()] *)
  stepSimulation : World -> World;
  (** [p.getCameraImage(...)]: the picture and the segmentation mask *)
  getCameraImage : World -> Image * list (list Z);
  (** [p.getBasePositionAndOrientation(uid)[0]] *)
  getBasePosition : World -> Z -> Q * Q * Q;
  (** one round of [move_to]: [calculateInverseKinematics] and
      [setJointMotorControl2] on the joints *)
  drive : Q * Q * Q -> World -> PyExc.attempt unit * World;
  (** [getLinkState], [invertTransform], [multiplyTransforms] and
      [createConstraint]: the body is fixed to the end effector *)
  createConstraint : Z -> World -> PyExc.attempt Z * World;
  (** [try: p.removeConstraint(cid) except Exception: pass] *)
  removeConstraint : Z -> World -> World;
  (** [p.resetBasePositionAndOrientation(uid, pos, [0, 0, 0, 1])] *)
  resetBasePosition : Z -> Q * Q * Q -> World -> World;
  (** [Image.fromarray(img).save(buffer, format="PNG")] *)
  to_png : Image -> string
}.

Module Bullet.
Import PyExc.

Section Engine.
Context `{E : Engine}.

(** A method that reads and changes the state of the engine and returns
    or raises. *)
Definition M (A : Type) : Type := World -> attempt A * World.

Definition ret {A : Type} (a : A) : M A := fun w => (Got a, w).

Definition raise {A : Type} (e : exc) : M A := fun w => (Raised e, w).

Definition bindM {A B : Type} (m : M A) (f : A -> M B) : M B :=
  fun w =>
    match m w with
    | (Got a, w') => f a w'
    | (Raised e, w') => (Raised e, w')
    end.

Definition ask {A : Type} (f : World -> A) : M A := fun w => (Got (f w), w).

Definition change (f : World -> World) : M unit := fun w => (Got tt, f w).

End Engine.
End Bullet.

Declare Scope engine_scope.
Delimit Scope engine_scope with engine.
Notation "x <~ m ;; k" := (Bullet.bindM m (fun x => k))
  (at level 61, m at next level, right associativity) : engine_scope.
Notation "' p <~ m ;; k" := (Bullet.bindM m (fun x => let p := x in k))
  (at level 61, p pattern, m at next level, right associativity) : engine_scope.

Module IKController.
Import PyExc Bullet.
Local Open Scope Q_scope.
Local Open Scope engine_scope.

Section Engine.
Context `{E : Engine}.

(** [IKController.move_to] *)
Fixpoint move_to (target_pos : Q * Q * Q) (steps : nat) : M unit :=
  match steps with
  | O => ret tt
  | S n =>
      _ <~ drive target_pos ;;
      _ <~ change stepSimulation ;;
      move_to target_pos n
  end.

Definition raised_by (pos : Q * Q * Q) (dz : Q) : Q * Q * Q :=
  let '(x, y, z) := pos in (x, y, z + dz).

(** [IKController.pick] *)
Definition pick (obj_id : Z) : M Z :=
  pos <~ ask (fun w => getBasePosition w obj_id) ;;
  let approach := raised_by pos (18 # 100) in
  let grasp := raised_by pos (2 # 100) in
  _ <~ move_to approach 80 ;;
  _ <~ move_to grasp 80 ;;
  constraint_id <~ createConstraint obj_id ;;
  let lift := raised_by pos (25 # 100) in
  _ <~ move_to lift 80 ;;
  ret constraint_id.

(** [IKController.place_and_release] *)
Definition place_and_release (drop_pos : Q * Q * Q) (constraint_id : option Z)
  : M (option Z) :=
  let drop_above := raised_by drop_pos (25 # 100) in
  _ <~ move_to drop_above 80 ;;
  _ <~ move_to (raised_by drop_pos (5 # 100)) 60 ;;
  constraint_id <~
    match constraint_id with
    | Some cid => _ <~ change (removeConstraint cid) ;; ret None
    | None => ret constraint_id
    end ;;
  _ <~ move_to (raised_by drop_pos (30 # 100)) 80 ;;
  ret constraint_id.
End Engine.
End IKController.

Module RT2Simulation.
Import PyStr Py PyExc Bullet.
Local Open Scope Q_scope.
Local Open Scope engine_scope.

(** The values of the [debug] dict of a [CommandResult]: the entries of
    the matcher, and the ones [handle_command] adds. *)
Inductive debug_value : Type :=
| OfMatcher (v : pyval)
| VisibleObjects (l : list (Z * (string * (Q * Q * Q))))
| Text (s : string)
| Position (p : option (Q * Q * Q)).

(** [@dataclass CommandResult] *)
Record CommandResult : Type := {
  command : string;
  pick_uid : option Z;
  place_uid : option Z;
  drop_position : option (Q * Q * Q);
  debug : dict string debug_value;
  frame_png : option string
}.

(** The fields of the simulation that [handle_command] reads; the state
    of the engine is threaded through the methods. *)
Record t : Type := {
  gui : bool;
  physics_client : option Z;
  robot_id : option Z;
  objects : list (Z * P.ObjectInfo);
  controller : bool;            (* [self.controller is not None] *)
  default_drop : Q * Q * Q
}.

(** [start] has run: the client, the robot and the controller are set. *)
Definition is_started (self : t) : bool :=
  negb (P.is_none (physics_client self)) && negb (P.is_none (robot_id self))
  && controller self.

Section Engine.
Context `{E : Engine} `{EP : EmbeddingProvider}.

(** [round(x, 4)], on each coordinate *)
Variable round4 : Q -> Q.

Definition rounded (pos : Q * Q * Q) : Q * Q * Q :=
  let '(x, y, z) := pos in (round4 x, round4 y, round4 z).

(** [RT2Simulation._ensure_started] *)
Definition _ensure_started (self : t) : M unit :=
  if P.is_none (physics_client self) || P.is_none (robot_id self)
     || negb (controller self)
  then raise SimulationNotStarted
  else ret tt.

(** [RT2Simulation.settle] *)
Definition settle (self : t) (steps : nat) : M unit :=
  match physics_client self with
  | None => ret tt
  | Some _ => change (Nat.iter steps stepSimulation)
  end.

(** [RT2Simulation.reset_scene] *)
Definition reset_scene (self : t) : M unit :=
  _ <~ _ensure_started self ;;
  _ <~ change (fun w =>
         fold_left (fun w (item : Z * P.ObjectInfo) =>
                      resetBasePosition (P.uid (snd item))
                                        (P.home_position (snd item)) w)
                   (objects self) w) ;;
  settle self 60.

(** [RT2Simulation.capture_frame] *)
Definition capture_frame (self : t) : M (Image * list (list Z)) :=
  _ <~ _ensure_started self ;;
  ask getCameraImage.

(** [RT2Simulation.capture_frame_png] *)
Definition capture_frame_png (self : t) : M string :=
  frame <~ capture_frame self ;;
  ret (to_png (fst frame)).

(** The objects of [self.objects] that the mask shows. *)
Definition visible_objects (self : t) (seg : list (list Z))
  : list (Z * P.ObjectInfo) :=
  filter (fun item : Z * P.ObjectInfo =>
            Frames.any (Frames.mask_for_uid seg (fst item)))
         (objects self).

(** The [try] block of [handle_command] with its [finally]: the pick, the
    choice of the drop position and the place; a constraint that is left
    when the place raises is removed. *)
Definition pick_and_place (self : t) (pick : Z) (place : option Z)
  : M (Q * Q * Q) :=
  fun w =>
    match IKController.pick pick w with
    | (Raised e, w) => (Raised e, w)
    | (Got constraint_id, w) =>
        let drop_position :=
          match place with
          | Some target_uid =>
              if existsb (Z.eqb target_uid) (map fst (objects self)) then
                IKController.raised_by (getBasePosition w target_uid) (6 # 100)
              else default_drop self
          | None => default_drop self
          end in
        match IKController.place_and_release drop_position
                                             (Some constraint_id) w with
        | (Raised e, w) => (Raised e, removeConstraint constraint_id w)
        | (Got (Some cid), w) => (Got drop_position, removeConstraint cid w)
        | (Got None, w) => (Got drop_position, w)
        end
    end.

(** [RT2Simulation.handle_command] *)
Definition handle_command (self : t) (command : string)
           (capture_frame_flag auto_reset : bool) : M CommandResult :=
  _ <~ _ensure_started self ;;
  _ <~ settle self 15 ;;
  frame <~ capture_frame self ;;
  let seg := snd frame in
  let visible := visible_objects self seg in
  decision <~ (fun w => (of_result (P.decide command visible), w)) ;;
  let debug : dict string debug_value :=
    map (fun kv => (fst kv, OfMatcher (snd kv))) (P.debug decision) in
  visible_with_positions <~ ask (fun w =>
    map (fun item : Z * P.ObjectInfo =>
           (fst item,
            (P.name (snd item), rounded (getBasePosition w (fst item)))))
        visible) ;;
  let debug :=
    set String.eqb debug "visible_objects"
        (VisibleObjects visible_with_positions) in
  match P.pick_uid decision with
  | None =>
      ret {| command := command; pick_uid := None;
             place_uid := P.place_uid decision; drop_position := None;
             debug := set String.eqb debug "warning"
                          (Text "pick target unresolved");
             frame_png := None |}
  | Some pick =>
      drop <~ pick_and_place self pick (P.place_uid decision) ;;
      let debug :=
        set String.eqb debug "drop_position" (Position (Some (rounded drop))) in
      _ <~ settle self 30 ;;
      frame_png <~
        (if capture_frame_flag
         then png <~ capture_frame_png self ;; ret (Some png)
         else ret None) ;;
      let result :=
        {| command := command; pick_uid := P.pick_uid decision;
           place_uid := P.place_uid decision; drop_position := Some drop;
           debug := debug; frame_png := frame_png |} in
      _ <~ (if auto_reset then reset_scene self else ret tt) ;;
      ret result
  end.
End Engine.
End RT2Simulation.

(** An engine and a simulation to run the methods on. *)
Module Engines.

(** Nothing moves and nothing fails; the camera shows the bodies 2, 3
    and 4. *)
Definition still : Engine :=
  {| World := unit;
     Image := unit;
     stepSimulation := fun w => w;
     getCameraImage := fun _ => (tt, [[2; 3; 4]]%Z);
     getBasePosition := fun _ _ => (55 # 100, 0, 3 # 100)%Q;
     drive := fun _ w => (PyExc.Got tt, w);
     createConstraint := fun _ w => (PyExc.Got 0%Z, w);
     removeConstraint := fun _ w => w;
     resetBasePosition := fun _ _ w => w;
     to_png := fun _ => EmptyString |}.

(** A simulation after [start], with the three cubes of [_load_scene]. *)
Definition started : RT2Simulation.t :=
  {| RT2Simulation.gui := false;
     RT2Simulation.physics_client := Some 0%Z;
     RT2Simulation.robot_id := Some 1%Z;
     RT2Simulation.objects := Scenes.three_cubes;
     RT2Simulation.controller := true;
     RT2Simulation.default_drop := (4 # 10, 0, 5 # 100)%Q |}.

End Engines.

(* ================================================================== *)
(** * [p_clip.py]: [_encode_text] and [seg_to_object_crops] *)

Module PClipBatches.
Import Py.

(** [range(start, stop, step)] for a positive step; [fuel] bounds the
    number of entries. *)
Fixpoint range_from (start stop step fuel : nat) : list nat :=
  match fuel with
  | O => []
  | S fuel' =>
      if (start <? stop)%nat
      then start :: range_from (start + step) stop step fuel'
      else []
  end.

(** [range(0, stop, step)] *)
Definition range (stop step : nat) : list nat := range_from 0 stop step stop.

(** [self.max_text_batch] *)
Definition max_text_batch : nat := 64.

Section Encoder.
Context `{EP : EmbeddingProvider}.

(** [CLIPSemanticMatcher._encode_text]: the texts are encoded in batches
    of [max_text_batch] and the rows put together again; [encode] is one
    call of the model on a batch. *)
Definition _encode_text (texts : list string) : list Emb :=
  match texts with
  | [] => []
  | _ :: _ =>
      let all_feats :=
        map (fun i => encode (firstn max_text_batch (skipn i texts)))
            (range (List.length texts) max_text_batch) in
      List.concat all_feats
  end.
End Encoder.

End PClipBatches.

Module PClipCrops.

(** [np.where(mask)] for [mask = (seg == uid)]: the rows and the columns
    of the pixels of [uid], row by row. *)
Definition where_uid (seg : list (list Z)) (uid : Z) : list (nat * nat) :=
  flat_map
    (fun yr : nat * list Z =>
       flat_map (fun xs : nat * Z =>
                   if Z.eqb (snd xs) uid then [(fst yr, fst xs)] else [])
                (Py.enumerate (snd yr)))
    (Py.enumerate seg).

(** [a.min()] and [a.max()] of an array with a first entry. *)
Definition min_of (first : nat) (rest : list nat) : nat :=
  fold_left Nat.min rest first.

Definition max_of (first : nat) (rest : list nat) : nat :=
  fold_left Nat.max rest first.

(** [img[y0:y1+1, x0:x1+1, :]] for indices that are not negative. *)
Definition slice {A : Type} (img : list (list A)) (y0 y1 x0 x1 : Z)
  : list (list A) :=
  map (fun row => skipn (Z.to_nat x0) (firstn (Z.to_nat (x1 + 1)) row))
      (skipn (Z.to_nat y0) (firstn (Z.to_nat (y1 + 1)) img)).

(** [img.shape[0]] and [img.shape[1]] of an image given by its rows. *)
Definition height {A : Type} (img : list (list A)) : Z :=
  Z.of_nat (List.length img).

Definition width {A : Type} (img : list (list A)) : Z :=
  match img with
  | [] => 0
  | row :: _ => Z.of_nat (List.length row)
  end.

(** One round of the loop of [seg_to_object_crops]. *)
Definition store_crop {A : Type} (img : list (list A)) (seg : list (list Z))
           (crops : Py.dict Z (list (list A))) (uid : Z)
  : Py.dict Z (list (list A)) :=
  let h := height img in
  let w := width img in
  match where_uid seg uid with
  | [] => crops
  | (y, x) :: rest =>
      let ys := map fst rest in
      let xs := map snd rest in
      let y0 := Z.max 0 (Z.of_nat (min_of y ys) - 2) in
      let y1 := Z.min (h - 1) (Z.of_nat (max_of y ys) + 2) in
      let x0 := Z.max 0 (Z.of_nat (min_of x xs) - 2) in
      let x1 := Z.min (w - 1) (Z.of_nat (max_of x xs) + 2) in
      if (y1 <? y0)%Z || (x1 <? x0)%Z then crops
      else
        let crop := slice img y0 y1 x0 x1 in
        let crop :=
          if (height crop * width crop =? 0)%Z
             || (height crop <? 4)%Z || (width crop <? 4)%Z
          then
            let cy := (h / 2)%Z in
            let cx := (w / 2)%Z in
            let y0 := Z.max 0 (cy - 16) in
            let y1 := Z.min (h - 1) (cy + 16) in
            let x0 := Z.max 0 (cx - 16) in
            let x1 := Z.min (w - 1) (cx + 16) in
            slice img y0 y1 x0 x1
          else crop in
        Py.set Z.eqb crops uid crop
  end.

(** [seg_to_object_crops] of [p_clip.py]. *)
Definition seg_to_object_crops {A : Type} (img : list (list A))
           (seg : list (list Z)) (object_uids : list Z)
  : Py.dict Z (list (list A)) :=
  fold_left (store_crop img seg) object_uids [].

Section Image.
Context {A : Type}.
Variable img : list (list A).
Variable seg : list (list Z).

(** Every pixel of the mask is a pixel of the image. *)
Definition mask_inside : Prop :=
  forall y row, nth_error seg y = Some row ->
    (Z.of_nat y < height img)%Z /\ (Z.of_nat (List.length row) <= width img)%Z.

(** The rows of the image have one length. *)
Definition rectangular : Prop :=
  forall row, In row img -> Z.of_nat (List.length row) = width img.

(** The object has a pixel in the mask. *)
Definition in_sight (uid : Z) : bool :=
  match where_uid seg uid with [] => false | _ :: _ => true end.

(** The crop of an object in sight: the box around its pixels, two pixels
    wider on every side and cut at the border of the image, or the box of
    up to 33 by 33 pixels in the middle of the image when that is empty
    or less than 4 pixels high or wide. *)
Definition crop_of (uid : Z) : list (list A) :=
  match where_uid seg uid with
  | [] => []
  | (y, x) :: rest =>
      let h := height img in
      let w := width img in
      let ys := map fst rest in
      let xs := map snd rest in
      let y0 := Z.max 0 (Z.of_nat (min_of y ys) - 2) in
      let y1 := Z.min (h - 1) (Z.of_nat (max_of y ys) + 2) in
      let x0 := Z.max 0 (Z.of_nat (min_of x xs) - 2) in
      let x1 := Z.min (w - 1) (Z.of_nat (max_of x xs) + 2) in
      let crop := slice img y0 y1 x0 x1 in
      if (height crop * width crop =? 0)%Z
         || (height crop <? 4)%Z || (width crop <? 4)%Z
      then
        slice img (Z.max 0 (h / 2 - 16)) (Z.min (h - 1) (h / 2 + 16))
              (Z.max 0 (w / 2 - 16)) (Z.min (w - 1) (w / 2 + 16))
      else crop
  end.
End Image.

End PClipCrops.

(** A picture and a mask to cut crops from: 4 by 4 pixels, with two
    pixels of body 2. *)
Module Pictures.

Definition picture : list (list unit) :=
  [ [tt; tt; tt; tt]; [tt; tt; tt; tt]; [tt; tt; tt; tt]; [tt; tt; tt; tt] ].

Definition mask : list (list Z) :=
  [ [0; 0; 0; 0]; [0; 2; 2; 0]; [0; 0; 0; 0]; [0; 0; 0; 0] ]%Z.

End Pictures.

(* ================================================================== *)
(** * [Simullation.py]: [SimpleController] and [main]

    [main] runs on the same interface of the engine. The orientation of
    a body and [getEulerFromQuaternion] are given beside it. The commands
    come from [input]: the loop is run on the lines typed so far. Of what
    [main] prints, the model keeps the tokens, the action vectors (before
    [format_action] turns them into text) and the line that ends a
    stream. *)

Module SimpleController.
Import PyExc Bullet.
Local Open Scope Q_scope.
Local Open Scope engine_scope.

Section Engine.
Context `{E : Engine}.

(** [SimpleController.move_to]; a motor command that fails is skipped,
    inside [drive]. *)
Fixpoint move_to (target_pos : Q * Q * Q) (steps : nat) : M unit :=
  match steps with
  | O => ret tt
  | S n =>
      _ <~ drive target_pos ;;
      _ <~ change stepSimulation ;;
      move_to target_pos n
  end.

(** [SimpleController.pick] *)
Definition pick (obj_id : Z) : M Z :=
  pos <~ ask (fun w => getBasePosition w obj_id) ;;
  let pre_pos := IKController.raised_by pos (18 # 100) in
  let grasp_pos := IKController.raised_by pos (2 # 100) in
  _ <~ move_to pre_pos 80 ;;
  _ <~ move_to grasp_pos 80 ;;
  cid <~ createConstraint obj_id ;;
  let lift_pos := IKController.raised_by pos (25 # 100) in
  _ <~ move_to lift_pos 80 ;;
  ret cid.

(** [SimpleController.place_and_release] *)
Definition place_and_release (drop_pos : Q * Q * Q) (constraint_id : option Z)
  : M unit :=
  let drop_above := IKController.raised_by drop_pos (25 # 100) in
  _ <~ move_to drop_above 80 ;;
  _ <~ move_to (IKController.raised_by drop_pos (5 # 100)) 60 ;;
  _ <~ match constraint_id with
       | Some cid => change (removeConstraint cid)
       | None => ret tt
       end ;;
  move_to (IKController.raised_by drop_pos (30 # 100)) 80.
End Engine.
End SimpleController.

Module Console.
Import PyExc ActionExecutor.
Local Open Scope list_scope.

(** A line of the output that the model keeps. *)
Inductive line : Type :=
| Tokens (tokens : list string)    (* [" ".join(tokens)] *)
| Vector (a : action)              (* [executor.format_action(action)] *)
| StreamTerminated.                (* ['--- Stream Terminated ---'] *)

(** The objects [main] creates and changes, and the output so far. *)
Record state : Type := {
  executor : ActionExecutor.t;
  database : ObjectDatabase.t;
  printed : list line
}.

(** The state when the loop starts. *)
Definition start : state :=
  {| executor := ActionExecutor.init; database := ObjectDatabase.init;
     printed := [] |}.

(** The action vectors among the lines printed, in order. *)
Definition vectors (l : list line) : list action :=
  flat_map (fun x => match x with Vector a => [a] | _ => [] end) l.

Section Engine.
Context `{E : Engine}.

(** A piece of [main]: it reads and changes the objects of the program
    and the engine, prints, and returns or raises; what was printed and
    done before an exception stays. *)
Definition Run (A : Type) : Type :=
  state -> World -> attempt A * (state * World).

(** A value or an exception that does not depend on the state. *)
Definition returned {A : Type} (r : attempt A) : Run A := fun s w => (r, (s, w)).

Definition unit_run {A : Type} (a : A) : Run A := returned (Got a).

Definition fail {A : Type} (e : exc) : Run A := returned (Raised e).

Definition bindR {A B : Type} (m : Run A) (f : A -> Run B) : Run B :=
  fun s w =>
    match m s w with
    | (Got a, (s', w')) => f a s' w'
    | (Raised e, sw) => (Raised e, sw)
    end.

(** A call into the engine or the controller. *)
Definition engine {A : Type} (m : Bullet.M A) : Run A :=
  fun s w => let '(r, w') := m w in (r, (s, w')).

(** [print], line by line. *)
Definition print (lines : list line) : Run unit :=
  fun s w =>
    (Got tt, ({| executor := executor s; database := database s;
                 printed := printed s ++ lines |}, w)).

(** A method of the executor. *)
Definition on_executor {A : Type} (f : ActionExecutor.t -> A * ActionExecutor.t)
  : Run A :=
  fun s w =>
    let '(a, self) := f (executor s) in
    (Got a, ({| executor := self; database := database s;
                printed := printed s |}, w)).

(** A method of the database that reads the engine. *)
Definition on_database (f : World -> ObjectDatabase.t -> ObjectDatabase.t)
  : Run unit :=
  fun s w =>
    (Got tt, ({| executor := executor s; database := f w (database s);
                 printed := printed s |}, w)).
End Engine.
End Console.

Declare Scope run_scope.
Delimit Scope run_scope with run.
Notation "x <~ m ;; k" := (Console.bindR m (fun x => k))
  (at level 61, m at next level, right associativity) : run_scope.
Notation "' p <~ m ;; k" := (Console.bindR m (fun x => let p := x in k))
  (at level 61, p pattern, m at next level, right associativity) : run_scope.

Module SimMain.
Import PyStr Py PyExc ActionExecutor Console.
Local Open Scope list_scope.
Local Open Scope Q_scope.
Local Open Scope run_scope.

(** What a round of the loop ends with. *)
Inductive flow : Type := Break | Continue.

Section Engine.
Context `{E : Engine} `{EP : EmbeddingProvider}.

(** [p.getBasePositionAndOrientation(uid)[1]] *)
Variable getBaseOrientation : World -> Z -> Q * Q * Q * Q.
(** [p.getEulerFromQuaternion] *)
Variable getEulerFromQuaternion : Q * Q * Q * Q -> Q * Q * Q.

(** [tokenizer = ActionTokenizerV2(env_size_meters=3.0,
    env_height_meters=1.0)], on float32 tensors *)
Definition tokenizer : ActionTokenizerV2.t :=
  ActionTokenizerV2.init (R := float32) 3 1.

(** [(seg == u).any()] *)
Definition in_mask (seg : list (list Z)) (u : Z) : bool :=
  existsb (existsb (fun s => Z.eqb s u)) seg.

(** [objects_meta]: the items of [cubes] whose uid the mask shows. *)
Definition visible (cubes : list (Z * Sim.ObjectMeta)) (seg : list (list Z))
  : list (Z * Sim.ObjectMeta) :=
  filter (fun item : Z * Sim.ObjectMeta => in_mask seg (fst item)) cubes.

(** [objects_meta[uid]] *)
Definition lookup (objects_meta : list (Z * Sim.ObjectMeta)) (uid : Z)
  : Run Sim.ObjectMeta :=
  match get Z.eqb objects_meta uid with
  | Some meta => unit_run meta
  | None => fail KeyError
  end.

(** The lines printed for the vectors of a place: a vector, and the end
    of the stream after one whose flag is set. *)
Definition place_lines (actions : list action) : list line :=
  flat_map (fun a => Vector a ::
                     (if Z.eqb (terminate a) 1 then [StreamTerminated]
                      else []))
           actions.

(** The rest of a round once the matcher has chosen [pick_uid]. *)
Definition carry_out (objects_meta : list (Z * Sim.ObjectMeta))
           (pick_uid : Z) (place_uid : option Sim.place_target) : Run flow :=
  pick_pos <~ engine (Bullet.ask (fun w => getBasePosition w pick_uid)) ;;
  pick_orn <~ engine (Bullet.ask (fun w => getBaseOrientation w pick_uid)) ;;
  let pick_euler := getEulerFromQuaternion pick_orn in
  _ <~ lookup objects_meta pick_uid ;;
  pick_tokens <~
    returned (of_result
                (ActionTokenizerV2.action_to_tokens
                   (R := float32) tokenizer "PICK" pick_pos
                   (snd pick_euler))) ;;
  _ <~ print [Tokens pick_tokens] ;;
  pick_actions <~
    on_executor (fun self => generate_pick_actions self pick_pos false) ;;
  _ <~ print (map Vector pick_actions) ;;
  cid <~ engine (SimpleController.pick pick_uid) ;;
  drop_pos <~
    match place_uid with
    | Some Sim.GROUND =>
        let '(x, y, _) := pick_pos in
        unit_run (x - (1 # 10), y, 3 # 100)
    | Some (Sim.PlaceObj place_uid) =>
        _ <~ lookup objects_meta place_uid ;;
        tgt_pos <~ engine (Bullet.ask (fun w => getBasePosition w place_uid)) ;;
        let '(x, y, z) := tgt_pos in
        unit_run (x, y, z + (6 # 100))
    | None => unit_run (4 # 10, 0, 3 # 100)
    end ;;
  place_tokens <~
    returned (of_result
                (ActionTokenizerV2.action_to_tokens
                   (R := float32) tokenizer "PLACE" drop_pos 0)) ;;
  _ <~ print [Tokens place_tokens] ;;
  place_actions <~
    on_executor (fun self => generate_place_actions self drop_pos true) ;;
  _ <~ print (place_lines place_actions) ;;
  _ <~ engine (SimpleController.place_and_release drop_pos (Some cid)) ;;
  unit_run Continue.

(** One round of the [while True] loop of [main], on the line that
    [input] returns. *)
Definition round (cubes : list (Z * Sim.ObjectMeta)) (typed : string)
  : Run flow :=
  _ <~ engine (Bullet.change (Nat.iter 15 stepSimulation)) ;;
  frame <~ engine (Bullet.ask getCameraImage) ;;
  let seg := snd frame in
  let objects_meta := visible cubes seg in
  _ <~ on_database
         (fun w self =>
            ObjectDatabase.update_from_pybullet
              (fun u => (getBasePosition w u, getBaseOrientation w u))
              getEulerFromQuaternion self cubes) ;;
  let user := strip typed in
  if existsb (String.eqb (lower user)) ["exit"; "quit"]%string then
    unit_run Break
  else if Nat.eqb (String.length user) 0 then unit_run Continue
  else
    let '(pick_uid, place_uid, dbg) :=
      Sim.pick_and_place_from_text user objects_meta in
    match pick_uid with
    | None => unit_run Continue
    | Some pick_uid => carry_out objects_meta pick_uid place_uid
    end.

(** The loop of [main] on the lines typed so far, in order: it ends at
    ["exit"] or ["quit"], and waits when the lines are used up. *)
Fixpoint loop (cubes : list (Z * Sim.ObjectMeta)) (typed : list string)
  : Run unit :=
  match typed with
  | [] => unit_run tt
  | user :: rest =>
      f <~ round cubes user ;;
      match f with
      | Break => unit_run tt
      | Continue => loop cubes rest
      end
  end.
End Engine.
End SimMain.

Module FailingEngines.

(** An engine whose arm cannot be driven. *)
Definition jammed : Engine :=
  {| World := unit;
     Image := unit;
     stepSimulation := fun w => w;
     getCameraImage := fun _ => (tt, [[2; 3; 4]]%Z);
     getBasePosition := fun _ _ => (55 # 100, 0, 3 # 100)%Q;
     drive := fun _ w => (PyExc.Raised PyExc.PyBulletError, w);
     createConstraint := fun _ w => (PyExc.Got 0%Z, w);
     removeConstraint := fun _ w => w;
     resetBasePosition := fun _ _ w => w;
     to_png := fun _ => EmptyString |}.

End FailingEngines.

(** The vocabulary of the statements about a session of [main]. *)

Module SessionSpec.
Import PyExc ActionExecutor Streams Console.
Local Open Scope list_scope.

(** Whether the arm holds a cube after a history of calls. *)
Definition holding_after (holding : bool) (history : list call) : bool :=
  fold_left (fun h c => match c with
                        | CallPick _ _ => true
                        | CallPlace _ _ => false
                        end) history holding.

(** The flags [main] passes: a pick is never final, a place always is. *)
Definition flags_of_main (history : list call) : Prop :=
  Forall (fun c => match c with
                   | CallPick _ is_final => is_final = false
                   | CallPlace _ is_final => is_final = true
                   end) history.

(** The output and the executor are those of a history of calls in which
    picks and places take turns, which leaves the arm holding or not. *)
Definition kept (holding : bool) (s : state) : Prop :=
  exists history,
    alternating false history = true /\
    flags_of_main history /\
    holding_after false history = holding /\
    vectors (printed s) = stream init history /\
    executor s = after history init.

(** The same between a call of the executor and the printing of the
    vectors it returned. *)
Definition pending (c : call) (actions : list action) (s : state) : Prop :=
  exists history,
    alternating false (history ++ [c]) = true /\
    flags_of_main (history ++ [c]) /\
    vectors (printed s) ++ actions = stream init (history ++ [c]) /\
    executor s = after (history ++ [c]) init.

Section Engine.
Context `{E : Engine}.

(** An exception that comes out of the engine: of driving the arm or of
    creating a constraint. *)
Definition from_engine (e : exc) : Prop :=
  (exists pos w, fst (drive pos w) = Raised e) \/
  (exists u w, fst (createConstraint u w) = Raised e).

(** From a state where [P] holds, [m] returns [a] in a state where
    [Q a] holds or raises [e] in a state where [X e] holds. *)
Definition triple {A : Type} (P : state -> Prop) (m : Run A)
           (Q : A -> state -> Prop) (X : exc -> state -> Prop) : Prop :=
  forall s w, P s ->
    match m s w with
    | (Got a, (s', _)) => Q a s'
    | (Raised e, (s', _)) => X e s'
    end.

(** What an exception of [main] leaves behind. *)
Definition crashed (e : exc) (s : state) : Prop :=
  from_engine e /\ exists holding, kept holding s.
End Engine.
End SessionSpec.

(* ================================================================== *)
(** * Vocabulary of the statements *)

Module Spec.
Import Py.

(** [k] is the index [torch.argmin] returns for [d]: in range, minimal,
    and the first such index. *)
Definition first_min (d : list Q) (k : nat) : Prop :=
  (k < List.length d)%nat /\
  (forall j, (j < List.length d)%nat -> (nth k d 0 <= nth j d 0)%Q) /\
  (forall j, (j < k)%nat -> (nth k d 0 < nth j d 0)%Q).

(** [k] is the index [torch.argmax] returns for [d]. *)
Definition first_max (d : list Q) (k : nat) : Prop :=
  (k < List.length d)%nat /\
  (forall j, (j < List.length d)%nat -> (nth j d 0 <= nth k d 0)%Q) /\
  (forall j, (j < k)%nat -> (nth j d 0 < nth k d 0)%Q).

(** Bin centres in strictly increasing order. *)
Definition increasing (bins : list Q) : Prop :=
  forall i j, (i < j)%nat -> (j < List.length bins)%nat ->
              (nth i bins 0 < nth j bins 0)%Q.

(** [torch.abs(bins - value)] *)
Definition distances {R : Rounding} (value : Q) (bins : list Q) : list Q :=
  map (fun b => Qabs (rnd (b - value))) bins.

(** What the proofs use of a rounding: it respects equality of rationals,
    keeps the order, commutes with the sign, is off by at most 2^-24 of
    the magnitude, and leaves a rounded number as it is. *)
Record rounding_laws (R : Rounding) : Prop := {
  rnd_proper : forall x y, (x == y)%Q -> (rnd x == rnd y)%Q;
  rnd_monotone : forall x y, (x <= y)%Q -> (rnd x <= rnd y)%Q;
  rnd_opp : forall x, (rnd (- x) == - rnd x)%Q;
  rnd_error : forall x, (Qabs (rnd x - x) <= Qabs x * (1 # 16777216))%Q;
  rnd_idem : forall x, (rnd (rnd x) == rnd x)%Q
}.

(** The keys of a dict, in order. *)
Definition keys {K V : Type} (d : list (K * V)) : list K := map fst d.

(** The uid of every candidate text of [p.py], in order: four per object. *)
Definition cand_uids (objects : list (Z * P.ObjectInfo)) : list Z :=
  flat_map (fun o => map (fun _ => fst o) (P.descriptors (snd o))) objects.

(** The command asks for the ground: a ground keyword occurs in the
    lowercased text or in the place phrase extracted from it. *)
Definition ground_requested (txt : string) : Prop :=
  Sim.any_ground_keyword txt = true \/
  exists p, Sim.place_phrase_of txt = Some p /\ Sim.any_ground_keyword p = true.

(** The three components of what [pick_and_place_from_text] returns. *)
Definition result_pick (r : option Z * option Sim.place_target * debug_dict)
  : option Z := fst (fst r).

Definition result_place (r : option Z * option Sim.place_target * debug_dict)
  : option Sim.place_target := snd (fst r).

Definition result_debug (r : option Z * option Sim.place_target * debug_dict)
  : debug_dict := snd r.

Section Ranking.
Context `{EP : EmbeddingProvider}.

(** [sorted_uids] of the fallback: the objects by decreasing pooled score
    against the whole command. *)
Definition ranking (user_emb : Emb) (embs : list Emb) (uids : list Z)
  : list (Z * Q) :=
  sorted_desc (P.pool_scores (P.cos_row user_emb embs) uids).

End Ranking.

End Spec.

(** Case split on the sign under an absolute value. *)
Ltac qabs_split x :=
  let H := fresh "Habs" in
  let S := fresh "Hsgn" in
  destruct (Qlt_le_dec x 0) as [S | S];
  [ assert (H : (Qabs x == - x)%Q) by (apply Qabs_neg; lra)
  | assert (H : (Qabs x == x)%Q) by (apply Qabs_pos; lra) ].

(* ================================================================== *)
(** * Facts about the Python primitives *)

Module PyFacts.
Import Py Spec.
Local Open Scope Q_scope.

Lemma Qltb_true (a b : Q) : Qltb a b = true <-> a < b.
Proof.
  unfold Qltb. rewrite negb_true_iff. split.
  - intro H. apply Qnot_le_lt. intro C. apply Qle_bool_iff in C. congruence.
  - intro H. destruct (Qle_bool b a) eqn:E; auto.
    apply Qle_bool_iff in E. exfalso. apply (Qlt_not_le _ _ H E).
Qed.

Lemma Qltb_false (a b : Q) : Qltb a b = false <-> b <= a.
Proof. unfold Qltb. rewrite negb_false_iff. apply Qle_bool_iff. Qed.

Lemma first_min_unique d k k' : first_min d k -> first_min d k' -> k = k'.
Proof.
  intros (Hk & Hle & Hlt) (Hk' & Hle' & Hlt').
  destruct (Nat.lt_trichotomy k k') as [H | [H | H]]; auto; exfalso.
  - specialize (Hlt' k H). specialize (Hle k' Hk'). lra.
  - specialize (Hlt k' H). specialize (Hle' k Hk). lra.
Qed.

(** The scan keeps the invariant: the best index so far is the first
    minimum of the prefix read. *)
Lemma argmin_from_first_min l :
  forall pre bi,
    first_min pre bi ->
    first_min (pre ++ l) (argmin_from l (List.length pre) bi (nth bi pre 0)).
Proof.
  induction l as [| x l IH]; intros pre bi Hpre; simpl.
  - now rewrite app_nil_r.
  - destruct Hpre as (Hbi & Hle & Hlt).
    assert (Hsnoc : List.length (pre ++ [x]) = S (List.length pre))
      by (rewrite length_app; simpl; lia).
    replace (pre ++ x :: l)%list with ((pre ++ [x]) ++ l)%list
      by (now rewrite <- app_assoc).
    destruct (Qltb x (nth bi pre 0)) eqn:E.
    + apply Qltb_true in E.
      specialize (IH (pre ++ [x])%list (List.length pre)).
      rewrite Hsnoc in IH. rewrite nth_middle in IH.
      apply IH. repeat split.
      * lia.
      * intros j Hj. rewrite nth_middle.
        destruct (Nat.eq_dec j (List.length pre)) as [-> | Hne].
        -- rewrite nth_middle. lra.
        -- rewrite app_nth1 by lia.
           specialize (Hle j ltac:(lia)). lra.
      * intros j Hj. rewrite nth_middle. rewrite app_nth1 by lia.
        specialize (Hle j Hj). lra.
    + apply Qltb_false in E.
      specialize (IH (pre ++ [x])%list bi).
      rewrite Hsnoc in IH. rewrite (app_nth1 pre [x] 0 Hbi) in IH.
      apply IH. repeat split.
      * lia.
      * intros j Hj. rewrite (app_nth1 pre [x] 0 Hbi).
        destruct (Nat.eq_dec j (List.length pre)) as [-> | Hne].
        -- now rewrite nth_middle.
        -- rewrite app_nth1 by lia. apply Hle. lia.
      * intros j Hj. rewrite (app_nth1 pre [x] 0 Hbi).
        rewrite app_nth1 by lia. now apply Hlt.
Qed.

Lemma argmin_first_min d :
  d <> [] -> exists k, argmin d = Ok k /\ first_min d k.
Proof.
  destruct d as [| x l]; [congruence |]. intros _.
  exists (argmin_from l 1 0 x). split; [reflexivity |].
  apply (argmin_from_first_min l [x] 0%nat).
  repeat split; simpl; try lia.
  intros j Hj. assert (j = 0%nat) by lia. subst. lra.
Qed.

(** The same invariant for the scan of [argmax]. *)
Lemma argmax_from_first_max l :
  forall pre bi,
    first_max pre bi ->
    first_max (pre ++ l) (argmax_from l (List.length pre) bi (nth bi pre 0)).
Proof.
  induction l as [| x l IH]; intros pre bi Hpre; simpl.
  - now rewrite app_nil_r.
  - destruct Hpre as (Hbi & Hle & Hlt).
    assert (Hsnoc : List.length (pre ++ [x]) = S (List.length pre))
      by (rewrite length_app; simpl; lia).
    replace (pre ++ x :: l)%list with ((pre ++ [x]) ++ l)%list
      by (now rewrite <- app_assoc).
    destruct (Qltb (nth bi pre 0) x) eqn:E.
    + apply Qltb_true in E.
      specialize (IH (pre ++ [x])%list (List.length pre)).
      rewrite Hsnoc in IH. rewrite nth_middle in IH.
      apply IH. repeat split.
      * lia.
      * intros j Hj. rewrite nth_middle.
        destruct (Nat.eq_dec j (List.length pre)) as [-> | Hne].
        -- rewrite nth_middle. lra.
        -- rewrite app_nth1 by lia.
           specialize (Hle j ltac:(lia)). lra.
      * intros j Hj. rewrite nth_middle. rewrite app_nth1 by lia.
        specialize (Hle j Hj). lra.
    + apply Qltb_false in E.
      specialize (IH (pre ++ [x])%list bi).
      rewrite Hsnoc in IH. rewrite (app_nth1 pre [x] 0 Hbi) in IH.
      apply IH. repeat split.
      * lia.
      * intros j Hj. rewrite (app_nth1 pre [x] 0 Hbi).
        destruct (Nat.eq_dec j (List.length pre)) as [-> | Hne].
        -- now rewrite nth_middle.
        -- rewrite app_nth1 by lia. apply Hle. lia.
      * intros j Hj. rewrite (app_nth1 pre [x] 0 Hbi).
        rewrite app_nth1 by lia. now apply Hlt.
Qed.

Lemma argmax_first_max d :
  d <> [] -> exists k, argmax d = Ok k /\ first_max d k.
Proof.
  destruct d as [| x l]; [congruence |]. intros _.
  exists (argmax_from l 1 0 x). split; [reflexivity |].
  apply (argmax_from_first_max l [x] 0%nat).
  repeat split; simpl; try lia.
  intros j Hj. assert (j = 0%nat) by lia. subst. lra.
Qed.

Lemma list_get_ok {A : Type} (l : list A) i :
  (i < List.length l)%nat ->
  exists a, list_get l i = Ok a /\ nth_error l i = Some a.
Proof.
  intro H. unfold list_get.
  destruct (nth_error l i) as [a |] eqn:E.
  - now exists a.
  - apply nth_error_None in E. lia.
Qed.

End PyFacts.

(* ================================================================== *)
(** * Float32 rounding *)

Module Float32Facts.
Import Float32.
Local Open Scope Q_scope.


Lemma rne_cases x :
  let f := Qfloor x in
  (x - inject_Z f < 1 # 2 /\ rne x = f) \/
  (1 # 2 < x - inject_Z f /\ rne x = (f + 1)%Z) \/
  (x - inject_Z f == 1 # 2 /\ (rne x = f \/ rne x = (f + 1)%Z)).
Proof.
  intro f. unfold rne. fold f.
  destruct (Qcompare_spec (x - inject_Z f) (1 # 2)) as [H | H | H].
  - right. right. split; [assumption |]. destruct (Z.even f); auto.
  - left. now split.
  - right. left. now split.
Qed.

Lemma rne_error x : Qabs (inject_Z (rne x) - x) <= 1 # 2.
Proof.
  pose proof (Qfloor_le x) as Hlo. pose proof (Qlt_floor x) as Hhi.
  rewrite inject_Z_plus in Hhi. change (inject_Z 1) with 1 in Hhi.
  apply Qabs_Qle_condition.
  destruct (rne_cases x) as [[H ->] | [[H ->] | [H [-> | ->]]]];
    rewrite ?inject_Z_plus; change (inject_Z 1) with 1; split; lra.
Qed.

Lemma rne_proper x y : x == y -> rne x = rne y.
Proof.
  intro H. unfold rne. rewrite (Qfloor_comp x y H).
  assert (E : x - inject_Z (Qfloor y) == y - inject_Z (Qfloor y))
    by (rewrite H; reflexivity).
  rewrite (Qcompare_comp _ _ E _ _ (Qeq_refl (1 # 2))). reflexivity.
Qed.

Lemma rne_monotone x y : x <= y -> (rne x <= rne y)%Z.
Proof.
  intro H.
  destruct (Qeq_dec x y) as [E | NE]; [rewrite (rne_proper x y E); lia |].
  assert (Hlt : x < y)
    by (apply Qle_lteq in H; destruct H; [assumption | contradiction]).
  destruct (Z.le_gt_cases (rne x) (rne y)) as [| Hgt]; [assumption | exfalso].
  pose proof (rne_error x) as Ex. pose proof (rne_error y) as Ey.
  apply Qabs_Qle_condition in Ex, Ey.
  assert (Hz : inject_Z (rne y) + 1 <= inject_Z (rne x)).
  { change 1 with (inject_Z 1). rewrite <- (inject_Z_plus (rne y) 1).
    rewrite <- Zle_Qle. lia. }
  lra.
Qed.

Lemma rne_Z m : rne (inject_Z m) = m.
Proof.
  unfold rne. rewrite Qfloor_Z.
  destruct (Qcompare_spec (inject_Z m - inject_Z m) (1 # 2)) as [H | H | H].
  - exfalso. lra.
  - reflexivity.
  - exfalso. lra.
Qed.


Lemma two_pow_pos k : 0 < 2 ^ k.
Proof. apply Qpower_0_lt. reflexivity. Qed.

Lemma two_pow_succ k : 2 ^ (k + 1) == 2 * 2 ^ k.
Proof. rewrite Qpower_plus by discriminate. change (2 ^ 1) with 2. ring. Qed.

Lemma two_pow_pred k : 2 * 2 ^ (k - 1) == 2 ^ k.
Proof.
  rewrite <- two_pow_succ. replace (k - 1 + 1)%Z with k by ring. reflexivity.
Qed.

Lemma log2_bracket (n : Z) :
  (0 < n)%Z ->
  2 ^ (Z.log2 n) <= inject_Z n /\ inject_Z n < 2 * 2 ^ (Z.log2 n).
Proof.
  intro Hn. destruct (Z.log2_spec n Hn) as [Hlo Hhi].
  pose proof (Z.log2_nonneg n) as Hnn.
  rewrite <- two_pow_succ.
  change 2 with (inject_Z 2).
  rewrite <- !Zpower_Qpower by lia.
  rewrite <- Zle_Qle, <- Zlt_Qlt.
  replace (Z.log2 n + 1)%Z with (Z.succ (Z.log2 n)) by lia. now split.
Qed.

Lemma expo_spec a : 0 < a -> 2 ^ expo a <= a /\ a < 2 ^ (expo a + 1).
Proof.
  intro Ha. destruct a as [n d]. unfold expo. cbn [Qnum Qden].
  assert (Hn : (0 < n)%Z) by (unfold Qlt in Ha; simpl in Ha; lia).
  destruct (log2_bracket n Hn) as [Hn1 Hn2].
  destruct (log2_bracket (Zpos d) eq_refl) as [Hd1 Hd2].
  set (ln := Z.log2 n) in *. set (ld := Z.log2 (Zpos d)) in *.
  pose proof (two_pow_pos ln) as Pn. pose proof (two_pow_pos ld) as Pd.
  assert (Hk : 2 ^ (ln - ld) * 2 ^ ld == 2 ^ ln).
  { rewrite <- Qpower_plus by discriminate.
    replace (ln - ld + ld)%Z with ln by ring. reflexivity. }
  assert (Hq : n # d == inject_Z n / inject_Z (Zpos d)) by apply Qmake_Qdiv.
  assert (HD : 0 < inject_Z (Zpos d)) by reflexivity.
  assert (Hmul : (n # d) * inject_Z (Zpos d) == inject_Z n).
  { rewrite Hq. field. intro E. rewrite E in HD. discriminate. }
  pose proof (two_pow_pos (ln - ld)) as Pk.
  destruct (Qle_bool (2 ^ (ln - ld)) (n # d)) eqn:E.
  - apply Qle_bool_iff in E. split; [assumption |].
    rewrite two_pow_succ. nra.
  - assert (E' : n # d < 2 ^ (ln - ld)).
    { apply Qnot_le_lt. intro C. apply Qle_bool_iff in C. congruence. }
    split.
    + pose proof (two_pow_pred (ln - ld)) as Hp.
      pose proof (two_pow_pos (ln - ld - 1)) as Pk1. nra.
    + replace (ln - ld - 1 + 1)%Z with (ln - ld)%Z by ring. assumption.
Qed.

Lemma expo_unique a e :
  0 < a -> 2 ^ e <= a -> a < 2 ^ (e + 1) -> expo a = e.
Proof.
  intros Ha Hlo Hhi. destruct (expo_spec a Ha) as [Hlo' Hhi'].
  assert (H1 : (expo a < e + 1)%Z).
  { apply (Qpower_lt_compat_l_inv 2); [| reflexivity]. lra. }
  assert (H2 : (e < expo a + 1)%Z).
  { apply (Qpower_lt_compat_l_inv 2); [| reflexivity]. lra. }
  lia.
Qed.

Lemma expo_proper a b : 0 < a -> a == b -> expo a = expo b.
Proof.
  intros Ha E. destruct (expo_spec a Ha) as [Hlo Hhi].
  symmetry. apply expo_unique; lra.
Qed.

Lemma expo_monotone a b : 0 < a -> a <= b -> (expo a <= expo b)%Z.
Proof.
  intros Ha Hab. destruct (expo_spec a Ha) as [Hlo _].
  destruct (expo_spec b ltac:(lra)) as [_ Hhi].
  assert (H : (expo a < expo b + 1)%Z).
  { apply (Qpower_lt_compat_l_inv 2); [| reflexivity]. lra. }
  lia.
Qed.


Lemma ulp_scale e : 8388608 * 2 ^ (e - 23) == 2 ^ e.
Proof.
  change 8388608 with (2 ^ 23). rewrite <- Qpower_plus by discriminate.
  replace (23 + (e - 23))%Z with e by ring. reflexivity.
Qed.

(** The significand of a positive real lies in 2^23 .. 2^24. *)
Lemma significand_range a :
  0 < a ->
  let u := 2 ^ (expo a - 23) in
  (8388608 <= rne (a / u) <= 16777216)%Z.
Proof.
  intros Ha u. destruct (expo_spec a Ha) as [Hlo Hhi].
  pose proof (two_pow_pos (expo a - 23)) as Pu. fold u in Pu.
  pose proof (ulp_scale (expo a)) as Hs. fold u in Hs.
  rewrite two_pow_succ in Hhi.
  assert (Hau : a / u * u == a) by (field; lra).
  assert (H1 : 8388608 <= a / u).
  { apply Qle_shift_div_l; [assumption |]. lra. }
  assert (H2 : a / u <= 16777216).
  { apply Qle_shift_div_r; [assumption |]. lra. }
  split.
  - change 8388608%Z with (rne (inject_Z 8388608)). apply rne_monotone, H1.
  - change 16777216%Z with (rne (inject_Z 16777216)). apply rne_monotone, H2.
Qed.

Lemma mag_bounds a :
  0 < a ->
  let u := 2 ^ (expo a - 23) in
  0 < u /\ 8388608 * u == 2 ^ expo a /\
  - (u / 2) <= mag a - a /\ mag a - a <= u / 2 /\
  2 ^ expo a <= mag a /\ mag a <= 2 ^ (expo a + 1).
Proof.
  intros Ha u. destruct (expo_spec a Ha) as [Hlo Hhi].
  pose proof (two_pow_pos (expo a - 23)) as Pu. fold u in Pu.
  pose proof (ulp_scale (expo a)) as Hs. fold u in Hs.
  pose proof (significand_range a Ha) as [Hm1 Hm2]. fold u in Hm1, Hm2.
  pose proof (rne_error (a / u)) as He. apply Qabs_Qle_condition in He.
  assert (Hau : a / u * u == a) by (field; lra).
  unfold mag. fold u.
  set (m := inject_Z (rne (a / u))) in *.
  assert (Hm1' : 8388608 <= m)
    by (unfold m; change 8388608 with (inject_Z 8388608); rewrite <- Zle_Qle;
        assumption).
  assert (Hm2' : m <= 16777216)
    by (unfold m; change 16777216 with (inject_Z 16777216); rewrite <- Zle_Qle;
        assumption).
  rewrite two_pow_succ.
  set (s := a / u) in *. destruct He as [He1 He2].
  assert (P1 : 0 <= (m - s + (1 # 2)) * u) by (apply Qmult_le_0_compat; lra).
  assert (P2 : 0 <= ((1 # 2) - (m - s)) * u) by (apply Qmult_le_0_compat; lra).
  assert (P3 : 0 <= (m - 8388608) * u) by (apply Qmult_le_0_compat; lra).
  assert (P4 : 0 <= (16777216 - m) * u) by (apply Qmult_le_0_compat; lra).
  assert (Hhalf : u / 2 == (1 # 2) * u) by field.
  repeat split; try assumption; rewrite ?Hhalf; lra.
Qed.

Lemma mag_pos a : 0 < a -> 0 < mag a.
Proof.
  intro Ha. destruct (mag_bounds a Ha) as (_ & _ & _ & _ & H & _).
  pose proof (two_pow_pos (expo a)). lra.
Qed.

Lemma mag_proper a b : 0 < a -> a == b -> mag a == mag b.
Proof.
  intros Ha E. unfold mag. rewrite <- (expo_proper a b Ha E).
  rewrite (rne_proper (a / 2 ^ (expo a - 23)) (b / 2 ^ (expo a - 23))).
  - reflexivity.
  - apply Qdiv_comp; [exact E | reflexivity].
Qed.

Lemma mag_monotone a b : 0 < a -> a <= b -> mag a <= mag b.
Proof.
  intros Ha Hab. assert (Hb : 0 < b) by lra.
  pose proof (expo_monotone a b Ha Hab) as He.
  destruct (mag_bounds a Ha) as (Pu & _ & _ & _ & _ & Ha2).
  destruct (mag_bounds b Hb) as (Pv & _ & _ & _ & Hb1 & _).
  destruct (Z.eq_dec (expo a) (expo b)) as [E | NE].
  - unfold mag. rewrite <- E.
    set (u := 2 ^ (expo a - 23)) in *.
    assert (Hr : (rne (a / u) <= rne (b / u))%Z).
    { apply rne_monotone. apply Qmult_le_compat_r; [assumption |].
      apply Qlt_le_weak, Qinv_lt_0_compat, Pu. }
    apply Qmult_le_compat_r; [| lra]. now rewrite <- Zle_Qle.
  - assert (Hp : 2 ^ (expo a + 1) <= 2 ^ expo b)
      by (apply Qpower_le_compat_l; [lia | discriminate]).
    lra.
Qed.

(** A float32 is its own nearest float32. *)
Lemma mag_idem a : 0 < a -> mag (mag a) == mag a.
Proof.
  intro Ha. pose proof (mag_pos a Ha) as Hpos.
  destruct (mag_bounds a Ha) as (Pu & Hs & _ & _ & H1 & H2).
  pose proof (significand_range a Ha) as [Hm1 Hm2].
  set (u := 2 ^ (expo a - 23)) in *.
  set (m := rne (a / u)) in *.
  assert (Hmag : mag a == inject_Z m * u) by reflexivity.
  destruct (Z.eq_dec m 16777216) as [E | NE].
  - (* the significand carried: the value is 2^(e+1) *)
    assert (Hv : mag a == 2 ^ (expo a + 1)).
    { rewrite Hmag, E, two_pow_succ. change (inject_Z 16777216) with 16777216. lra. }
    assert (He : expo (mag a) = (expo a + 1)%Z).
    { apply expo_unique; [assumption | lra |].
      rewrite Hv. rewrite (two_pow_succ (expo a + 1)).
      pose proof (two_pow_pos (expo a + 1)). lra. }
    unfold mag at 1. rewrite He.
    replace (expo a + 1 - 23)%Z with (expo a - 23 + 1)%Z by ring.
    pose proof (two_pow_succ (expo a - 23)) as Hu. fold u in Hu.
    rewrite (rne_proper _ (inject_Z 8388608)).
    + rewrite rne_Z, Hu, Hmag, E.
      change (inject_Z 16777216) with 16777216.
      change (inject_Z 8388608) with 8388608. ring.
    + rewrite Hu, Hmag, E. change (inject_Z 16777216) with 16777216.
      change (inject_Z 8388608) with 8388608. field. lra.
  - assert (He : expo (mag a) = expo a).
    { apply expo_unique; [assumption | lra |].
      rewrite Hmag, two_pow_succ.
      assert (inject_Z m <= 16777215).
      { change 16777215 with (inject_Z 16777215). rewrite <- Zle_Qle. lia. }
      nra. }
    unfold mag at 1. rewrite He. fold u.
    rewrite (rne_proper _ (inject_Z m)).
    + rewrite rne_Z. reflexivity.
    + rewrite Hmag. field. lra.
Qed.


Lemma f32_pos q : 0 < q -> f32 q = mag q.
Proof.
  intro H. unfold f32.
  destruct (Qcompare_spec q 0) as [E | E | E]; [exfalso; lra | exfalso; lra | reflexivity].
Qed.

Lemma f32_neg q : q < 0 -> f32 q = - mag (- q).
Proof.
  intro H. unfold f32.
  destruct (Qcompare_spec q 0) as [E | E | E]; [exfalso; lra | reflexivity | exfalso; lra].
Qed.

Lemma f32_zero q : q == 0 -> f32 q = 0.
Proof.
  intro H. unfold f32.
  destruct (Qcompare_spec q 0) as [E | E | E]; [reflexivity | exfalso; lra | exfalso; lra].
Qed.

Lemma f32_sign q :
  (q < 0 /\ f32 q < 0) \/ (q == 0 /\ f32 q == 0) \/ (0 < q /\ 0 < f32 q).
Proof.
  destruct (Q_dec q 0) as [[H | H] | H].
  - left. split; [assumption |]. rewrite (f32_neg q H).
    pose proof (mag_pos (- q) ltac:(lra)). lra.
  - right. right. split; [assumption |]. rewrite (f32_pos q H). now apply mag_pos.
  - right. left. split; [assumption |]. now rewrite (f32_zero q H).
Qed.

Lemma f32_proper x y : x == y -> f32 x == f32 y.
Proof.
  intro E. destruct (Q_dec x 0) as [[H | H] | H].
  - rewrite (f32_neg x H), (f32_neg y ltac:(lra)).
    apply Qopp_comp, mag_proper; lra.
  - rewrite (f32_pos x H), (f32_pos y ltac:(lra)). now apply mag_proper.
  - rewrite (f32_zero x H), (f32_zero y ltac:(lra)). reflexivity.
Qed.

Lemma f32_opp x : f32 (- x) == - f32 x.
Proof.
  destruct (Q_dec x 0) as [[H | H] | H].
  - rewrite (f32_neg x H), (f32_pos (- x) ltac:(lra)). lra.
  - rewrite (f32_pos x H), (f32_neg (- x) ltac:(lra)).
    apply Qopp_comp, mag_proper; lra.
  - rewrite (f32_zero x H), (f32_zero (- x) ltac:(lra)). reflexivity.
Qed.

Lemma f32_monotone x y : x <= y -> f32 x <= f32 y.
Proof.
  intro Hxy.
  destruct (f32_sign x) as [[Hx Fx] | [[Hx Fx] | [Hx Fx]]];
    destruct (f32_sign y) as [[Hy Fy] | [[Hy Fy] | [Hy Fy]]]; try lra.
  - rewrite (f32_neg x Hx), (f32_neg y Hy).
    pose proof (mag_monotone (- y) (- x) ltac:(lra) ltac:(lra)). lra.
  - rewrite (f32_pos x Hx), (f32_pos y Hy). apply mag_monotone; assumption.
Qed.

Lemma mag_error a : 0 < a -> Qabs (mag a - a) <= a * (1 # 16777216).
Proof.
  intro Ha. destruct (mag_bounds a Ha) as (Pu & Hs & H1 & H2 & _).
  destruct (expo_spec a Ha) as [Hlo _].
  set (u := 2 ^ (expo a - 23)) in *.
  assert (Hhalf : u / 2 == (1 # 2) * u) by field. rewrite Hhalf in H1, H2.
  apply Qabs_Qle_condition. split; lra.
Qed.

Lemma f32_error x : Qabs (f32 x - x) <= Qabs x * (1 # 16777216).
Proof.
  destruct (Q_dec x 0) as [[H | H] | H].
  - rewrite (f32_neg x H).
    pose proof (mag_error (- x) ltac:(lra)) as He.
    apply Qabs_Qle_condition in He.
    rewrite (Qabs_neg x) by lra. apply Qabs_Qle_condition. split; lra.
  - rewrite (f32_pos x H). rewrite (Qabs_pos x) by lra. now apply mag_error.
  - rewrite (f32_zero x H). rewrite (Qabs_pos x) by lra.
    apply Qabs_Qle_condition. split; lra.
Qed.

Lemma f32_idem x : f32 (f32 x) == f32 x.
Proof.
  destruct (Q_dec x 0) as [[H | H] | H].
  - rewrite (f32_neg x H).
    pose proof (mag_pos (- x) ltac:(lra)) as Hp.
    rewrite (f32_neg (- mag (- x)) ltac:(lra)).
    apply Qopp_comp.
    rewrite (mag_proper (- - mag (- x)) (mag (- x))) by lra.
    apply mag_idem. lra.
  - rewrite (f32_pos x H). pose proof (mag_pos x H) as Hp.
    rewrite (f32_pos (mag x) Hp). now apply mag_idem.
  - rewrite (f32_zero x H). reflexivity.
Qed.

End Float32Facts.

(* ================================================================== *)
(** * Roundings *)

Module RoundingFacts.
Import Spec Float32Facts.
Local Open Scope Q_scope.

Lemma float32_laws : rounding_laws float32.
Proof.
  constructor; simpl.
  - exact f32_proper.
  - exact f32_monotone.
  - exact f32_opp.
  - exact f32_error.
  - exact f32_idem.
Qed.

Lemma unrounded_laws : rounding_laws unrounded.
Proof.
  constructor; cbn [rnd unrounded]; intros; try assumption; try reflexivity.
  pose proof (Qabs_nonneg x).
  qabs_split (x - x); lra.
Qed.

Section Laws.
Context {R : Rounding}.
Hypothesis laws : rounding_laws R.

Lemma rnd_zero : rnd 0 == 0.
Proof.
  pose proof (rnd_error R laws 0) as H. change (Qabs 0) with 0 in H.
  qabs_split (rnd 0 - 0); lra.
Qed.

Lemma rnd_nonneg x : 0 <= x -> 0 <= rnd x.
Proof.
  intro H. pose proof (rnd_monotone R laws 0 x H) as Hm.
  pose proof rnd_zero. lra.
Qed.

Lemma rnd_nonpos x : x <= 0 -> rnd x <= 0.
Proof.
  intro H. pose proof (rnd_monotone R laws x 0 H) as Hm.
  pose proof rnd_zero. lra.
Qed.

(** Rounding commutes with the absolute value. *)
Lemma rnd_abs t : Qabs (rnd t) == rnd (Qabs t).
Proof.
  destruct (Qlt_le_dec t 0) as [Hneg | Hpos].
  - pose proof (rnd_nonpos t (Qlt_le_weak _ _ Hneg)) as Hr.
    rewrite (Qabs_neg (rnd t)) by assumption.
    rewrite <- (rnd_opp R laws).
    apply (rnd_proper R laws). symmetry. apply Qabs_neg. lra.
  - pose proof (rnd_nonneg t Hpos) as Hr.
    rewrite (Qabs_pos (rnd t)) by assumption.
    apply (rnd_proper R laws). symmetry. now apply Qabs_pos.
Qed.

(** A nonnegative number is rounded to within 2^-24 of itself. *)
Lemma rnd_bounds x :
  0 <= x -> x - x * (1 # 16777216) <= rnd x /\ rnd x <= x + x * (1 # 16777216).
Proof.
  intro Hx. pose proof (rnd_error R laws x) as He.
  rewrite (Qabs_pos x) in He by assumption.
  qabs_split (rnd x - x); lra.
Qed.

(** Only zero is rounded to zero. *)
Lemma rnd_eq0 x : rnd x == 0 -> x == 0.
Proof.
  intro H. pose proof (rnd_error R laws x) as He.
  qabs_split x; qabs_split (rnd x - x); lra.
Qed.

(** Two nonnegative numbers whose gap is more than 2^-24 of their sum
    stay apart once rounded. *)
Lemma rnd_separate x y :
  0 <= x -> x + y < (y - x) * 16777216 -> rnd x < rnd y.
Proof.
  intros Hx Hgap.
  assert (Hy : 0 <= y) by lra.
  destruct (rnd_bounds x Hx) as [_ Hux].
  destruct (rnd_bounds y Hy) as [Hly _].
  lra.
Qed.
End Laws.

End RoundingFacts.

(* ================================================================== *)
(** * The discretizer *)

Module TokenizerFacts.
Import Py Spec PyFacts ActionTokenizerV2 RoundingFacts.
Local Open Scope Q_scope.

Section Rounded.
Context {R : Rounding}.
Hypothesis laws : rounding_laws R.

Lemma distances_nth value bins j :
  (j < List.length bins)%nat ->
  nth j (distances value bins) 0 = Qabs (rnd (nth j bins 0 - value)).
Proof.
  intro Hj. unfold distances.
  rewrite (nth_indep _ 0 ((fun b => Qabs (rnd (b - value))) 0)).
  - apply (map_nth (fun b => Qabs (rnd (b - value)))).
  - now rewrite length_map.
Qed.

(** The distance to a bin is the rounded gap. *)
Lemma distances_gap value bins j :
  (j < List.length bins)%nat ->
  nth j (distances value bins) 0 == rnd (Qabs (nth j bins 0 - value)).
Proof.
  intro Hj. rewrite distances_nth by assumption. now apply rnd_abs.
Qed.

Lemma distances_length value bins :
  List.length (distances value bins) = List.length bins.
Proof. unfold distances. apply length_map. Qed.

Lemma closest_bin_first_min value bins :
  bins <> [] ->
  exists k, closest_bin value bins = Ok k /\ first_min (distances value bins) k.
Proof.
  intro Hne. apply argmin_first_min.
  destruct bins; [congruence | discriminate].
Qed.

Lemma closest_bin_in_range v bins k :
  closest_bin v bins = Ok k -> (k < List.length bins)%nat.
Proof.
  intro H.
  assert (Hne : bins <> []) by (intro E; rewrite E in H; discriminate).
  destruct (closest_bin_first_min v bins Hne) as (k' & E & (Hk & _)).
  rewrite H in E. injection E as <-.
  now rewrite distances_length in Hk.
Qed.

Section Bins.
Variable bins : list Q.
Hypothesis bins_increasing : increasing bins.

(** A bin centre is closest to itself, and to no earlier bin. *)
Lemma closest_bin_center i w :
  (i < List.length bins)%nat -> w == nth i bins 0 ->
  closest_bin w bins = Ok i.
Proof.
  intros Hi Hw.
  destruct (closest_bin_first_min w bins) as (k & Hk & Hmin).
  { destruct bins; [simpl in Hi; lia | discriminate]. }
  rewrite Hk. f_equal.
  apply (first_min_unique _ _ _ Hmin).
  assert (Hzero : nth i (distances w bins) 0 == 0).
  { rewrite distances_gap by assumption.
    assert (E : Qabs (nth i bins 0 - w) == 0)
      by (qabs_split (nth i bins 0 - w); lra).
    rewrite (rnd_proper R laws _ _ E). apply (rnd_zero laws). }
  repeat split.
  - now rewrite distances_length.
  - intros j Hj. rewrite distances_length in Hj.
    rewrite Hzero, distances_nth by assumption. apply Qabs_nonneg.
  - intros j Hj. rewrite Hzero, distances_gap by lia.
    pose proof (bins_increasing j i Hj Hi) as Hlt.
    assert (Hpos : 0 <= Qabs (nth j bins 0 - w)) by apply Qabs_nonneg.
    pose proof (rnd_nonneg laws _ Hpos) as Hr.
    destruct (Qlt_le_dec 0 (rnd (Qabs (nth j bins 0 - w)))) as [| Hle];
      [assumption | exfalso].
    assert (Hz : rnd (Qabs (nth j bins 0 - w)) == 0) by lra.
    apply (rnd_eq0 laws) in Hz.
    qabs_split (nth j bins 0 - w); lra.
Qed.

(** A larger value is never closest to an earlier bin: were it so, the
    smaller value would lie beyond the midpoint of the two bins, and the
    larger one either between that midpoint and the later bin, where the
    gaps are ordered before rounding, or not far beyond the later bin,
    where the two gaps are too far apart to be rounded together. *)
Lemma closest_bin_monotone w1 w2 k1 k2 :
  w1 <= w2 ->
  (forall i j, (i < j)%nat -> (j < List.length bins)%nat ->
     w2 - nth j bins 0 <= 4194304 * (nth j bins 0 - nth i bins 0)) ->
  closest_bin w1 bins = Ok k1 -> closest_bin w2 bins = Ok k2 ->
  (k1 <= k2)%nat.
Proof.
  intros Hw Hnear H1 H2.
  assert (Hne : bins <> []) by (intro E; rewrite E in H1; discriminate).
  destruct (closest_bin_first_min w1 bins Hne) as (k1' & E1 & (Hk1 & Hle1 & Hlt1)).
  destruct (closest_bin_first_min w2 bins Hne) as (k2' & E2 & (Hk2 & Hle2 & Hlt2)).
  rewrite H1 in E1. rewrite H2 in E2.
  injection E1 as <-. injection E2 as <-.
  rewrite distances_length in Hk1, Hk2.
  destruct (le_lt_dec k1 k2) as [| Hgt]; [assumption | exfalso].
  specialize (Hlt1 k2 Hgt).
  specialize (Hle2 k1). rewrite distances_length in Hle2.
  specialize (Hle2 Hk1).
  rewrite !distances_gap in Hlt1, Hle2 by assumption.
  pose proof (bins_increasing k2 k1 Hgt Hk1) as Hac.
  specialize (Hnear k2 k1 Hgt Hk1).
  set (c := nth k1 bins 0) in *. set (a := nth k2 bins 0) in *.
  assert (Hmid : Qabs (c - w1) < Qabs (a - w1)).
  { destruct (Qlt_le_dec (Qabs (c - w1)) (Qabs (a - w1))) as [| Hle];
      [assumption | exfalso].
    apply (rnd_monotone R laws) in Hle. lra. }
  destruct (Qlt_le_dec c w2) as [Hbeyond | Hwithin].
  - assert (Hsep : rnd (Qabs (c - w2)) < rnd (Qabs (a - w2))).
    { apply (rnd_separate laws); [apply Qabs_nonneg |].
      qabs_split (c - w2); qabs_split (a - w2); lra. }
    lra.
  - assert (Hc : Qabs (c - w2) <= Qabs (c - w1)).
    { qabs_split (c - w1); qabs_split (a - w1);
        qabs_split (c - w2); lra. }
    assert (Ha : Qabs (a - w1) <= Qabs (a - w2)).
    { qabs_split (c - w1); qabs_split (a - w1);
        qabs_split (a - w2); lra. }
    apply (rnd_monotone R laws) in Hc, Ha. lra.
Qed.

Lemma closest_bin_below w :
  bins <> [] -> w <= nth 0 bins 0 -> closest_bin w bins = Ok 0%nat.
Proof.
  intros Hne Hw.
  destruct (closest_bin_first_min w bins Hne) as (k & Hk & Hmin).
  rewrite Hk. f_equal. apply (first_min_unique _ _ _ Hmin).
  assert (Hlen : (0 < List.length bins)%nat)
    by (destruct bins; [congruence | simpl; lia]).
  repeat split.
  - now rewrite distances_length.
  - intros j Hj. rewrite distances_length in Hj.
    rewrite !distances_gap by assumption.
    assert (nth 0 bins 0 <= nth j bins 0).
    { destruct j; [lra |]. apply Qlt_le_weak, bins_increasing; lia. }
    apply (rnd_monotone R laws).
    qabs_split (nth 0 bins 0 - w); qabs_split (nth j bins 0 - w); lra.
  - intros j Hj. lia.
Qed.

(** The last bin is the closest one as soon as its rounded gap is below
    the rounded gap of every other bin. *)
Lemma closest_bin_last w :
  bins <> [] ->
  (forall j, (j < List.length bins - 1)%nat ->
     rnd (Qabs (nth (List.length bins - 1) bins 0 - w))
     < rnd (Qabs (nth j bins 0 - w))) ->
  closest_bin w bins = Ok (List.length bins - 1)%nat.
Proof.
  intros Hne Hw.
  destruct (closest_bin_first_min w bins Hne) as (k & Hk & Hmin).
  rewrite Hk. f_equal. apply (first_min_unique _ _ _ Hmin).
  assert (Hlen : (0 < List.length bins)%nat)
    by (destruct bins; [congruence | simpl; lia]).
  set (n := (List.length bins - 1)%nat) in *.
  repeat split.
  - rewrite distances_length. lia.
  - intros j Hj. rewrite distances_length in Hj.
    rewrite !distances_gap by lia.
    destruct (Nat.eq_dec j n) as [-> | Hjn]; [lra |].
    apply Qlt_le_weak, Hw. lia.
  - intros j Hj. rewrite !distances_gap by lia. now apply Hw.
Qed.

Lemma closest_bin_above w :
  bins <> [] -> nth (List.length bins - 1) bins 0 <= w ->
  (forall j, (j < List.length bins - 1)%nat ->
     w - nth (List.length bins - 1) bins 0
     <= 4194304 * (nth (List.length bins - 1) bins 0 - nth j bins 0)) ->
  closest_bin w bins = Ok (List.length bins - 1)%nat.
Proof.
  intros Hne Hw Hnear. apply closest_bin_last; [assumption |].
  intros j Hj. specialize (Hnear j Hj).
  assert (Hlen : (0 < List.length bins)%nat)
    by (destruct bins; [congruence | simpl; lia]).
  assert (Hlt : nth j bins 0 < nth (List.length bins - 1) bins 0)
    by (apply bins_increasing; lia).
  apply (rnd_separate laws); [apply Qabs_nonneg |].
  qabs_split (nth (List.length bins - 1) bins 0 - w);
    qabs_split (nth j bins 0 - w); lra.
Qed.
End Bins.
End Rounded.
End TokenizerFacts.

Module Discretizer.
Import Py Spec PyFacts ActionTokenizerV2 RoundingFacts TokenizerFacts.
Local Open Scope Q_scope.

Lemma half_pos x : 0 < x -> 0 < x / 2.
Proof. intro H. apply Qlt_shift_div_l; lra. Qed.

Lemma math_pi_pos : 0 < math_pi.
Proof. reflexivity. Qed.

(** The integer of a token can be read back from its text. *)
Lemma token_injective a n m :
  (-5 <= n <= 5)%Z -> (-5 <= m <= 5)%Z -> token a n = token a m -> n = m.
Proof.
  intros Hn Hm.
  assert (En : (n = -5 \/ n = -4 \/ n = -3 \/ n = -2 \/ n = -1 \/ n = 0 \/
                n = 1 \/ n = 2 \/ n = 3 \/ n = 4 \/ n = 5)%Z) by lia.
  assert (Em : (m = -5 \/ m = -4 \/ m = -3 \/ m = -2 \/ m = -1 \/ m = 0 \/
                m = 1 \/ m = 2 \/ m = 3 \/ m = 4 \/ m = 5)%Z) by lia.
  destruct a;
    repeat (destruct En as [-> | En]); try subst n;
    repeat (destruct Em as [-> | Em]); try subst m;
    vm_compute; intro H; try reflexivity; discriminate H.
Qed.

Section Rounded.
Context {R : Rounding}.
Hypothesis laws : rounding_laws R.

Lemma discretize_token value a bins k :
  closest_bin (rnd value) bins = Ok k ->
  discretize value bins (prefix_of a) = Ok (token a (Z.of_nat k - 5)).
Proof. intro H. unfold discretize. rewrite H. reflexivity. Qed.

Lemma linspace_length a b n : List.length (linspace a b n) = n.
Proof. unfold linspace. now rewrite length_map, length_seq. Qed.

Lemma linspace_nth a b n j :
  (j < n)%nat ->
  nth j (linspace a b n) 0 =
  rnd (a + inject_Z (Z.of_nat j) * ((b - a) / inject_Z (Z.of_nat (n - 1)))).
Proof.
  intro Hj. unfold linspace.
  set (f := fun i : nat =>
              rnd (a + inject_Z (Z.of_nat i) *
                       ((b - a) / inject_Z (Z.of_nat (n - 1))))).
  rewrite (nth_indep _ 0 (f 0%nat)) by (now rewrite length_map, length_seq).
  rewrite (map_nth f). now rewrite seq_nth.
Qed.

(** The eleven bins of a range [[lo, hi]] that contains zero or starts at
    it, and is at most as far below zero as it is wide: every range of the
    tokenizer is such a one. *)
Section Range.
Variables lo hi : Q.
Hypothesis range_ordered : lo < hi.
Hypothesis range_low : - (hi - lo) <= lo.
Hypothesis range_zero : lo <= 0.

Local Abbreviation step := ((hi - lo) / inject_Z (Z.of_nat (11 - 1))).
Local Abbreviation bins := (linspace lo hi 11).
Local Abbreviation scaled j := (inject_Z (Z.of_nat j) * step).

Lemma step_ten : 10 * step == hi - lo.
Proof. change (inject_Z (Z.of_nat (11 - 1))) with 10. field. Qed.

Lemma step_pos : 0 < step.
Proof. pose proof step_ten. lra. Qed.

Lemma scaled_bounds j : (j <= 10)%nat -> 0 <= scaled j /\ scaled j <= hi - lo.
Proof.
  intro Hj. pose proof step_pos as Hs. pose proof step_ten as Ht.
  assert (H0 : 0 <= inject_Z (Z.of_nat j))
    by (change 0 with (inject_Z 0); rewrite <- Zle_Qle; lia).
  assert (H10 : inject_Z (Z.of_nat j) <= 10)
    by (change 10 with (inject_Z 10); rewrite <- Zle_Qle; lia).
  split.
  - apply Qmult_le_0_compat; lra.
  - apply (Qmult_le_compat_r _ _ step) in H10; lra.
Qed.

Lemma scaled_gap i j : (i < j)%nat -> scaled i + step <= scaled j.
Proof.
  intro Hij. pose proof step_pos as Hs.
  assert (H : inject_Z (Z.of_nat i) + 1 <= inject_Z (Z.of_nat j)).
  { change 1 with (inject_Z 1). rewrite <- inject_Z_plus, <- Zle_Qle. lia. }
  apply (Qmult_le_compat_r _ _ step) in H; lra.
Qed.

(** A bin is within 2^-24 of the width of the range from its ideal
    position. *)
Lemma bin_near j :
  (j <= 10)%nat ->
  lo + scaled j - (hi - lo) * (1 # 16777216) <= nth j bins 0 /\
  nth j bins 0 <= lo + scaled j + (hi - lo) * (1 # 16777216).
Proof.
  intro Hj. rewrite linspace_nth by lia.
  destruct (scaled_bounds j Hj) as [H0 H1].
  pose proof (rnd_error R laws (lo + scaled j)) as He.
  qabs_split (lo + scaled j);
    qabs_split (rnd (lo + scaled j) - (lo + scaled j)); lra.
Qed.

Lemma bins_increasing : increasing bins.
Proof.
  intros i j Hij Hj. rewrite linspace_length in Hj.
  destruct (bin_near i) as [_ Hi]; [lia |].
  destruct (bin_near j) as [Hj' _]; [lia |].
  pose proof (scaled_gap i j Hij). pose proof step_ten. pose proof step_pos.
  lra.
Qed.

Lemma bins_first : nth 0 bins 0 == rnd lo.
Proof.
  rewrite linspace_nth by lia. apply (rnd_proper R laws).
  change (inject_Z (Z.of_nat 0)) with 0. ring.
Qed.

Lemma bins_last : nth 10 bins 0 == rnd hi.
Proof.
  rewrite linspace_nth by lia. apply (rnd_proper R laws).
  pose proof step_ten. change (inject_Z (Z.of_nat 10)) with 10. lra.
Qed.

Lemma bins_rounded j : (j < 11)%nat -> rnd (nth j bins 0) == nth j bins 0.
Proof. intro Hj. rewrite linspace_nth by lia. apply (rnd_idem R laws). Qed.

(** A value not above the rounded top of the range lies beyond a bin by
    little, measured in gaps between that bin and an earlier one. *)
Lemma near_within w i j :
  w <= rnd hi -> (i < j)%nat -> (j < 11)%nat ->
  w - nth j bins 0 <= 4194304 * (nth j bins 0 - nth i bins 0).
Proof.
  intros Hw Hij Hj. rewrite <- bins_last in Hw.
  destruct (bin_near i) as [_ Hi]; [lia |].
  destruct (bin_near j) as [Hj' _]; [lia |].
  destruct (bin_near 10) as [_ Hlast]; [lia |].
  destruct (scaled_bounds 10) as [_ H10]; [lia |].
  destruct (scaled_bounds i) as [H0 _]; [lia |].
  pose proof (scaled_gap i j Hij). pose proof step_ten. pose proof step_pos.
  lra.
Qed.

(** So does, beyond the last bin, a value that exceeds the range by at
    most 100000 times its width. *)
Lemma near_above v j :
  v <= hi + 100000 * (hi - lo) -> (j < 10)%nat ->
  rnd v - nth 10 bins 0 <= 4194304 * (nth 10 bins 0 - nth j bins 0).
Proof.
  intros Hv Hj.
  apply (rnd_monotone R laws) in Hv.
  destruct (rnd_bounds laws (hi + 100000 * (hi - lo))) as [_ Hup]; [lra |].
  destruct (bin_near j) as [_ Hj']; [lia |].
  destruct (bin_near 10) as [Hlast _]; [lia |].
  destruct (scaled_bounds 10) as [_ H10]; [lia |].
  destruct (scaled_bounds j) as [H0 _]; [lia |].
  pose proof (scaled_gap j 10 Hj). pose proof step_ten. pose proof step_pos.
  lra.
Qed.

Lemma closest_bin_exists w : exists k, closest_bin w bins = Ok k /\ (k < 11)%nat.
Proof.
  destruct (closest_bin_first_min w bins) as (k & E & _); [discriminate |].
  exists k. split; [assumption |].
  apply closest_bin_in_range in E. now rewrite linspace_length in E.
Qed.
End Range.

Section Configured.
Variables env_size_meters env_height_meters : Q.
Hypothesis size_positive : 0 < env_size_meters.
Hypothesis height_positive : 0 < env_height_meters.

Local Abbreviation self := (init env_size_meters env_height_meters).
Local Abbreviation lo a := (fst (range_of env_size_meters env_height_meters a)).
Local Abbreviation hi a := (snd (range_of env_size_meters env_height_meters a)).

Lemma bins_of_init a : bins_of self a = linspace (lo a) (hi a) 11.
Proof. destruct a; reflexivity. Qed.

Lemma bins_of_length a : List.length (bins_of self a) = 11%nat.
Proof. rewrite bins_of_init. apply linspace_length. Qed.

Lemma range_of_ordered a : lo a < hi a.
Proof using size_positive height_positive.
  pose proof (half_pos _ size_positive) as Hhalf.
  pose proof (half_pos _ math_pi_pos) as Hpi.
  assert (Hneg : - math_pi / 2 == - (math_pi / 2)) by field.
  destruct a; simpl; lra.
Qed.

Lemma range_of_low a : - (hi a - lo a) <= lo a.
Proof using size_positive height_positive.
  pose proof (half_pos _ size_positive) as Hhalf.
  pose proof (half_pos _ math_pi_pos) as Hpi.
  assert (Hneg : - math_pi / 2 == - (math_pi / 2)) by field.
  destruct a; simpl; lra.
Qed.

Lemma range_of_zero a : lo a <= 0.
Proof using size_positive height_positive.
  pose proof (half_pos _ size_positive) as Hhalf.
  pose proof (half_pos _ math_pi_pos) as Hpi.
  assert (Hneg : - math_pi / 2 == - (math_pi / 2)) by field.
  destruct a; simpl; lra.
Qed.

Lemma bins_of_increasing a : increasing (bins_of self a).
Proof.
  rewrite bins_of_init.
  apply bins_increasing;
    [apply range_of_ordered | apply range_of_low | apply range_of_zero].
Qed.



(* The bin of a value, and the lower clamp: the closest bin exists, its
   token is the answer, and it is the first bin for a value at or below
   the range. *)
Lemma discretize_clamps_below (a : axis) (value : Q) :
  exists k : nat,
    closest_bin (rnd value) (linspace (lo a) (hi a) 11) = Ok k /\
    (k <= 10)%nat /\
    discretize value (bins_of self a) (prefix_of a)
    = Ok (token a (Z.of_nat k - 5)) /\
    (value <= lo a -> k = 0%nat).
Proof.
  pose proof (bins_of_increasing a) as Hinc.
  pose proof (range_of_ordered a) as Hord.
  pose proof (range_of_low a) as Hlow.
  pose proof (range_of_zero a) as Hzero.
  rewrite bins_of_init in *.
  destruct (closest_bin_exists (lo a) (hi a) (rnd value)) as (k & E & Hk).
  exists k. split; [exact E |]. split; [lia |].
  split; [now apply discretize_token |].
  intro Hv.
  assert (E0 : closest_bin (rnd value) (linspace (lo a) (hi a) 11) = Ok 0%nat).
  { apply (closest_bin_below laws); try assumption; [discriminate |].
    rewrite bins_first. now apply (rnd_monotone R laws). }
  rewrite E in E0. now injection E0.
Qed.

End Configured.
End Rounded.


(** C7. What the code does with a value far above the range: for the
    default tokenizer, on float32 tensors, the value 1e8 on the x axis
    (range -1.5 .. 1.5) and on the yaw axis gets the token of the lowest
    bin, -5, not that of the highest. *)
Theorem discretize_far_above_gets_lowest_bin :
  3 / 2 <= 100000000 /\
  discretize (R := float32) 100000000 (x_bins (default (R := float32)))
             "POS_X" = Ok "POS_X_-5"%string /\
  discretize (R := float32) 100000000 (yaw_bins (default (R := float32)))
             "ROT_YAW" = Ok "ROT_YAW_-5"%string.
Proof. split; [discriminate |]. split; vm_compute; reflexivity. Qed.





End Discretizer.

(* ================================================================== *)
(** * The action generator *)

Module Executor.
Import ActionExecutor.

Lemma pick_terminate_flags self pos is_final :
  map terminate (fst (generate_pick_actions self pos is_final))
  = [0; 0; 0; if is_final then 1 else 0]%Z.
Proof.
  destruct pos as [[x y] z], (home_rot self) as [[r p] w] eqn:E.
  unfold generate_pick_actions. simpl. rewrite E. reflexivity.
Qed.

Lemma place_terminate_flags self pos is_final :
  map terminate (fst (generate_place_actions self pos is_final))
  = [0; 0; 0; 0; if is_final then 1 else 0]%Z.
Proof.
  destruct pos as [[x y] z], (home_rot self) as [[r p] w] eqn:E,
    (home_pos self) as [[hx hy] hz] eqn:E'.
  unfold generate_place_actions. simpl. rewrite E, E'. reflexivity.
Qed.

Lemma flags_at (l : list action) (flags : list Z) i a :
  map terminate l = flags -> nth_error l i = Some a ->
  nth_error flags i = Some (terminate a).
Proof. intros <- H. now rewrite nth_error_map, H. Qed.

(** C8. [generate_place_actions pos true] returns 5 vectors, with
    terminate 1 on vector 4 and 0 on the others; and the 9 vectors of
    [generate_pick_actions pos1 false] followed, on the same executor, by
    [generate_place_actions pos2 true] carry terminate 1 exactly once, on
    the last vector of the place subtask. *)
Theorem terminate_only_on_last_place_vector self pos1 pos2 :
  let place_alone := fst (generate_place_actions self pos2 true) in
  let pick := fst (generate_pick_actions self pos1 false) in
  let self' := snd (generate_pick_actions self pos1 false) in
  let place := fst (generate_place_actions self' pos2 true) in
  (List.length place_alone = 5%nat /\
   forall i a, nth_error place_alone i = Some a ->
               (i = 4%nat -> terminate a = 1%Z) /\
               (i <> 4%nat -> terminate a = 0%Z)) /\
  (List.length pick = 4%nat /\ List.length place = 5%nat /\
   count_occ Z.eq_dec (map terminate (pick ++ place)) 1%Z = 1%nat /\
   forall i a, nth_error (pick ++ place) i = Some a ->
               (terminate a = 1%Z <-> i = 8%nat) /\
               (i <> 8%nat -> terminate a = 0%Z)).
Proof.
  intros place_alone pick self' place.
  pose proof (place_terminate_flags self pos2 true) as Halone.
  pose proof (pick_terminate_flags self pos1 false) as Hpick.
  pose proof (place_terminate_flags self' pos2 true) as Hplace.
  fold place_alone in Halone. fold pick in Hpick. fold place in Hplace.
  assert (Hall : map terminate (pick ++ place) = [0; 0; 0; 0; 0; 0; 0; 0; 1]%Z)
    by (rewrite map_app, Hpick, Hplace; reflexivity).
  clearbody place_alone pick place.
  split; [split | split; [| split; [| split]]].
  - rewrite <- (length_map terminate), Halone. reflexivity.
  - intros i a Hi. pose proof (flags_at _ _ _ _ Halone Hi) as Hf.
    do 5 (destruct i as [| i];
          [ simpl in Hf; injection Hf as <-;
            split; [intro; lia || reflexivity | intro; lia || reflexivity] |]).
    destruct i; discriminate Hf.
  - rewrite <- (length_map terminate), Hpick. reflexivity.
  - rewrite <- (length_map terminate), Hplace. reflexivity.
  - rewrite Hall. reflexivity.
  - intros i a Hi. pose proof (flags_at _ _ _ _ Hall Hi) as Hf.
    do 9 (destruct i as [| i];
          [ simpl in Hf; injection Hf as <-;
            split; [split; intro; lia || reflexivity
                   | intro; lia || reflexivity] |]).
    destruct i; discriminate Hf.
Qed.

(** No call changes the home pose. *)
Lemma after_home history : forall self,
  home_pos (after history self) = home_pos self /\
  home_rot (after history self) = home_rot self.
Proof.
  induction history as [| c history IH]; intro self; [now split |].
  simpl. destruct (IH (snd (step self c))) as [-> ->].
  destruct c; simpl; now split.
Qed.

(** The actions read the home pose only, never [gripper_open]. *)
Lemma pick_actions_depend_on_home self1 self2 pos is_final :
  home_rot self1 = home_rot self2 ->
  fst (generate_pick_actions self1 pos is_final)
  = fst (generate_pick_actions self2 pos is_final).
Proof. intro H. unfold generate_pick_actions. simpl. now rewrite H. Qed.

Lemma place_actions_depend_on_home self1 self2 pos is_final :
  home_pos self1 = home_pos self2 -> home_rot self1 = home_rot self2 ->
  fst (generate_place_actions self1 pos is_final)
  = fst (generate_place_actions self2 pos is_final).
Proof.
  intros H1 H2. unfold generate_place_actions. simpl. now rewrite H1, H2.
Qed.

(** C9. After any two histories of calls on a fresh executor, a call with
    the same arguments returns the same sequence of actions, for pick and
    for place alike, although the calls do write [gripper_open] (0 after
    a pick, 1 after a place). *)
Theorem actions_independent_of_history history1 history2 pos is_final :
  let self1 := after history1 init in
  let self2 := after history2 init in
  fst (generate_pick_actions self1 pos is_final)
  = fst (generate_pick_actions self2 pos is_final) /\
  fst (generate_place_actions self1 pos is_final)
  = fst (generate_place_actions self2 pos is_final) /\
  gripper_open (snd (generate_pick_actions self1 pos is_final)) = 0%Z /\
  gripper_open (snd (generate_place_actions self1 pos is_final)) = 1%Z.
Proof.
  intros self1 self2.
  destruct (after_home history1 init) as [Hp1 Hr1].
  destruct (after_home history2 init) as [Hp2 Hr2].
  split; [| split; [| split]].
  - apply pick_actions_depend_on_home. unfold self1, self2. congruence.
  - apply place_actions_depend_on_home; unfold self1, self2; congruence.
  - reflexivity.
  - reflexivity.
Qed.

End Executor.

(* ================================================================== *)
(** * [SemanticMatcher.decide] *)

Module MatcherFacts.
Import Py PyStr Spec PyFacts.

Lemma truthy_false s : truthy s = false <-> s = "".
Proof. destruct s; simpl; split; congruence. Qed.

Lemma argmax_from_bound l :
  forall i bi bv, (bi < i)%nat -> (argmax_from l i bi bv < i + List.length l)%nat.
Proof.
  induction l as [| x l IH]; intros i bi bv H; simpl.
  - lia.
  - destruct (Qltb bv x).
    + specialize (IH (S i) i x). lia.
    + specialize (IH (S i) bi bv). lia.
Qed.

Lemma argmax_ok l :
  l <> [] -> exists k, argmax l = Ok k /\ (k < List.length l)%nat.
Proof.
  destruct l as [| x l]; [congruence |]. intros _.
  exists (argmax_from l 1 0 x). split; [reflexivity |].
  pose proof (argmax_from_bound l 1 0 x). simpl. lia.
Qed.

(** Writing a key keeps the other keys in place and appends a new one. *)
Lemma keys_set (d : dict Z Q) k v :
  keys (set Z.eqb d k v)
  = if existsb (Z.eqb k) (keys d) then keys d else (keys d ++ [k])%list.
Proof.
  induction d as [| [k' v'] d IH]; simpl.
  - reflexivity.
  - rewrite (Z.eqb_sym k k'). destruct (Z.eqb k' k) eqn:E; simpl.
    + reflexivity.
    + rewrite IH. unfold keys.
      destruct (existsb (Z.eqb k) (map fst d)); reflexivity.
Qed.

Lemma keys_set_NoDup (d : dict Z Q) k v :
  NoDup (keys d) -> NoDup (keys (set Z.eqb d k v)).
Proof.
  intro H. rewrite keys_set.
  destruct (existsb (Z.eqb k) (keys d)) eqn:E; [assumption |].
  apply NoDup_app; [assumption | repeat constructor; simpl; tauto |].
  intros x Hx [Hk | []]. subst x.
  assert (existsb (Z.eqb k) (keys d) = true)
    by (apply existsb_exists; exists k; split; [assumption | apply Z.eqb_refl]).
  congruence.
Qed.

Lemma keys_set_In (d : dict Z Q) k v x :
  In x (keys (set Z.eqb d k v)) <-> In x (keys d) \/ x = k.
Proof.
  rewrite keys_set. destruct (existsb (Z.eqb k) (keys d)) eqn:E.
  - apply existsb_exists in E. destruct E as (y & Hy & Hky).
    apply Z.eqb_eq in Hky. subst y. split; [tauto |].
    intros [H | ->]; assumption.
  - rewrite in_app_iff. simpl. intuition.
Qed.

Lemma insert_desc_perm {K : Type} (x : K * Q) l :
  Permutation (insert_desc x l) (x :: l).
Proof.
  induction l as [| y l IH]; simpl.
  - reflexivity.
  - destruct (Qltb (snd x) (snd y)).
    + rewrite IH. apply perm_swap.
    + reflexivity.
Qed.

Lemma sorted_desc_perm {K : Type} (l : list (K * Q)) :
  Permutation (sorted_desc l) l.
Proof.
  induction l as [| x l IH]; simpl.
  - reflexivity.
  - rewrite insert_desc_perm. now constructor.
Qed.

Lemma insert_desc_sorted {K : Type} (x : K * Q) l :
  StronglySorted (fun a b => (snd b <= snd a)%Q) l ->
  StronglySorted (fun a b => (snd b <= snd a)%Q) (insert_desc x l).
Proof.
  induction 1 as [| y l Hs IH Hy]; simpl.
  - repeat constructor.
  - destruct (Qltb (snd x) (snd y)) eqn:E.
    + apply Qltb_true in E. constructor; [assumption |].
      rewrite Forall_forall in Hy |- *. intros z Hz.
      apply (Permutation_in _ (insert_desc_perm x l)) in Hz.
      destruct Hz as [<- | Hz]; [now apply Qlt_le_weak | now apply Hy].
    + apply Qltb_false in E. constructor; [now constructor |].
      constructor; [assumption |].
      rewrite Forall_forall in Hy |- *. intros z Hz.
      apply Qle_trans with (snd y); [now apply Hy | assumption].
Qed.

Lemma sorted_desc_sorted {K : Type} (l : list (K * Q)) :
  StronglySorted (fun a b => (snd b <= snd a)%Q) (sorted_desc l).
Proof.
  induction l as [| x l IH]; simpl; [constructor | now apply insert_desc_sorted].
Qed.

Lemma first_other_some pick l :
  (exists e, In e l /\ fst e <> pick) ->
  exists u s, P.first_other pick l = Some (u, s) /\ u <> pick /\ In (u, s) l.
Proof.
  induction l as [| [u s] l IH]; intros (e & He & Hne).
  - destruct He.
  - simpl. destruct (Z.eqb u pick) eqn:E.
    + apply Z.eqb_eq in E. subst u.
      destruct He as [<- | He]; [now simpl in Hne |].
      destruct IH as (u' & s' & H1 & H2 & H3); [now exists e |].
      exists u', s'. auto.
    + apply Z.eqb_neq in E. exists u, s. auto.
Qed.

Lemma first_other_ne pick l u s :
  P.first_other pick l = Some (u, s) -> u <> pick.
Proof.
  induction l as [| [u' s'] l IH]; simpl; [discriminate |].
  destruct (Z.eqb u' pick) eqn:E; [assumption |].
  intros [= <- <-]. now apply Z.eqb_neq.
Qed.

Lemma first_other_In pick l u s :
  P.first_other pick l = Some (u, s) -> In (u, s) l.
Proof.
  induction l as [| [u' s'] l IH]; simpl; [discriminate |].
  destruct (Z.eqb u' pick); [auto |].
  intros [= <- <-]. now left.
Qed.

(** In a list sorted by decreasing score, the first entry of another
    object has the best score of all entries of other objects. *)
Lemma first_other_best pick l u s :
  StronglySorted (fun a b => (snd b <= snd a)%Q) l ->
  P.first_other pick l = Some (u, s) ->
  forall u' s', In (u', s') l -> u' <> pick -> (s' <= s)%Q.
Proof.
  induction 1 as [| [u0 s0] l Hs IH Hhd]; simpl; [discriminate |].
  destruct (Z.eqb u0 pick) eqn:E.
  - apply Z.eqb_eq in E. subst u0. intros Hfo u' s' [[= <- <-] | Hin] Hne.
    + congruence.
    + now apply (IH Hfo u' s').
  - intros [= <- <-] u' s' [[= <- <-] | Hin] Hne.
    + apply Qle_refl.
    + rewrite Forall_forall in Hhd. apply (Hhd (u', s') Hin).
Qed.

(** The generator of line 208 pairs every candidate uid with its score. *)
Lemma mapM_scored (uids : list Z) (scores : list Q) off :
  (off + List.length uids <= List.length scores + off)%nat ->
  forall pre, List.length pre = off ->
  mapM (fun iu : nat * Z =>
          bind (list_get (pre ++ scores) (fst iu)) (fun s => Ok (snd iu, s)))
       (combine (seq off (List.length uids)) uids)
  = Ok (combine uids (firstn (List.length uids) scores)).
Proof.
  revert scores off.
  induction uids as [| u uids IH]; intros scores off Hlen pre Hpre.
  - reflexivity.
  - destruct scores as [| s scores]; [simpl in Hlen; lia |].
    simpl. unfold list_get at 1.
    rewrite nth_error_app2 by lia. rewrite Hpre, Nat.sub_diag. simpl.
    replace (pre ++ s :: scores)%list with ((pre ++ [s]) ++ scores)%list
      by (now rewrite <- app_assoc).
    rewrite (IH scores (S off)).
    + reflexivity.
    + simpl in Hlen. lia.
    + rewrite length_app. simpl. lia.
Qed.

Lemma In_combine_fst (uids : list Z) (scores : list Q) y :
  List.length uids = List.length scores -> In y uids ->
  exists s, In (y, s) (combine uids scores).
Proof.
  revert scores. induction uids as [| u uids IH]; intros [| s scores] Hlen Hy;
    simpl in *; try lia; try tauto.
  destruct Hy as [-> | Hy].
  - exists s. now left.
  - destruct (IH scores ltac:(lia) Hy) as (s' & Hs'). exists s'. now right.
Qed.

Lemma two_distinct (l : list Z) (x : Z) :
  NoDup l -> (1 < List.length l)%nat -> exists y, In y l /\ y <> x.
Proof.
  intros Hnd Hlen.
  destruct l as [| a [| b l]]; simpl in Hlen; try lia.
  destruct (Z.eq_dec a x) as [-> | Ha].
  - exists b. split; [simpl; auto |].
    inversion Hnd as [| ? ? Hnotin _]; subst. intros ->. apply Hnotin. now left.
  - exists a. split; [now left | assumption].
Qed.

End MatcherFacts.

Module Matcher.
Import Py PyStr Spec PyFacts MatcherFacts.

Lemma build_candidates_acc objects :
  forall t0 u0 d0 r,
    fold_left
      (fun acc (item : Z * P.ObjectInfo) =>
         let '(candidate_texts, candidate_uid, uid_to_texts) := acc in
         let '(u, meta) := item in
         let descs := P.descriptors meta in
         ((candidate_texts ++ descs)%list,
          (candidate_uid ++ map (fun _ => u) descs)%list,
          set Z.eqb uid_to_texts u descs))
      objects (t0, u0, d0) = r ->
    snd (fst r) = (u0 ++ cand_uids objects)%list /\
    List.length (fst (fst r))
    = (List.length t0 + List.length (cand_uids objects))%nat.
Proof.
  induction objects as [| [u meta] objects IH]; intros t0 u0 d0 r Hr.
  - simpl in Hr. subst r. simpl. rewrite app_nil_r. split; [reflexivity | lia].
  - simpl in Hr. apply IH in Hr. destruct Hr as [IH1 IH2]. split.
    + rewrite IH1. simpl. now rewrite <- app_assoc.
    + rewrite IH2. rewrite !length_app. simpl. lia.
Qed.

(** One uid per candidate text, four per object, in the order of the
    objects. *)
Lemma build_candidates_spec objects texts uids u2t :
  P.build_candidates objects = (texts, uids, u2t) ->
  uids = cand_uids objects /\ List.length texts = List.length uids.
Proof.
  intro H. apply build_candidates_acc in H. simpl in H.
  destruct H as [-> ->]. auto.
Qed.

Lemma cand_uids_In objects u :
  In u (cand_uids objects) <-> In u (map fst objects).
Proof.
  unfold cand_uids. rewrite in_flat_map, in_map_iff. split.
  - intros ([u' meta] & Hin & Hu). simpl in Hu.
    destruct Hu as [<- | [<- | [<- | [<- | []]]]]; exists (u', meta); auto.
  - intros ([u' meta] & <- & Hin). exists (u', meta). split; [assumption |].
    simpl. now left.
Qed.

Lemma pool_scores_acc (l : list (Q * Z)) :
  forall (acc r : dict Z Q),
    fold_left
      (fun (acc : dict Z Q) (su : Q * Z) =>
         let '(val, u) := su in
         set Z.eqb acc u (max2 (get_default Z.eqb acc u (-1)%Q) val))
      l acc = r ->
    (NoDup (keys acc) -> NoDup (keys r)) /\
    (forall x, In x (keys r) <-> In x (keys acc) \/ In x (map snd l)).
Proof.
  induction l as [| [val u] l IH]; intros acc r Hr.
  - simpl in Hr. subst r. split; [auto | intro x; simpl; tauto].
  - simpl in Hr. apply IH in Hr. destruct Hr as [IH1 IH2]. split.
    + intro H. apply IH1. now apply keys_set_NoDup.
    + intro x. rewrite IH2, keys_set_In. simpl. intuition.
Qed.

(** The pooled scores have one entry per uid among the candidates. *)
Lemma pool_scores_keys scores uids :
  List.length scores = List.length uids ->
  NoDup (keys (P.pool_scores scores uids)) /\
  (forall x, In x (keys (P.pool_scores scores uids)) <-> In x uids).
Proof.
  intro Hlen.
  destruct (pool_scores_acc (combine scores uids) [] _ eq_refl) as [H1 H2].
  split.
  - apply H1. constructor.
  - intro x. unfold P.pool_scores. rewrite H2. simpl.
    assert (E : map snd (combine scores uids) = uids).
    { clear -Hlen. revert uids Hlen.
      induction scores as [| s scores IH]; intros [| u uids] Hlen;
        simpl in *; try lia; [reflexivity |]. f_equal. apply IH. lia. }
    rewrite E. tauto.
Qed.

Section DecideFacts.
Context `{EP : EmbeddingProvider}.

Lemma best_uid_for_ok uids embs e :
  embs <> [] -> List.length uids = List.length embs ->
  exists u s k,
    P.best_uid_for uids embs e = Ok (u, s) /\ In u uids /\
    nth_error uids k = Some u /\ first_max (P.cos_row e embs) k.
Proof.
  intros Hne Hlen. unfold P.best_uid_for.
  destruct (argmax_first_max (P.cos_row e embs)) as (k & Hk & Hmax).
  { unfold P.cos_row. destruct embs; [congruence | discriminate]. }
  rewrite Hk. simpl.
  pose proof Hmax as (Hlt & _).
  unfold P.cos_row in Hlt. rewrite length_map in Hlt.
  destruct (list_get_ok uids k ltac:(lia)) as (u & Hu & Hnth).
  destruct (list_get_ok (P.cos_row e embs) k) as (s & Hs & _).
  { unfold P.cos_row. rewrite length_map. lia. }
  rewrite Hu, Hs. simpl. exists u, s, k. split; [reflexivity |].
  split; [eapply nth_error_In; eassumption |]. now split.
Qed.

Lemma fallback_eq ue embs uids pk pl dbg :
  P.fallback ue embs uids pk pl dbg =
  Ok (if P.is_none pk || P.is_none pl
      then (match pk with
            | Some p => Some p
            | None => hd_error (keys (ranking ue embs uids))
            end,
            match pl with
            | Some q => Some q
            | None => nth_error (keys (ranking ue embs uids)) 1
            end,
            dset dbg "fallback_scores" (VScores (ranking ue embs uids)))
      else (pk, pl, dbg)).
Proof.
  unfold P.fallback, ranking.
  destruct (sorted_desc (P.pool_scores (P.cos_row ue embs) uids))
    as [| [u0 s0] [| [u1 s1] l]];
    destruct pk, pl; reflexivity.
Qed.

Lemma ranking_keys ue embs uids :
  List.length uids = List.length embs ->
  NoDup (keys (ranking ue embs uids)) /\
  (forall x, In x (keys (ranking ue embs uids)) <-> In x uids).
Proof.
  intro Hlen.
  destruct (pool_scores_keys (P.cos_row ue embs) uids) as [Hnd Hin].
  { unfold P.cos_row. rewrite length_map. lia. }
  assert (Hperm : Permutation (keys (ranking ue embs uids))
                              (keys (P.pool_scores (P.cos_row ue embs) uids))).
  { unfold keys, ranking. apply Permutation_map, sorted_desc_perm. }
  split.
  - eapply Permutation_NoDup; [symmetry; exact Hperm | exact Hnd].
  - intro x. rewrite <- Hin. split; apply Permutation_in;
      [exact Hperm | symmetry; exact Hperm].
Qed.

Lemma resolve_same_object_eq n ue embs uids pk pl dbg :
  List.length uids = List.length embs ->
  P.resolve_same_object n ue embs uids (Some pk) (Some pl) dbg =
  Ok (if Z.eqb pk pl && (1 <? n)%nat
      then match P.first_other pk
                   (sorted_desc (combine uids (P.cos_row ue embs))) with
           | Some (u, score) =>
               (Some u, dset dbg "resolved_same_object" (VFloat score))
           | None => (Some pl, dbg)
           end
      else (Some pl, dbg)).
Proof.
  intro Hlen. unfold P.resolve_same_object.
  destruct (Z.eqb pk pl && (1 <? n)%nat); [| reflexivity].
  unfold enumerate.
  pose proof (mapM_scored uids (P.cos_row ue embs) 0) as HM.
  specialize (HM ltac:(unfold P.cos_row; rewrite length_map; lia) [] eq_refl).
  simpl app in HM. unfold bind in HM |- *. rewrite HM.
  rewrite firstn_all2 by (unfold P.cos_row; rewrite length_map; lia).
  destruct (P.first_other pk _) as [[u score] |]; reflexivity.
Qed.

Lemma split_embeddings_ok (emb : list Emb) (ip il : bool) (n : nat) :
  List.length emb
  = (1 + (if ip then 1 else 0) + (if il then 1 else 0) + n)%nat ->
  exists (ue : Emb) (pe le : option Emb) (cands : list Emb),
    P.split_embeddings emb ip il = Ok (ue, pe, le, cands) /\
    List.length cands = n /\
    P.is_none pe = negb ip /\ P.is_none le = negb il.
Proof.
  intro Hlen. unfold P.split_embeddings.
  destruct emb as [| e0 emb]; [simpl in Hlen; lia |].
  destruct ip, il; simpl in Hlen.
  - destruct emb as [| e1 [| e2 emb]]; simpl in Hlen; try lia.
    exists e0, (Some e1), (Some e2), emb. simpl. repeat split. lia.
  - destruct emb as [| e1 emb]; simpl in Hlen; try lia.
    exists e0, (Some e1), None, emb. simpl. repeat split. lia.
  - destruct emb as [| e1 emb]; simpl in Hlen; try lia.
    exists e0, None, (Some e1), emb. simpl. repeat split. lia.
  - exists e0, None, None, emb. simpl. repeat split. lia.
Qed.

(** What lines 205-216 do to the place target, given a pick. *)
Lemma resolve_same_object_spec n ue cands uids pk pl dbg :
  List.length uids = List.length cands ->
  exists pl' dbg',
    P.resolve_same_object n ue cands uids (Some pk) pl dbg = Ok (pl', dbg') /\
    (pl = None -> pl' = None) /\
    (forall q, pl = Some q ->
       exists q', pl' = Some q' /\
                  (In q uids -> In q' uids) /\
                  ((1 < n)%nat -> (exists y, In y uids /\ y <> pk) -> q' <> pk)).
Proof.
  intro Hlen. destruct pl as [q |].
  - rewrite resolve_same_object_eq by assumption.
    assert (Hsc : List.length uids = List.length (P.cos_row ue cands))
      by (unfold P.cos_row; rewrite length_map; assumption).
    destruct (Z.eqb pk q) eqn:Epq; cycle 1.
    { apply Z.eqb_neq in Epq. eexists _, _. split; [reflexivity |].
      split; [discriminate |]. intros ? [= <-]. exists q. auto. }
    apply Z.eqb_eq in Epq. subst q.
    destruct (1 <? n)%nat eqn:En; cycle 1.
    { apply Nat.ltb_ge in En. eexists _, _. split; [reflexivity |].
      split; [discriminate |]. intros ? [= <-]. exists pk.
      repeat split; auto. intro. lia. }
    cbn [andb].
    destruct (P.first_other pk _) as [[u score] |] eqn:Efo.
    + eexists _, _. split; [reflexivity |]. split; [discriminate |].
      intros ? [= <-]. exists u. repeat split.
      * intros _. apply first_other_In in Efo.
        apply (Permutation_in _ (sorted_desc_perm _)) in Efo.
        now apply in_combine_l in Efo.
      * intros _ _. now apply first_other_ne in Efo.
    + eexists _, _. split; [reflexivity |]. split; [discriminate |].
      intros ? [= <-]. exists pk. repeat split; auto.
      intros _ (y & Hy & Hne). exfalso.
      destruct (In_combine_fst uids (P.cos_row ue cands) y Hsc Hy) as (s & Hs).
      destruct (first_other_some pk
                  (sorted_desc (combine uids (P.cos_row ue cands))))
        as (u' & s' & E & _).
      { exists (y, s). split; [| assumption].
        apply (Permutation_in _ (Permutation_sym (sorted_desc_perm _))), Hs. }
      congruence.
  - eexists _, _. split; [reflexivity |]. split; [reflexivity | discriminate].
Qed.
End DecideFacts.

End Matcher.

Module Decide.
Import Py PyStr Spec PyFacts MatcherFacts Matcher.

Section Claims.
Context `{EP : EmbeddingProvider}.

Lemma decide_no_objects command :
  P.decide command [] =
  Ok {| P.pick_uid := None; P.place_uid := None;
        P.debug := [("error", VStr "no visible objects")] |}.
Proof. reflexivity. Qed.

Lemma decide_blank command objects :
  objects <> [] -> strip command = "" ->
  P.decide command objects =
  Ok {| P.pick_uid := None; P.place_uid := None;
        P.debug := [("error", VStr "empty command")] |}.
Proof.
  intros Hne Hblank. unfold P.decide.
  destruct objects; [congruence |]. now rewrite Hblank.
Qed.

(** The run of [decide] on a command that is not blank, with objects in
    sight: it returns, pick is an object, place is another object when
    two or more are visible, and place is nothing when the only object is
    visible and no place phrase was embedded. *)
Lemma decide_main command objects :
  objects <> [] -> truthy (strip command) = true ->
  exists pk pl dbg,
    P.decide command objects
    = Ok {| P.pick_uid := Some pk; P.place_uid := pl; P.debug := dbg |} /\
    In pk (map fst objects) /\
    (NoDup (map fst objects) -> (1 < List.length objects)%nat ->
     exists q, pl = Some q /\ q <> pk /\ In q (map fst objects)) /\
    (List.length objects = 1%nat ->
     P.include_place_of (lower (strip command)) = false -> pl = None).
Proof.
  intros Hne Htr. unfold P.decide.
  destruct objects as [| o rest] eqn:Hobj; [congruence |].
  rewrite <- Hobj in *. clear Hobj o rest.
  rewrite Htr. cbn [negb].
  set (txt := lower (strip command)).
  destruct (P.build_candidates objects) as [[texts uids] u2t] eqn:Hbc.
  apply build_candidates_spec in Hbc. destruct Hbc as [Huids Hlen].
  assert (Hin : forall u, In u uids <-> In u (map fst objects))
    by (intro u; rewrite Huids; apply cand_uids_In).
  assert (Huids_ne : uids <> []).
  { destruct objects as [| [u m] r]; [congruence |].
    intro E. specialize (Hin u). rewrite E in Hin. simpl in Hin. tauto. }
  unfold P.include_place_of. fold txt.
  set (pp := P.pick_phrase_of txt).
  set (lp := P.place_phrase_of txt).
  set (ip := truthy_opt pp).
  set (il := truthy_opt lp && negb (opt_eqb lp pp)).
  match goal with |- context [encode ?t] => set (tte := t) end.
  assert (Hemb : List.length (encode tte) =
                 (1 + (if ip then 1 else 0) + (if il then 1 else 0)
                  + List.length uids)%nat).
  { rewrite encode_length. unfold tte. rewrite !length_app. simpl.
    destruct ip, il; simpl; lia. }
  destruct (split_embeddings_ok _ _ _ _ Hemb)
    as (ue & pe & le & cands & Hsplit & Hcands & Hpe & Hle).
  rewrite Hsplit. cbn [bind].
  destruct cands as [| c cands'] eqn:Hc.
  { destruct uids; [congruence | simpl in Hcands; lia]. }
  rewrite <- Hc in *.
  assert (Hcne : cands <> []) by (rewrite Hc; discriminate).
  clear Hc c cands'. symmetry in Hcands.
  destruct (ranking_keys ue cands uids Hcands) as [Hrnd Hrin].
  set (dbg0 := dset (dset [] "pick_phrase" (of_opt_str pp))
                    "place_phrase" (of_opt_str lp)).
  (* the pick phrase *)
  assert (Hpick : exists pk0 d1,
    match pe with
    | Some e =>
        bind (P.best_uid_for uids cands e)
             (fun x => let '(u, s) := x in
                       Ok (Some u, dset dbg0 "pick_score" (VFloat s)))
    | None => Ok (None, dbg0)
    end = Ok (pk0, d1) /\
    P.is_none pk0 = negb ip /\
    (forall u, pk0 = Some u -> In u uids)).
  { destruct pe as [e |].
    - destruct (best_uid_for_ok uids cands e Hcne Hcands)
        as (u & s & k & E & Hu & _).
      rewrite E. simpl. eexists _, _. split; [reflexivity |].
      split; [exact Hpe |]. now intros ? [= <-].
    - eexists _, _. split; [reflexivity |]. split; [exact Hpe |]. discriminate. }
  destruct Hpick as (pk0 & d1 & -> & Hpk0 & Hpk0in). cbn [bind].
  (* the place phrase *)
  assert (Hplace : exists pl0 d2,
    match le with
    | Some e =>
        bind (P.best_uid_for uids cands e)
             (fun x => let '(u, s) := x in
                       Ok (Some u, dset d1 "place_score" (VFloat s)))
    | None => Ok (None, d1)
    end = Ok (pl0, d2) /\
    P.is_none pl0 = negb il /\
    (forall u, pl0 = Some u -> In u uids)).
  { destruct le as [e |].
    - destruct (best_uid_for_ok uids cands e Hcne Hcands)
        as (u & s & k & E & Hu & _).
      rewrite E. simpl. eexists _, _. split; [reflexivity |].
      split; [exact Hle |]. now intros ? [= <-].
    - eexists _, _. split; [reflexivity |]. split; [exact Hle |]. discriminate. }
  destruct Hplace as (pl0 & d2 & -> & Hpl0 & Hpl0in). cbn [bind].
  rewrite fallback_eq. cbn [bind].
  set (R := keys (ranking ue cands uids)) in *. clearbody R.
  (* the ranking has one key per object *)
  assert (HR0 : exists r0, hd_error R = Some r0 /\ In r0 uids).
  { destruct R as [| r0 R'] eqn:ER.
    - destruct uids as [| u uids']; [congruence |].
      exfalso. apply (proj2 (Hrin u)). now left.
    - exists r0. split; [reflexivity |]. apply Hrin. now left. }
  destruct HR0 as (r0 & Hr0 & Hr0in).
  assert (HR1 : NoDup (map fst objects) -> (1 < List.length objects)%nat ->
                exists r1, nth_error R 1 = Some r1 /\ In r1 uids /\ r1 <> r0).
  { intros Hnd Hlen2.
    destruct (two_distinct _ r0 Hnd ltac:(now rewrite length_map))
      as (y & Hy & Hyr).
    apply Hin, Hrin in Hy.
    destruct R as [| a [| b R']]; simpl in Hr0; try discriminate.
    - injection Hr0 as ->. destruct Hy as [-> | []]. congruence.
    - injection Hr0 as ->. exists b. split; [reflexivity |].
      split; [apply Hrin; simpl; auto |].
      inversion Hrnd as [| ? ? Hnotin _]; subst. intros ->.
      apply Hnotin. now left. }
  assert (HR1' : List.length objects = 1%nat -> nth_error R 1 = None).
  { intro Hone. destruct objects as [| [u m] [| ? ?]]; simpl in Hone; try lia.
    destruct R as [| a [| b R']]; try reflexivity. exfalso.
    assert (Ha : In a (a :: b :: R')) by (simpl; auto).
    assert (Hb : In b (a :: b :: R')) by (simpl; auto).
    apply Hrin, Hin in Ha. apply Hrin, Hin in Hb. simpl in Ha, Hb.
    destruct Ha as [Ha | []], Hb as [Hb | []].
    subst. inversion Hrnd as [| ? ? Hnotin _]; subst. apply Hnotin. now left. }
  assert (Hother : NoDup (map fst objects) -> (1 < List.length objects)%nat ->
                   forall pk, exists y, In y uids /\ y <> pk).
  { intros Hnd Hlen2 pk.
    destruct (two_distinct _ pk Hnd ltac:(now rewrite length_map))
      as (y & Hy & Hyr).
    exists y. split; [now apply Hin | assumption]. }
  assert (Hpl0' : P.include_place_of txt = false -> pl0 = None).
  { unfold P.include_place_of. fold lp pp il. intro E. rewrite E in Hpl0.
    destruct pl0; [discriminate | reflexivity]. }
  clear Hsplit Hemb.
  (* the same-object step, for any pick and place that reach it *)
  assert (Hfin : forall pk (pl : option Z),
            In pk uids ->
            (forall q, pl = Some q -> In q uids) ->
            (NoDup (map fst objects) -> (1 < List.length objects)%nat ->
             pl <> None) ->
            (List.length objects = 1%nat -> il = false -> pl = None) ->
            forall dbg,
            exists pk' pl' dbg',
              bind (P.resolve_same_object (List.length objects) ue cands uids
                                          (Some pk) pl dbg)
                   (fun x => let '(place_uid, debug) := x in
                      Ok {| P.pick_uid := Some pk; P.place_uid := place_uid;
                            P.debug := dset debug "uid_to_texts" (VTexts u2t) |})
              = Ok {| P.pick_uid := Some pk'; P.place_uid := pl';
                      P.debug := dbg' |} /\
              In pk' (map fst objects) /\
              (NoDup (map fst objects) -> (1 < List.length objects)%nat ->
               exists q, pl' = Some q /\ q <> pk' /\ In q (map fst objects)) /\
              (List.length objects = 1%nat -> il = false -> pl' = None)).
  { intros pk pl Hpk Hpl Hsome Hnone dbg.
    destruct (resolve_same_object_spec (List.length objects) ue cands uids
                                       pk pl dbg Hcands)
      as (pl' & dbg' & -> & HNone & HSome).
    cbn [bind]. eexists _, _, _. split; [reflexivity |].
    split; [now apply Hin |]. split.
    - intros Hnd Hlen2. destruct pl as [q |]; [| now destruct (Hsome Hnd Hlen2)].
      destruct (HSome q eq_refl) as (q' & -> & Hq'in & Hq'ne).
      exists q'. split; [reflexivity |]. split.
      + apply Hq'ne; [assumption | now apply Hother].
      + apply Hin, Hq'in, Hpl. reflexivity.
    - intros Hone Hil. apply HNone. now apply Hnone. }
  destruct pk0 as [p |], pl0 as [q |]; cbn [P.is_none orb]; rewrite ?Hr0;
    cbn [bind]; apply Hfin; auto.
  - discriminate.
  - intros q Hq. apply Hrin. eapply nth_error_In; eassumption.
  - intros Hnd Hlen2. destruct (HR1 Hnd Hlen2) as (r1 & -> & _). discriminate.
  - discriminate.
  - intros q Hq. apply Hrin. eapply nth_error_In; eassumption.
  - intros Hnd Hlen2. destruct (HR1 Hnd Hlen2) as (r1 & -> & _). discriminate.
Qed.

(** C4, as amended. [decide] returns a decision for every command and
    every set of objects (it never raises); the pick of the decision is
    [None] exactly when no object is visible or the command is blank; and
    the empty command gets the decision of pick [None], place [None] and
    an error note. *)
Theorem decide_total_pick_none_cases command objects :
  exists d,
    P.decide command objects = Ok d /\
    (P.pick_uid d = None <-> objects = [] \/ strip command = "") /\
    (exists msg,
       P.decide "" objects =
       Ok {| P.pick_uid := None; P.place_uid := None;
             P.debug := [("error", VStr msg)] |}).
Proof.
  assert (Hempty : exists msg,
             P.decide "" objects =
             Ok {| P.pick_uid := None; P.place_uid := None;
                   P.debug := [("error", VStr msg)] |}).
  { destruct objects as [| o rest].
    - eexists. apply decide_no_objects.
    - eexists. apply decide_blank; [discriminate | reflexivity]. }
  destruct objects as [| o rest] eqn:Hobj.
  - eexists. split; [apply decide_no_objects |]. split; [| exact Hempty].
    simpl. tauto.
  - rewrite <- Hobj in *.
    assert (Hne : objects <> []) by (rewrite Hobj; discriminate).
    destruct (truthy (strip command)) eqn:Htr.
    + destruct (decide_main command objects Hne Htr)
        as (pk & pl & dbg & -> & _).
      eexists. split; [reflexivity |]. split; [| exact Hempty].
      simpl. split; [discriminate |].
      intros [H | H]; [congruence |].
      rewrite H in Htr. discriminate.
    + apply truthy_false in Htr.
      rewrite (decide_blank command objects Hne Htr).
      eexists. split; [reflexivity |]. split; [| exact Hempty].
      simpl. tauto.
Qed.

(** C10. With exactly one object visible and no place phrase embedded
    (none extracted, or the one extracted equal to the pick phrase),
    [decide] returns a decision whose place is [None]; the object is the
    pick when the command is not blank. *)
Theorem fallback_single_object_no_place command u info :
  P.include_place_of (lower (strip command)) = false ->
  exists d,
    P.decide command [(u, info)] = Ok d /\
    P.place_uid d = None /\
    (strip command <> "" -> P.pick_uid d = Some u).
Proof.
  intro Hinc.
  destruct (truthy (strip command)) eqn:Htr.
  - destruct (decide_main command [(u, info)] ltac:(discriminate) Htr)
      as (pk & pl & dbg & -> & Hpk & _ & Hone).
    eexists. split; [reflexivity |]. simpl. split; [now apply Hone |].
    intros _. destruct Hpk as [<- | []]. reflexivity.
  - apply truthy_false in Htr.
    rewrite (decide_blank command [(u, info)] ltac:(discriminate) Htr).
    eexists. split; [reflexivity |]. split; [reflexivity |]. contradiction.
Qed.

(** With two or more objects visible and a command that is not blank,
    [decide] returns a pick and a place that are two different visible
    objects. *)
Theorem decide_pick_differs_from_place command objects :
  NoDup (map fst objects) -> (2 <= List.length objects)%nat ->
  strip command <> "" ->
  exists d pk pl,
    P.decide command objects = Ok d /\
    P.pick_uid d = Some pk /\ P.place_uid d = Some pl /\ pk <> pl /\
    In pk (map fst objects) /\ In pl (map fst objects).
Proof.
  intros Hnd Hlen Hcmd.
  assert (Hne : objects <> [])
    by (destruct objects; [simpl in Hlen; lia | discriminate]).
  assert (Htr : truthy (strip command) = true).
  { destruct (truthy (strip command)) eqn:E; [reflexivity |].
    apply truthy_false in E. contradiction. }
  destruct (decide_main command objects Hne Htr)
    as (pk & pl & dbg & -> & Hpk & Hmany & _).
  destruct (Hmany Hnd ltac:(lia)) as (q & -> & Hq & Hqin).
  eexists _, pk, q. simpl. repeat split; auto.
Qed.

(** On a tie the first candidate wins: the object [best_uid_for] returns
    is the one of the first candidate whose similarity is the greatest. *)
Theorem best_uid_for_first_of_the_best uids embs e u s :
  P.best_uid_for uids embs e = Ok (u, s) ->
  exists k,
    nth_error uids k = Some u /\ first_max (P.cos_row e embs) k.
Proof.
  intro H. unfold P.best_uid_for in H.
  destruct (P.cos_row e embs) as [| x l] eqn:Erow; [discriminate |].
  destruct (argmax_first_max (x :: l) ltac:(discriminate)) as (k & Hk & Hmax).
  rewrite Hk in H. cbn [bind] in H.
  unfold list_get in H at 1.
  destruct (nth_error uids k) as [u' |] eqn:Eu; [| discriminate].
  cbn [bind] in H.
  destruct (list_get (x :: l) k) as [s' |]; [| discriminate].
  cbn [bind] in H. injection H as <- <-.
  exists k. now split.
Qed.

End Claims.

(** C4, the claim as stated fails: three cubes are visible and the pick
    of the decision for the empty command is [None]. *)
Lemma pick_none_with_objects_visible :
  P.decide (EP := Encoders.one_hot) "" Scenes.three_cubes =
  Ok {| P.pick_uid := None; P.place_uid := None;
        P.debug := [("error", VStr "empty command")] |}
  /\ List.length Scenes.three_cubes = 3%nat.
Proof. split; reflexivity. Qed.

Lemma fallback_single_object_no_place_witness :
  P.include_place_of (lower (strip "pick up the red cube")) = false /\
  exists d,
    P.decide (EP := Encoders.one_hot) "pick up the red cube"
             [Scenes.cube 2 "red"] = Ok d /\
    P.place_uid d = None /\
    (strip "pick up the red cube" <> "" -> P.pick_uid d = Some 2%Z).
Proof.
  split; [reflexivity |].
  apply (fallback_single_object_no_place (EP := Encoders.one_hot)
           "pick up the red cube" 2%Z).
  reflexivity.
Defined.

Lemma decide_pick_differs_from_place_witness :
  NoDup (map fst Scenes.three_cubes) /\
  (2 <= List.length Scenes.three_cubes)%nat /\
  strip "grab the red cube and put it on the red cube" <> "" /\
  exists d pk pl,
    P.decide (EP := Encoders.constant)
             "grab the red cube and put it on the red cube"
             Scenes.three_cubes = Ok d /\
    P.pick_uid d = Some pk /\ P.place_uid d = Some pl /\ pk <> pl /\
    In pk (map fst Scenes.three_cubes) /\ In pl (map fst Scenes.three_cubes).
Proof.
  assert (Hnd : NoDup (map fst Scenes.three_cubes)).
  { repeat constructor; simpl; intuition discriminate. }
  assert (Hlen : (2 <= List.length Scenes.three_cubes)%nat) by (simpl; lia).
  assert (Hcmd : strip "grab the red cube and put it on the red cube" <> "")
    by discriminate.
  split; [exact Hnd |]. split; [exact Hlen |]. split; [exact Hcmd |].
  exact (decide_pick_differs_from_place (EP := Encoders.constant)
           "grab the red cube and put it on the red cube"
           Scenes.three_cubes Hnd Hlen Hcmd).
Defined.

End Decide.

(* ================================================================== *)
(** * [CLIPMatcher.pick_and_place_from_text] *)

Module Clip.
Import Py PyStr Spec.

Section Claims.
Context `{EP : EmbeddingProvider}.

(** Once the ground flag is set, the place branch that embeds the place
    phrase is not taken, and nothing later writes the place target. *)
Lemma ground_place text objects :
  ground_requested (lower text) ->
  let r := Sim.pick_and_place_from_text text objects in
  result_place r = Some Sim.GROUND /\
  dget (result_debug r) "place_on_ground" = Some (VBool true) /\
  dget (result_debug r) "ground_detected" = Some (VBool true) /\
  dget (result_debug r) "place_score" = None /\
  dget (result_debug r) "place_phrase" = None.
Proof.
  intros Hg r. subst r. unfold Sim.pick_and_place_from_text.
  set (txt := lower text) in *.
  assert (Hflag :
    match Sim.place_phrase_of txt with
    | Some p => if Sim.any_ground_keyword p then true
                else Sim.any_ground_keyword txt
    | None => Sim.any_ground_keyword txt
    end = true).
  { destruct Hg as [Hg | (p & Hp & Hg)].
    - rewrite Hg. destruct (Sim.place_phrase_of txt) as [p |]; [| reflexivity].
      now destruct (Sim.any_ground_keyword p).
    - rewrite Hp, Hg. reflexivity. }
  rewrite Hflag.
  destruct (Sim.build_lookup objects) as [lookup_texts cand_index_to_uid].
  destruct (truthy_opt (Sim.pick_phrase_of txt)).
  - destruct (Sim.best_uid_for _ _ (text_of (Sim.pick_phrase_of txt)) None)
      as [[u |] pick_score].
    + repeat split.
    + destruct (Sim.direct_color_match txt objects) as [[u color] |].
      * repeat split.
      * destruct (Sim.best_uid_for _ _ txt None) as [u score]. repeat split.
  - destruct (Sim.direct_color_match txt objects) as [[u color] |].
    + repeat split.
    + destruct (Sim.best_uid_for _ _ txt None) as [u score]. repeat split.
Qed.

(** C2. When a ground keyword occurs in the lowercased command or in the
    place phrase extracted from it, then for every encoder and every set
    of objects the place target returned is GROUND, the ground flag in the
    debug record is True, and the place branch did not run (it left no
    place score and no place phrase); in particular so for the command
    "pick up the red cube and place it on the ground" with a red, a green
    and a blue cube in sight. *)
Theorem ground_short_circuit text objects :
  ground_requested (lower text) ->
  (let r := Sim.pick_and_place_from_text text objects in
   result_place r = Some Sim.GROUND /\
   dget (result_debug r) "place_on_ground" = Some (VBool true) /\
   dget (result_debug r) "ground_detected" = Some (VBool true) /\
   dget (result_debug r) "place_score" = None /\
   dget (result_debug r) "place_phrase" = None) /\
  (forall red green blue : Z,
     let r := Sim.pick_and_place_from_text
                "pick up the red cube and place it on the ground"
                [ (red, Scenes.red_cube); (green, Scenes.green_cube);
                  (blue, Scenes.blue_cube) ] in
     result_place r = Some Sim.GROUND /\
     dget (result_debug r) "place_on_ground" = Some (VBool true)).
Proof.
  intro Hg. split; [now apply ground_place |].
  intros red green blue.
  pose proof (ground_place "pick up the red cube and place it on the ground"
                [ (red, Scenes.red_cube); (green, Scenes.green_cube);
                  (blue, Scenes.blue_cube) ]) as H.
  destruct H as (H1 & H2 & _); [left; reflexivity |]. now split.
Qed.

Lemma direct_color_match_first txt pre u meta post :
  Sim.contains_name txt (u, meta) = true ->
  forallb (fun o => negb (Sim.contains_name txt o)) pre = true ->
  Sim.direct_color_match txt (pre ++ (u, meta) :: post)
  = Some (u, Sim.name meta).
Proof.
  unfold Sim.contains_name. simpl. intros Hin Hpre.
  induction pre as [| [u' meta'] pre IH]; simpl in *.
  - now rewrite Hin.
  - apply andb_true_iff in Hpre. destruct Hpre as [Hhd Htl].
    apply negb_true_iff in Hhd. rewrite Hhd. now apply IH.
Qed.

(** C3, as amended. When no pick phrase is extracted from the lowercased
    command, the pick is the first visible object, in the order of the
    dict, whose name occurs in the lowercased command, for every encoder:
    the literal match comes after the embedding of the pick phrase and
    before the embedding of the whole command. *)
Theorem literal_match_in_fallback text pre u meta post :
  truthy_opt (Sim.pick_phrase_of (lower text)) = false ->
  Sim.contains_name (lower text) (u, meta) = true ->
  forallb (fun o => negb (Sim.contains_name (lower text) o)) pre = true ->
  let r := Sim.pick_and_place_from_text text (pre ++ (u, meta) :: post) in
  result_pick r = Some u /\
  dget (result_debug r) "direct_color_match" = Some (VStr (Sim.name meta)) /\
  dget (result_debug r) "pick_score" = None /\
  dget (result_debug r) "fallback_pick_score" = None.
Proof.
  intros Hphrase Hin Hpre r. subst r. unfold Sim.pick_and_place_from_text.
  set (txt := lower text) in *.
  rewrite Hphrase, (direct_color_match_first txt pre u meta post Hin Hpre).
  destruct (Sim.build_lookup _) as [lookup_texts cand_index_to_uid].
  destruct (match Sim.place_phrase_of txt with
            | Some p => if Sim.any_ground_keyword p then true
                        else Sim.any_ground_keyword txt
            | None => Sim.any_ground_keyword txt
            end).
  - repeat split.
  - destruct (truthy_opt (Sim.place_phrase_of txt) &&
              negb (opt_eqb (Sim.place_phrase_of txt) (Sim.pick_phrase_of txt))).
    + destruct (Sim.best_uid_for _ _ _ None) as [u' place_score]. repeat split.
    + repeat split.
Qed.

(** A pick phrase that is extracted and resolved by the embedding settles
    the pick: the literal match is not consulted, whatever names occur in
    the command. *)
Theorem phrase_pick_not_overridden text objects u :
  truthy_opt (Sim.pick_phrase_of (lower text)) = true ->
  fst (Sim.best_uid_for (Sim.encode_text (fst (Sim.build_lookup objects)))
                        (snd (Sim.build_lookup objects))
                        (text_of (Sim.pick_phrase_of (lower text))) None)
  = Some u ->
  let r := Sim.pick_and_place_from_text text objects in
  result_pick r = Some u /\
  dget (result_debug r) "direct_color_match" = None.
Proof.
  intros Hphrase Hbest r. subst r. unfold Sim.pick_and_place_from_text.
  set (txt := lower text) in *.
  rewrite Hphrase.
  destruct (Sim.build_lookup objects) as [lookup_texts cand_index_to_uid].
  simpl in Hbest.
  destruct (Sim.best_uid_for _ _ (text_of (Sim.pick_phrase_of txt)) None)
    as [pick pick_score].
  simpl in Hbest. subst pick.
  destruct (match Sim.place_phrase_of txt with
            | Some p => if Sim.any_ground_keyword p then true
                        else Sim.any_ground_keyword txt
            | None => Sim.any_ground_keyword txt
            end).
  - repeat split.
  - destruct (truthy_opt (Sim.place_phrase_of txt) &&
              negb (opt_eqb (Sim.place_phrase_of txt) (Sim.pick_phrase_of txt))).
    + destruct (Sim.best_uid_for _ _ _ (Some u)) as [u' place_score].
      repeat split.
    + repeat split.
Qed.

End Claims.

Lemma ground_short_circuit_witness :
  ground_requested (lower "grab the red cube and place it on the table") /\
  result_place
    (Sim.pick_and_place_from_text (EP := Encoders.one_hot)
       "grab the red cube and place it on the table" Scenes.create_scene)
  = Some Sim.GROUND.
Proof.
  assert (Hg : ground_requested
                 (lower "grab the red cube and place it on the table"))
    by (left; reflexivity).
  split; [exact Hg |].
  exact (proj1 (proj1 (ground_short_circuit (EP := Encoders.one_hot)
                         "grab the red cube and place it on the table"
                         Scenes.create_scene Hg))).
Defined.

Lemma literal_match_in_fallback_witness :
  truthy_opt (Sim.pick_phrase_of (lower "move the green cube to the red cube"))
  = false /\
  Sim.contains_name (lower "move the green cube to the red cube")
                    (3%Z, Scenes.green_cube) = true /\
  forallb (fun o => negb (Sim.contains_name
                            (lower "move the green cube to the red cube") o))
          [(4%Z, Scenes.blue_cube)] = true /\
  result_pick
    (Sim.pick_and_place_from_text (EP := Encoders.one_hot)
       "move the green cube to the red cube"
       ([(4%Z, Scenes.blue_cube)] ++ (3%Z, Scenes.green_cube)
                                  :: [(2%Z, Scenes.red_cube)]))
  = Some 3%Z.
Proof.
  split; [reflexivity |]. split; [reflexivity |]. split; [reflexivity |].
  exact (proj1 (literal_match_in_fallback (EP := Encoders.one_hot)
                  "move the green cube to the red cube"
                  [(4%Z, Scenes.blue_cube)] 3%Z Scenes.green_cube
                  [(2%Z, Scenes.red_cube)] eq_refl eq_refl eq_refl)).
Defined.

Lemma phrase_pick_not_overridden_witness :
  truthy_opt (Sim.pick_phrase_of (lower "pick up the red cube")) = true /\
  result_pick
    (Sim.pick_and_place_from_text (EP := Encoders.constant)
       "pick up the red cube"
       [(1%Z, Scenes.green_cube); (2%Z, Scenes.red_cube)])
  = Some 1%Z.
Proof.
  split; [reflexivity |].
  exact (proj1 (phrase_pick_not_overridden (EP := Encoders.constant)
                  "pick up the red cube"
                  [(1%Z, Scenes.green_cube); (2%Z, Scenes.red_cube)] 1%Z
                  eq_refl eq_refl)).
Defined.

(** C3, the claim as stated fails: "red" is the only name of a visible
    object in the command, a pick phrase is extracted, the encoder scores
    every candidate alike, and the pick is the green cube, the first one
    in the dict. *)
Lemma literal_match_does_not_outrank_phrase :
  contains "red" "pick up the red cube" = true /\
  contains "green" "pick up the red cube" = false /\
  Sim.pick_phrase_of (lower "pick up the red cube") = Some "red" /\
  result_pick
    (Sim.pick_and_place_from_text (EP := Encoders.constant)
       "pick up the red cube"
       [(1%Z, Scenes.green_cube); (2%Z, Scenes.red_cube)])
  = Some 1%Z.
Proof. repeat split. Qed.

(** C1 on [CLIPMatcher]: for the example command of [main], "put the blue
    block on the green cube", and the scene of [create_scene], pick and
    place are both the green cube (body 3). *)
Theorem clip_same_object_picked_and_placed :
  let r := Sim.pick_and_place_from_text (EP := Encoders.one_hot)
             "put the blue block on the green cube" Scenes.create_scene in
  List.length Scenes.create_scene = 3%nat /\
  Sim.pick_phrase_of (lower "put the blue block on the green cube") = None /\
  Sim.place_phrase_of (lower "put the blue block on the green cube")
  = Some "green" /\
  result_pick r = Some 3%Z /\
  result_place r = Some (Sim.PlaceObj 3).
Proof. repeat split. Qed.

End Clip.

(* ================================================================== *)
(** * [CLIPSemanticMatcher.pick_and_place_from_text] *)

Module PClipFacts.
Import Py PyStr Spec.

Section Claims.
Context `{EP : EmbeddingProvider}.

Lemma text_emb_ok t : exists e, PClip.text_emb t = Ok e.
Proof.
  unfold PClip.text_emb, list_get.
  pose proof (encode_length [t]) as H.
  destruct (encode [t]) as [| e l]; [discriminate | now exists e].
Qed.

(** With one crop, a phrase resolves to its object or to nothing. *)
Lemma best_uid_for_phrase_single u f phrase :
  PClip.best_uid_for_phrase [(u, f)] phrase = Ok (None, None) \/
  exists s, PClip.best_uid_for_phrase [(u, f)] phrase = Ok (Some u, Some s).
Proof.
  unfold PClip.best_uid_for_phrase.
  destruct phrase as [p |]; [| now left].
  destruct (truthy (strip p)); [| now left].
  destruct (text_emb_ok p) as (e & ->). right. eexists. reflexivity.
Qed.

(** With exactly one object in sight (one crop) and no place phrase
    extracted, the matcher of [p_clip.py] returns that object as pick and
    [None] as place: its fallback gives a place only to a second entry of
    the ranking. *)
Theorem clip_fallback_single_object_no_place text visible_uids u f :
  truthy_opt (PClip.place_phrase_of (strip (lower text))) = false ->
  exists dbg,
    PClip.pick_and_place_from_text text visible_uids [(u, f)]
    = Ok (Some u, None, dbg).
Proof.
  intro Hplace. unfold PClip.pick_and_place_from_text.
  set (txt := strip (lower text)) in *.
  rewrite Hplace.
  destruct (text_emb_ok txt) as (e & He).
  destruct (truthy_opt (PClip.pick_phrase_of txt)).
  - destruct (best_uid_for_phrase_single u f (PClip.pick_phrase_of txt))
      as [-> | (s & ->)]; cbn [bind]; cbn [P.is_none orb];
      rewrite He; cbn; eexists; reflexivity.
  - cbn [bind]. cbn [P.is_none orb]. rewrite He. cbn. eexists. reflexivity.
Qed.

End Claims.

Lemma clip_fallback_single_object_no_place_witness :
  truthy_opt (PClip.place_phrase_of (strip (lower "grab the red cube")))
  = false /\
  exists dbg,
    PClip.pick_and_place_from_text (EP := Encoders.one_hot)
      "grab the red cube" [2%Z] [(2%Z, "red cube")]
    = Ok (Some 2%Z, None, dbg).
Proof.
  split; [reflexivity |].
  exact (clip_fallback_single_object_no_place (EP := Encoders.one_hot)
           "grab the red cube" [2%Z] 2%Z "red cube" eq_refl).
Defined.

End PClipFacts.

(* ================================================================== *)
(** * The same-object step of [SemanticMatcher.decide] *)

Module Collision.
Import Py PyStr Spec PyFacts MatcherFacts Matcher.

Lemma dget_dset_same d k v : dget (dset d k v) k = Some v.
Proof.
  unfold dget, dset. induction d as [| [k' v'] d IH]; simpl.
  - now rewrite String.eqb_refl.
  - destruct (String.eqb k' k) eqn:E; simpl; rewrite E; [reflexivity | exact IH].
Qed.

Section Claims.
Context `{EP : EmbeddingProvider}.

(** When pick and place are the same object and more than one object is
    visible, lines 205-216 move place to another object, and no candidate
    text of any other object scores higher against the whole command than
    the score recorded for the new place. *)
Theorem resolve_same_object_takes_best_other n ue embs uids pk dbg :
  List.length uids = List.length embs -> (1 < n)%nat ->
  (exists y, In y uids /\ y <> pk) ->
  exists u s dbg',
    P.resolve_same_object n ue embs uids (Some pk) (Some pk) dbg
    = Ok (Some u, dbg') /\
    u <> pk /\
    In (u, s) (combine uids (P.cos_row ue embs)) /\
    dget dbg' "resolved_same_object" = Some (VFloat s) /\
    forall u' s', In (u', s') (combine uids (P.cos_row ue embs)) ->
                  u' <> pk -> (s' <= s)%Q.
Proof.
  intros Hlen Hn (y & Hy & Hne).
  rewrite resolve_same_object_eq by assumption.
  rewrite Z.eqb_refl. apply Nat.ltb_lt in Hn. rewrite Hn. cbn [andb].
  assert (Hsc : List.length uids = List.length (P.cos_row ue embs))
    by (unfold P.cos_row; rewrite length_map; assumption).
  destruct (In_combine_fst uids (P.cos_row ue embs) y Hsc Hy) as (sy & Hsy).
  set (scored := combine uids (P.cos_row ue embs)) in *.
  destruct (first_other_some pk (sorted_desc scored))
    as (u & s & Efo & Hu & Hin).
  { exists (y, sy). split; [| assumption].
    apply (Permutation_in _ (Permutation_sym (sorted_desc_perm _))), Hsy. }
  rewrite Efo. exists u, s. eexists. split; [reflexivity |].
  split; [assumption |]. split.
  - now apply (Permutation_in _ (sorted_desc_perm _)) in Hin.
  - split; [apply dget_dset_same |].
    intros u' s' Hin' Hne'.
    apply (first_other_best pk (sorted_desc scored) u s
             (sorted_desc_sorted scored) Efo u' s'); [| assumption].
    apply (Permutation_in _ (Permutation_sym (sorted_desc_perm _))), Hin'.
Qed.

End Claims.

Lemma resolve_same_object_takes_best_other_witness :
  List.length [2; 2; 3; 4]%Z = List.length ["a"; "b"; "c"; "d"] /\
  (1 < 3)%nat /\
  (exists y, In y [2; 2; 3; 4]%Z /\ y <> 2%Z) /\
  exists u s dbg',
    P.resolve_same_object (EP := Encoders.one_hot) 3 "d"
      ["a"; "b"; "c"; "d"] [2; 2; 3; 4]%Z (Some 2%Z) (Some 2%Z) []
    = Ok (Some u, dbg') /\
    u <> 2%Z /\
    In (u, s) (combine [2; 2; 3; 4]%Z
                 (P.cos_row (EP := Encoders.one_hot) "d" ["a"; "b"; "c"; "d"])) /\
    dget dbg' "resolved_same_object" = Some (VFloat s) /\
    forall u' s',
      In (u', s') (combine [2; 2; 3; 4]%Z
                     (P.cos_row (EP := Encoders.one_hot) "d"
                        ["a"; "b"; "c"; "d"])) ->
      u' <> 2%Z -> (s' <= s)%Q.
Proof.
  assert (Hy : exists y, In y [2; 2; 3; 4]%Z /\ y <> 2%Z).
  { exists 3%Z. split; [simpl; auto | discriminate]. }
  split; [reflexivity |]. split; [lia |]. split; [exact Hy |].
  exact (resolve_same_object_takes_best_other (EP := Encoders.one_hot)
           3 "d" ["a"; "b"; "c"; "d"] [2; 2; 3; 4]%Z 2%Z []
           eq_refl ltac:(lia) Hy).
Defined.

End Collision.

Module TieBreak.
Import Py Spec.

(** All candidates score alike under the constant encoder, and the first
    one, of object 2, is returned. *)
Lemma best_uid_for_first_of_the_best_witness :
  P.best_uid_for (EP := Encoders.constant) [2; 2; 3; 3]%Z [tt; tt; tt; tt] tt
  = Ok (2%Z, 1%Q) /\
  exists k,
    nth_error [2; 2; 3; 3]%Z k = Some 2%Z /\
    first_max (P.cos_row (EP := Encoders.constant) tt [tt; tt; tt; tt]) k.
Proof.
  split; [reflexivity |].
  exact (Decide.best_uid_for_first_of_the_best (EP := Encoders.constant)
           [2; 2; 3; 3]%Z [tt; tt; tt; tt] tt 2%Z 1%Q eq_refl).
Defined.

End TieBreak.

(* ================================================================== *)
(** * Token sequences *)

Module Tokens.
Import Py PyStr Spec PyFacts ActionTokenizerV2 RoundingFacts TokenizerFacts.
Import Float32Facts Discretizer.
Local Open Scope Q_scope.

(** Two tokens with the same text are on the same axis and carry the same
    integer: the axis and the integer of a token can be read back from
    its text. *)
Theorem token_text_is_unambiguous (a b : axis) (n m : Z) :
  (-5 <= n <= 5)%Z -> (-5 <= m <= 5)%Z ->
  token a n = token b m -> a = b /\ n = m.
Proof.
  intros Hn Hm H.
  assert (Hab : a = b).
  { apply (f_equal (substring 0 5)) in H. unfold token in H.
    destruct a, b; simpl in H; try reflexivity; discriminate H. }
  subst b. split; [reflexivity |].
  now apply (token_injective a).
Qed.

Section Tensors.
Context {R : Rounding}.

Lemma discretize_returns (env_size_meters env_height_meters : Q)
      (a : axis) (value : Q) :
  exists n : Z,
    discretize value (bins_of (init env_size_meters env_height_meters) a)
               (prefix_of a)
    = Ok (token a n) /\
    (-5 <= n <= 5)%Z.
Proof.
  rewrite bins_of_init.
  destruct (closest_bin_exists
              (fst (range_of env_size_meters env_height_meters a))
              (snd (range_of env_size_meters env_height_meters a))
              (rnd value)) as (k & E & Hk).
  exists (Z.of_nat k - 5)%Z. split; [now apply discretize_token | lia].
Qed.

(* The four tokens of a position and a yaw. *)
Lemma position_to_tokens_returned (env_size_meters env_height_meters : Q)
      (pos : Q * Q * Q) (rotation : Q) :
  exists nx ny nz nyaw : Z,
    position_to_tokens (init env_size_meters env_height_meters) pos rotation
    = Ok [token AxisX nx; token AxisY ny; token AxisZ nz;
          token AxisYaw nyaw] /\
    (-5 <= nx <= 5)%Z /\ (-5 <= ny <= 5)%Z /\
    (-5 <= nz <= 5)%Z /\ (-5 <= nyaw <= 5)%Z.
Proof.
  set (self := init env_size_meters env_height_meters).
  destruct pos as [[px py] pz].
  destruct (discretize_returns env_size_meters env_height_meters AxisX px)
    as (nx & Ex & Hx).
  destruct (discretize_returns env_size_meters env_height_meters AxisY py)
    as (ny & Ey & Hy).
  destruct (discretize_returns env_size_meters env_height_meters AxisZ pz)
    as (nz & Ez & Hz).
  destruct (discretize_returns env_size_meters env_height_meters AxisYaw
                               rotation) as (nw & Ew & Hw).
  exists nx, ny, nz, nw. fold self in Ex, Ey, Ez, Ew.
  split; [| exact (conj Hx (conj Hy (conj Hz Hw)))].
  unfold position_to_tokens.
  change (x_bins self) with (bins_of self AxisX).
  change (y_bins self) with (bins_of self AxisY).
  change (z_bins self) with (bins_of self AxisZ).
  change (yaw_bins self) with (bins_of self AxisYaw).
  change "POS_X"%string with (prefix_of AxisX).
  change "POS_Y"%string with (prefix_of AxisY).
  change "POS_Z"%string with (prefix_of AxisZ).
  change "ROT_YAW"%string with (prefix_of AxisYaw).
  rewrite Ex, Ey, Ez, Ew. reflexivity.
Qed.

(** A position and a yaw always give four tokens, one per axis in the
    order x, y, z, yaw, each with an integer in -5..5, and an action its
    label in upper case before them: nothing raises, whatever the
    numbers and the sizes the tokenizer was built with. *)
Theorem action_to_tokens_shape (env_size_meters env_height_meters : Q)
        (action_type : string) (pos : Q * Q * Q) (rotation : Q) :
  let self := init env_size_meters env_height_meters in
  exists nx ny nz nyaw : Z,
    position_to_tokens self pos rotation
    = Ok [token AxisX nx; token AxisY ny; token AxisZ nz;
          token AxisYaw nyaw] /\
    action_to_tokens self action_type pos rotation
    = Ok [("ACTION_" ++ upper action_type)%string;
          token AxisX nx; token AxisY ny; token AxisZ nz;
          token AxisYaw nyaw] /\
    (-5 <= nx <= 5)%Z /\ (-5 <= ny <= 5)%Z /\
    (-5 <= nz <= 5)%Z /\ (-5 <= nyaw <= 5)%Z.
Proof.
  intro self.
  destruct (position_to_tokens_returned env_size_meters env_height_meters
                                        pos rotation)
    as (nx & ny & nz & nw & Hpos & Hn).
  exists nx, ny, nz, nw. fold self in Hpos.
  split; [exact Hpos |].
  split; [| exact Hn].
  unfold action_to_tokens. rewrite Hpos. reflexivity.
Qed.
End Tensors.

Section Rounded.
Context {R : Rounding}.
Hypothesis laws : rounding_laws R.

Section Configured.
Variables env_size_meters env_height_meters : Q.
Hypothesis size_positive : 0 < env_size_meters.
Hypothesis height_positive : 0 < env_height_meters.

Local Abbreviation self := (init env_size_meters env_height_meters).
Local Abbreviation lo a := (fst (range_of env_size_meters env_height_meters a)).
Local Abbreviation hi a := (snd (range_of env_size_meters env_height_meters a)).

(** Some bin is within half a bin width of a value in the range. *)
Lemma nearest_index (l h v : Q) :
  l < h -> l <= v -> v <= h ->
  exists j, (j <= 10)%nat /\
    Qabs (l + inject_Z (Z.of_nat j) * ((h - l) / inject_Z (Z.of_nat (11 - 1)))
          - v)
    <= (1 # 2) * ((h - l) / inject_Z (Z.of_nat (11 - 1))).
Proof.
  intros Hlh Hl Hh.
  pose proof (step_pos l h Hlh) as Hs. pose proof (step_ten l h) as Ht.
  set (s := (h - l) / inject_Z (Z.of_nat (11 - 1))) in *.
  set (t := (v - l) / s).
  assert (Hts : t * s == v - l) by (unfold t; field; lra).
  assert (Ht0 : 0 <= t).
  { unfold t. apply Qle_shift_div_l; lra. }
  assert (Ht10 : t <= 10).
  { unfold t. apply Qle_shift_div_r; lra. }
  pose proof (Float32Facts.rne_monotone _ _ Ht0) as H0.
  pose proof (Float32Facts.rne_monotone _ _ Ht10) as H10.
  change 0 with (inject_Z 0) in H0. change 10 with (inject_Z 10) in H10.
  rewrite Float32Facts.rne_Z in H0, H10.
  pose proof (Float32Facts.rne_error t) as He.
  set (m := Float32.rne t) in *.
  exists (Z.to_nat m). split; [lia |].
  rewrite Z2Nat.id by assumption.
  apply Qabs_Qle_condition in He. destruct He as [He1 He2].
  assert (P1 : 0 <= (inject_Z m - t + (1 # 2)) * s)
    by (apply Qmult_le_0_compat; lra).
  assert (P2 : 0 <= ((1 # 2) - (inject_Z m - t)) * s)
    by (apply Qmult_le_0_compat; lra).
  apply Qabs_Qle_condition. split; lra.
Qed.

End Configured.
End Rounded.

Lemma token_text_is_unambiguous_witness :
  (-5 <= 2 <= 5)%Z /\ (AxisX = AxisX /\ 2%Z = 2%Z).
Proof.
  split; [lia |].
  apply (token_text_is_unambiguous AxisX AxisX 2 2); [lia | lia | reflexivity].
Defined.


End Tokens.

(* ================================================================== *)
(** * The gripper along a stream of actions *)

Module Gripper.
Import ActionExecutor Streams.
Local Open Scope list_scope.

Lemma calm_nth l : forall prev, calm prev l ->
  forall i a b, nth_error l i = Some a -> nth_error l (S i) = Some b ->
                gripper a = gripper b \/ position a = position b.
Proof.
  induction l as [| x l IH]; intros prev Hc i a b Ha Hb.
  - destruct i; discriminate.
  - destruct Hc as [_ Hc]. destruct i as [| i].
    + injection Ha as <-. destruct l as [| y l']; [discriminate |].
      injection Hb as <-. exact (proj1 Hc).
    + exact (IH x Hc i a b Ha Hb).
Qed.

Lemma gripper_vec flag pos rot grip : gripper (vec flag pos rot grip) = grip.
Proof. destruct pos as [[x y] z], rot as [[r p] w]. reflexivity. Qed.

Lemma position_vec flag pos rot grip : position (vec flag pos rot grip) = pos.
Proof. destruct pos as [[x y] z], rot as [[r p] w]. reflexivity. Qed.

(** The vectors of an alternating history are calm, also after a vector
    whose gripper is in the state the history starts from. *)
Lemma stream_calm history : forall self holding prev,
  alternating holding history = true ->
  gripper prev = (if holding then 0 else 1)%Z ->
  calm prev (stream self history).
Proof.
  induction history as [| c rest IH]; intros self holding prev Halt Hprev.
  - exact I.
  - destruct c as [pos is_final | pos is_final]; simpl in Halt;
      apply andb_true_iff in Halt; destruct Halt as [Hh Halt];
      destruct holding; try discriminate; simpl.
    + split; [left; now rewrite gripper_vec |].
      split; [left; now rewrite !gripper_vec |].
      split; [right; now rewrite !position_vec |].
      split; [left; now rewrite !gripper_vec |].
      apply (IH _ true); [assumption | apply gripper_vec].
    + split; [left; now rewrite gripper_vec |].
      split; [left; now rewrite !gripper_vec |].
      split; [right; now rewrite !position_vec |].
      split; [left; now rewrite !gripper_vec |].
      split; [left; now rewrite !gripper_vec |].
      apply (IH _ false); [assumption | apply gripper_vec].
Qed.

(** When picks and places take turns, starting with a pick, the gripper
    never changes state between two vectors at different positions: it
    closes and opens only while the arm stays where it is. *)
Theorem gripper_changes_only_at_rest history i a b :
  alternating false history = true ->
  nth_error (stream init history) i = Some a ->
  nth_error (stream init history) (S i) = Some b ->
  gripper a <> gripper b -> position a = position b.
Proof.
  intros Halt Ha Hb Hne.
  destruct (stream init history) as [| x l] eqn:E; [destruct i; discriminate |].
  assert (Hc : calm x (x :: l)).
  { rewrite <- E. apply (stream_calm history init false x Halt).
    destruct history as [| c rest]; [discriminate |].
    destruct c; simpl in Halt, E; [| discriminate].
    injection E as <- _. apply gripper_vec. }
  destruct (calm_nth _ _ Hc i a b Ha Hb); [contradiction | assumption].
Qed.

Lemma gripper_changes_only_at_rest_witness :
  alternating false [CallPick (1, 2, 3)%Q false; CallPlace (4, 5, 6)%Q true]
  = true /\
  position (vec 0 (1, 2, 3)%Q (0, 0, 0)%Q 1)
  = position (vec 0 (1, 2, 3)%Q (0, 0, 0)%Q 0).
Proof.
  split; [reflexivity |].
  apply (gripper_changes_only_at_rest
           [CallPick (1, 2, 3)%Q false; CallPlace (4, 5, 6)%Q true] 1);
    [reflexivity | reflexivity | reflexivity | discriminate].
Defined.

Lemma stream_nonempty history self : history <> [] -> stream self history <> [].
Proof.
  destruct history as [| c rest]; [congruence |]. intros _.
  destruct c; discriminate.
Qed.

(** Two picks in a row break it: the second pick starts with the gripper
    open, above the new position, right after the lift of the first with
    the gripper closed. *)
Lemma gripper_opens_in_flight_between_two_picks pos1 pos2 f1 f2 :
  exists a b,
    nth_error (stream init [CallPick pos1 f1; CallPick pos2 f2]) 3 = Some a /\
    nth_error (stream init [CallPick pos1 f1; CallPick pos2 f2]) 4 = Some b /\
    gripper a = 0%Z /\ gripper b = 1%Z /\
    position a = above pos1 /\ position b = above pos2.
Proof.
  destruct pos1 as [[x1 y1] z1], pos2 as [[x2 y2] z2].
  eexists _, _. repeat split.
Qed.

Lemma last_append {A : Type} (l1 l2 : list A) d :
  l2 <> [] -> last (l1 ++ l2) d = last l2 d.
Proof.
  intro Hne. induction l1 as [| x l1 IH]; [reflexivity |].
  simpl. destruct (l1 ++ l2) eqn:E; [| exact IH].
  apply app_eq_nil in E. destruct E. congruence.
Qed.

(** After any calls, the gripper state the executor remembers is the one
    of the last vector it generated. *)
Theorem gripper_open_is_last_vector history d :
  history <> [] ->
  gripper (last (stream init history) d)
  = gripper_open (after history init).
Proof.
  generalize init. induction history as [| c rest IH]; [congruence |].
  intros self _. simpl.
  destruct rest as [| c' rest'].
  - simpl. rewrite app_nil_r. destruct c; simpl; now rewrite gripper_vec.
  - rewrite last_append by (apply stream_nonempty; discriminate).
    unfold after in *. simpl in *.
    apply IH. discriminate.
Qed.

Lemma gripper_open_is_last_vector_witness :
  [CallPick (1, 2, 3)%Q false] <> [] /\
  gripper (vec 0 (above (1, 2, 3)%Q) (0, 0, 0)%Q 0)
  = gripper_open (after [CallPick (1, 2, 3)%Q false] init).
Proof.
  split; [discriminate |].
  apply (gripper_open_is_last_vector [CallPick (1, 2, 3)%Q false]
           (vec 0 (0, 0, 0)%Q (0, 0, 0)%Q 0)).
  discriminate.
Defined.

End Gripper.

(* ================================================================== *)
(** * The object database *)

Module Database.
Import Py PyStr Spec ObjectDatabase.

Lemma get_set_same {V : Type} (d : dict string V) k v :
  get String.eqb (set String.eqb d k v) k = Some v.
Proof.
  induction d as [| [k' v'] d IH]; simpl.
  - now rewrite String.eqb_refl.
  - destruct (String.eqb k' k) eqn:E; simpl; rewrite E; [reflexivity | exact IH].
Qed.

Lemma get_set_other {V : Type} (d : dict string V) k v k' :
  k <> k' -> get String.eqb (set String.eqb d k v) k' = get String.eqb d k'.
Proof.
  intro Hne. induction d as [| [k0 v0] d IH]; simpl.
  - destruct (String.eqb k k') eqn:E; [| reflexivity].
    apply String.eqb_eq in E. contradiction.
  - destruct (String.eqb k0 k) eqn:E; simpl.
    + apply String.eqb_eq in E. subst k0.
      destruct (String.eqb k k') eqn:E'; [| reflexivity].
      apply String.eqb_eq in E'. contradiction.
    + destruct (String.eqb k0 k'); [reflexivity | exact IH].
Qed.

Lemma In_set {V : Type} (d : dict string V) k v x :
  In x (set String.eqb d k v) -> In x d \/ x = (k, v).
Proof.
  induction d as [| [k' v'] d IH]; simpl.
  - intros [<- | []]. now right.
  - destruct (String.eqb k' k) eqn:E; simpl.
    + apply String.eqb_eq in E. subst k'. intros [<- | H]; auto.
    + intros [<- | H]; auto. destruct (IH H); auto.
Qed.

Lemma keys_set_string {V : Type} (d : dict string V) k v x :
  In x (keys (set String.eqb d k v)) <-> In x (keys d) \/ x = k.
Proof.
  unfold keys. induction d as [| [k' v'] d IH]; simpl.
  - intuition.
  - destruct (String.eqb k' k) eqn:E; simpl.
    + apply String.eqb_eq in E. subst k'. intuition.
    + rewrite IH. intuition.
Qed.

Lemma set_fresh {V : Type} (d : dict string V) k v :
  ~ In k (keys d) -> set String.eqb d k v = (d ++ [(k, v)])%list.
Proof.
  unfold keys. induction d as [| [k' v'] d IH]; simpl; intro Hn.
  - reflexivity.
  - destruct (String.eqb k' k) eqn:E.
    + apply String.eqb_eq in E. subst k'. exfalso. apply Hn. now left.
    + rewrite IH; [reflexivity |]. intro H. apply Hn. now right.
Qed.

Lemma find_in_some q items d :
  find_in q items = Some d ->
  exists k, In (k, d) items /\ name_matches q k = true.
Proof.
  induction items as [| [k e] items IH]; simpl; [discriminate |].
  destruct (name_matches q k) eqn:E.
  - intros [= <-]. exists k. split; [now left | assumption].
  - intro H. destruct (IH H) as (k' & Hin & Hm).
    exists k'. split; [now right | assumption].
Qed.

Lemma find_in_none q items :
  find_in q items = None <->
  forall k, In k (keys items) -> name_matches q k = false.
Proof.
  unfold keys. induction items as [| [k e] items IH]; simpl.
  - split; [intros _ k [] | reflexivity].
  - destruct (name_matches q k) eqn:E.
    + split; [discriminate |]. intro H. specialize (H k (or_introl eq_refl)).
      congruence.
    + rewrite IH. split.
      * intros H k' [<- | Hin]; [assumption | now apply H].
      * intros H k' Hin. apply H. now right.
Qed.

Lemma find_append {A : Type} (f : A -> bool) (l1 l2 : list A) :
  find f (l1 ++ l2)
  = match find f l1 with Some x => Some x | None => find f l2 end.
Proof.
  induction l1 as [| x l1 IH]; [reflexivity |].
  simpl. now destruct (f x).
Qed.

Section PyBullet.
Variable getBasePositionAndOrientation : Z -> (Q * Q * Q) * (Q * Q * Q * Q).
Variable getEulerFromQuaternion : Q * Q * Q * Q -> Q * Q * Q.

Local Abbreviation entry_at :=
  (entry_of getBasePositionAndOrientation getEulerFromQuaternion).
Local Abbreviation update :=
  (update_from_pybullet getBasePositionAndOrientation getEulerFromQuaternion).
Local Abbreviation store :=
  (fun objects (item : Z * Sim.ObjectMeta) =>
     set String.eqb objects (Sim.name (snd item)) (entry_at item)).

Lemma entry_of_fields item :
  uid (entry_at item) = fst item /\ meta (entry_at item) = snd item /\
  pos (entry_at item) = fst (getBasePositionAndOrientation (fst item)) /\
  type (entry_at item) = "item".
Proof.
  destruct item as [u m]. unfold entry_of. simpl.
  destruct (getBasePositionAndOrientation u) as [p o]. now repeat split.
Qed.

Lemma stored_get cubes : forall acc n,
  get String.eqb (fold_left store cubes acc) n
  = match find (fun c => String.eqb (Sim.name (snd c)) n) (rev cubes) with
    | Some c => Some (entry_at c)
    | None => get String.eqb acc n
    end.
Proof.
  induction cubes as [| c cubes IH]; intros acc n; [reflexivity |].
  simpl. rewrite IH. rewrite find_append.
  destruct (find _ (rev cubes)) as [c' |]; [reflexivity |].
  simpl. destruct (String.eqb (Sim.name (snd c)) n) eqn:E.
  - apply String.eqb_eq in E. subst n. apply get_set_same.
  - apply get_set_other. intro H. rewrite H, String.eqb_refl in E.
    discriminate.
Qed.

Lemma stored_In cubes : forall acc x,
  In x (fold_left store cubes acc) ->
  In x acc \/ exists c, In c cubes /\ x = (Sim.name (snd c), entry_at c).
Proof.
  induction cubes as [| c cubes IH]; intros acc x H; [now left |].
  simpl in H. apply IH in H. destruct H as [H | (c' & Hc' & ->)].
  - apply In_set in H. destruct H as [H | ->]; [now left |].
    right. exists c. split; [now left | reflexivity].
  - right. exists c'. split; [now right | reflexivity].
Qed.

Lemma stored_keys cubes : forall acc k,
  In k (keys (fold_left store cubes acc)) <->
  In k (keys acc) \/ In k (map (fun c => Sim.name (snd c)) cubes).
Proof.
  induction cubes as [| c cubes IH]; intros acc k; simpl; [tauto |].
  rewrite IH, keys_set_string. intuition.
Qed.

Lemma stored_distinct cubes : forall acc,
  NoDup (keys acc ++ map (fun c => Sim.name (snd c)) cubes) ->
  fold_left store cubes acc
  = (acc ++ map (fun c => (Sim.name (snd c), entry_at c)) cubes)%list.
Proof.
  induction cubes as [| c cubes IH]; intros acc Hnd; simpl.
  - now rewrite app_nil_r.
  - assert (Hfresh : ~ In (Sim.name (snd c)) (keys acc)).
    { intro H. apply NoDup_remove_2 in Hnd. apply Hnd.
      apply in_or_app. now left. }
    rewrite set_fresh by assumption.
    rewrite IH.
    + now rewrite <- app_assoc.
    + unfold keys in *. rewrite map_app, <- app_assoc. exact Hnd.
Qed.

(** After an update, a name is a key of the database exactly when a cube
    bears it, and its entry is the one of the last such cube: the uid,
    the metadata and the pose of that cube. Cubes of one name shadow each
    other. *)
Theorem update_then_lookup self cubes n :
  get String.eqb (objects (update self cubes)) n
  = option_map entry_at
      (find (fun c => String.eqb (Sim.name (snd c)) n) (rev cubes)).
Proof.
  unfold update_from_pybullet. simpl. rewrite stored_get.
  now destruct (find _ (rev cubes)).
Qed.

(** After an update, [find_object] answers with the entry of a cube of
    the scene whose name contains the name asked for, letter case apart,
    and with nothing exactly when no cube has such a name; when the names
    of the cubes are distinct, the cube is the first such one. *)
Theorem find_object_after_update self cubes q :
  let db := update self cubes in
  (forall d, find_object db q = Some d ->
     exists c, In c cubes /\ d = entry_at c /\
               name_matches q (Sim.name (snd c)) = true) /\
  (find_object db q = None <->
   forall c, In c cubes -> name_matches q (Sim.name (snd c)) = false) /\
  (NoDup (map (fun c => Sim.name (snd c)) cubes) ->
   find_object db q
   = option_map entry_at
       (find (fun c => name_matches q (Sim.name (snd c))) cubes)).
Proof.
  intro db. subst db. unfold find_object, update_from_pybullet. simpl.
  split; [| split].
  - intros d H. apply find_in_some in H. destruct H as (k & Hin & Hm).
    apply stored_In in Hin. destruct Hin as [[] | (c & Hc & E)].
    injection E as -> ->. exists c. now repeat split.
  - rewrite find_in_none. split.
    + intros H c Hc. apply H. apply stored_keys. right.
      now apply (in_map (fun c => Sim.name (snd c))).
    + intros H k Hk. apply stored_keys in Hk. destruct Hk as [[] | Hk].
      apply in_map_iff in Hk. destruct Hk as (c & <- & Hc). now apply H.
  - intro Hnd. rewrite stored_distinct by exact Hnd. simpl.
    clear Hnd. induction cubes as [| c cubes IH]; [reflexivity |].
    simpl. destruct (name_matches q (Sim.name (snd c))); [reflexivity | exact IH].
Qed.

(** The empty name is contained in every name: asked for it,
    [find_object] answers with the first entry of the database, whatever
    it is. *)
Lemma find_object_empty_name db :
  find_object db "" = option_map snd (hd_error (objects db)).
Proof.
  unfold find_object. destruct (objects db) as [| [k e] rest]; [reflexivity |].
  simpl. unfold name_matches. simpl. now destruct (lower k).
Qed.
End PyBullet.

End Database.

(* ================================================================== *)
(** * [CLIPMatcher]: what is picked and where it is placed *)

Module ClipTargets.
Import Py PyStr Spec MatcherFacts.

Lemma build_lookup_acc objects : forall t0 u0 r,
  fold_left
    (fun acc (item : Z * Sim.ObjectMeta) =>
       let '(lookup_texts, cand_index_to_uid) := acc in
       let '(u, meta) := item in
       let texts := Sim.candidate_texts meta in
       ((lookup_texts ++ texts)%list,
        (cand_index_to_uid ++ map (fun _ => u) texts)%list))
    objects (t0, u0) = r ->
  List.length t0 = List.length u0 ->
  List.length (fst r) = List.length (snd r) /\
  (forall x, In x (snd r) <-> In x u0 \/ In x (map fst objects)).
Proof.
  induction objects as [| [u m] objects IH]; intros t0 u0 r E Hlen.
  - simpl in E. subst r. simpl. split; [assumption | tauto].
  - simpl in E. apply IH in E.
    + destruct E as [E1 E2]. split; [assumption |].
      intro x. rewrite E2. rewrite in_app_iff. simpl. intuition.
    + rewrite !length_app. simpl. lia.
Qed.

Lemma build_lookup_spec objects texts idx :
  Sim.build_lookup objects = (texts, idx) ->
  List.length texts = List.length idx /\
  (forall x, In x idx <-> In x (map fst objects)).
Proof.
  intro E. unfold Sim.build_lookup in E.
  apply build_lookup_acc in E; [| reflexivity].
  simpl in E. destruct E as [E1 E2]. split; [assumption |].
  intro x. rewrite E2. simpl. tauto.
Qed.

Lemma elementwise_max_length (r : list Q) rest :
  Forall (fun r' => List.length r' = List.length r) rest ->
  List.length (Sim.elementwise_max (r :: rest)) = List.length r.
Proof.
  simpl. revert r. induction rest as [| r' rest IH]; intros r H; [reflexivity |].
  simpl. inversion H as [| ? ? Hr' Hrest]; subst.
  rewrite IH.
  - rewrite length_map, length_combine. lia.
  - rewrite length_map, length_combine.
    eapply Forall_impl; [| exact Hrest]. simpl. intros a Ha. lia.
Qed.

Lemma max_by_score_In (best : Z * Q) l :
  In (max_by_score best l) (best :: l).
Proof.
  revert best. induction l as [| x l IH]; intro best; simpl; [now left |].
  destruct (Qltb (snd best) (snd x)).
  - destruct (IH x) as [H | H]; [right; left; exact H | right; right; exact H].
  - destruct (IH best) as [H | H]; [left; exact H | right; right; exact H].
Qed.

(** The keys of the pooled scores: the uids that have a score and are not
    excluded. *)
Lemma clip_pool_scores_acc ex (l : list (Z * Q)) : forall (acc : dict Z Q) x,
  In x (keys (fold_left
                (fun (uid_scores : dict Z Q) (us : Z * Q) =>
                   let '(u, score) := us in
                   if Sim.excluded ex u then uid_scores
                   else set Z.eqb uid_scores u
                            (max2 (get_default Z.eqb uid_scores u (-1)%Q) score))
                l acc)) <->
  In x (keys acc) \/ (In x (map fst l) /\ Sim.excluded ex x = false).
Proof.
  induction l as [| [u s] l IH]; intros acc x; simpl.
  - tauto.
  - rewrite IH. destruct (Sim.excluded ex u) eqn:E.
    + split; [tauto |]. intros [H | [[<- | H] Hx]]; auto. congruence.
    + rewrite keys_set_In. split.
      * intros [[H | ->] | H]; auto. tauto.
      * intros [H | [[<- | H] Hx]]; auto.
Qed.

Lemma clip_pool_scores_keys ex idx sims x :
  List.length idx = List.length sims ->
  In x (keys (Sim.pool_scores ex idx sims)) <->
  In x idx /\ Sim.excluded ex x = false.
Proof.
  intro Hlen. unfold Sim.pool_scores. rewrite clip_pool_scores_acc.
  assert (E : map fst (combine idx sims) = idx).
  { revert sims Hlen. induction idx as [| i idx IH]; intros [| s sims] H;
      simpl in *; try reflexivity; try lia. f_equal. apply IH. lia. }
  rewrite E. simpl. tauto.
Qed.

Section Matcher.
Context `{EP : EmbeddingProvider}.

Lemma max_sims_length cf phrase :
  List.length
    (Sim.elementwise_max
       (map (fun var => Sim.compute_similarity (Sim.encode_text [var]) cf)
            (Sim.phrase_variations phrase)))
  = List.length cf.
Proof.
  assert (Hrow : forall var,
            List.length (Sim.compute_similarity (Sim.encode_text [var]) cf)
            = List.length cf).
  { intro var. unfold Sim.compute_similarity, Sim.encode_text.
    pose proof (encode_length [var]) as H.
    destruct (encode [var]) as [| q rest]; [discriminate |].
    apply length_map. }
  unfold Sim.phrase_variations. cbn [map].
  rewrite elementwise_max_length; [apply Hrow |].
  repeat constructor; now rewrite !Hrow.
Qed.

(** What [best_uid_for] answers: an object that has candidates and is not
    excluded, and nothing only when there is no such object. *)
Lemma best_uid_for_spec cf idx phrase ex :
  List.length cf = List.length idx ->
  (forall u s, Sim.best_uid_for cf idx phrase ex = (Some u, s) ->
               In u idx /\ Sim.excluded ex u = false) /\
  ((exists u, In u idx /\ Sim.excluded ex u = false) ->
   exists u s, Sim.best_uid_for cf idx phrase ex = (Some u, s)) /\
  ((forall u, In u idx -> Sim.excluded ex u = true) ->
   Sim.best_uid_for cf idx phrase ex = (None, 0%Q)).
Proof.
  intro Hlen. unfold Sim.best_uid_for.
  set (max_sims := Sim.elementwise_max _).
  assert (Hm : List.length idx = List.length max_sims).
  { unfold max_sims. rewrite max_sims_length. now symmetry. }
  pose proof (fun x => clip_pool_scores_keys ex idx max_sims x Hm) as Hkeys.
  destruct (Sim.pool_scores ex idx max_sims) as [| first rest] eqn:E.
  - split; [discriminate |]. split; [| reflexivity].
    intros (u & Hu & Hx). exfalso.
    apply (proj2 (Hkeys u)). now split.
  - split; [| split].
    + intros u s [= <- <-].
      apply Hkeys. unfold keys. apply in_map. apply max_by_score_In.
    + intros _. eexists _, _. reflexivity.
    + intro Hall. exfalso.
      destruct (proj1 (Hkeys (fst first))) as [Hin Hex]; [now left |].
      rewrite (Hall _ Hin) in Hex. discriminate.
Qed.

Lemma direct_color_match_In txt objects u c :
  Sim.direct_color_match txt objects = Some (u, c) -> In u (map fst objects).
Proof.
  induction objects as [| [u' m] objects IH]; simpl; [discriminate |].
  destruct (contains (Sim.name m) txt).
  - intros [= <- _]. now left.
  - intro H. right. now apply IH.
Qed.

(** With an object in sight the matcher always picks one of the objects
    in sight, whatever the command and the encoder. *)
Theorem pick_is_a_visible_object text objects :
  objects <> [] ->
  exists u, result_pick (Sim.pick_and_place_from_text text objects) = Some u /\
            In u (map fst objects).
Proof.
  intro Hne. unfold Sim.pick_and_place_from_text.
  set (txt := lower text).
  destruct (Sim.build_lookup objects) as [texts idx] eqn:Hbl.
  apply build_lookup_spec in Hbl. destruct Hbl as [Hlen Hidx].
  set (cf := Sim.encode_text texts).
  assert (Hcf : List.length cf = List.length idx)
    by (unfold cf, Sim.encode_text; now rewrite encode_length).
  assert (Hsome : forall phrase, exists u s,
            Sim.best_uid_for cf idx phrase None = (Some u, s) /\
            In u (map fst objects)).
  { intro phrase.
    destruct (best_uid_for_spec cf idx phrase None Hcf) as (Hin & Hex & _).
    destruct Hex as (u & s & E).
    - destruct objects as [| [u m] rest]; [congruence |].
      exists u. split; [apply Hidx; now left | reflexivity].
    - exists u, s. split; [assumption |]. apply Hidx. now apply (Hin u s). }
  set (place_flag := match Sim.place_phrase_of txt with
                     | Some p => if Sim.any_ground_keyword p then true
                                 else Sim.any_ground_keyword txt
                     | None => Sim.any_ground_keyword txt
                     end).
  destruct (truthy_opt (Sim.pick_phrase_of txt)).
  - destruct (Hsome (text_of (Sim.pick_phrase_of txt))) as (u & s & E & Hu).
    rewrite E. exists u. split; [| assumption].
    destruct place_flag; [reflexivity |].
    destruct (truthy_opt (Sim.place_phrase_of txt) &&
              negb (opt_eqb (Sim.place_phrase_of txt) (Sim.pick_phrase_of txt))).
    + destruct (Sim.best_uid_for cf idx _ (Some u)). reflexivity.
    + reflexivity.
  - destruct place_flag;
      [| destruct (truthy_opt (Sim.place_phrase_of txt) &&
                   negb (opt_eqb (Sim.place_phrase_of txt)
                                 (Sim.pick_phrase_of txt)));
         [destruct (Sim.best_uid_for cf idx
                      (text_of (Sim.place_phrase_of txt)) None) as [q qs] |]];
      (destruct (Sim.direct_color_match txt objects) as [[u c] |] eqn:Ed;
       [ exists u; split; [reflexivity | now apply direct_color_match_In in Ed]
       | destruct (Hsome txt) as (u & s & E & Hu); rewrite E;
         exists u; split; [reflexivity | assumption] ]).
Qed.

(** When the pick comes from a pick phrase and is not body 0, the place
    target is never the object picked: it is the ground, nothing, or
    another object in sight. *)
Theorem place_is_not_the_phrase_pick text objects u :
  truthy_opt (Sim.pick_phrase_of (lower text)) = true ->
  result_pick (Sim.pick_and_place_from_text text objects) = Some u ->
  u <> 0%Z ->
  result_place (Sim.pick_and_place_from_text text objects)
  <> Some (Sim.PlaceObj u) /\
  (forall q, result_place (Sim.pick_and_place_from_text text objects)
             = Some (Sim.PlaceObj q) -> In q (map fst objects)).
Proof.
  intros Hphrase. unfold Sim.pick_and_place_from_text.
  set (txt := lower text) in *. rewrite Hphrase.
  destruct (Sim.build_lookup objects) as [texts idx] eqn:Hbl.
  apply build_lookup_spec in Hbl. destruct Hbl as [Hlen Hidx].
  set (cf := Sim.encode_text texts).
  assert (Hcf : List.length cf = List.length idx)
    by (unfold cf, Sim.encode_text; now rewrite encode_length).
  set (place_flag := match Sim.place_phrase_of txt with
                     | Some p => if Sim.any_ground_keyword p then true
                                 else Sim.any_ground_keyword txt
                     | None => Sim.any_ground_keyword txt
                     end).
  destruct (Sim.best_uid_for cf idx (text_of (Sim.pick_phrase_of txt)) None)
    as [[p0 |] s0] eqn:Epick.
  - (* the phrase is resolved *)
    assert (Hplace : forall q s,
              Sim.best_uid_for cf idx (text_of (Sim.place_phrase_of txt))
                               (Some p0) = (Some q, s) ->
              p0 <> 0%Z -> q <> p0 /\ In q (map fst objects)).
    { intros q s E Hp0.
      destruct (best_uid_for_spec cf idx (text_of (Sim.place_phrase_of txt))
                                  (Some p0) Hcf) as (Hin & _).
      destruct (Hin q s E) as [Hq Hex]. split; [| now apply Hidx].
      unfold Sim.excluded in Hex. intros ->.
      rewrite Z.eqb_refl, andb_true_r in Hex.
      apply negb_false_iff, Z.eqb_eq in Hex. contradiction. }
    destruct place_flag.
    + intros [= <-] Hu. split; [discriminate | intros q; discriminate].
    + destruct (truthy_opt (Sim.place_phrase_of txt) &&
                negb (opt_eqb (Sim.place_phrase_of txt) (Sim.pick_phrase_of txt))).
      * destruct (Sim.best_uid_for cf idx (text_of (Sim.place_phrase_of txt))
                                   (Some p0)) as [[q |] s] eqn:Eplace.
        -- intros [= <-] Hu. destruct (Hplace q s eq_refl Hu) as [Hq Hqin].
           split; [intros [= ->]; congruence | now intros ? [= <-]].
        -- intros [= <-] Hu. split; [discriminate | intros q; discriminate].
      * intros [= <-] Hu. split; [discriminate | intros q; discriminate].
  - (* no object has a candidate: nothing is placed either *)
    assert (Hnone : forall phrase ex,
              Sim.best_uid_for cf idx phrase ex = (None, 0%Q)).
    { intros phrase ex.
      destruct (best_uid_for_spec cf idx phrase ex Hcf) as (_ & _ & Hall).
      apply Hall. intros x Hx. exfalso.
      destruct (best_uid_for_spec cf idx (text_of (Sim.pick_phrase_of txt))
                                  None Hcf) as (_ & Hex & _).
      destruct Hex as (u' & s' & E); [exists x; now split |]. congruence. }
    destruct place_flag;
      [| destruct (truthy_opt (Sim.place_phrase_of txt) &&
                   negb (opt_eqb (Sim.place_phrase_of txt)
                                 (Sim.pick_phrase_of txt)));
         [rewrite Hnone |]];
      (destruct (Sim.direct_color_match txt objects) as [[u' c] |];
       [| rewrite Hnone]; intros _ _;
       (split; [discriminate | intros q; discriminate])).
Qed.
End Matcher.

Lemma pick_is_a_visible_object_witness :
  Scenes.create_scene <> [] /\
  exists u,
    result_pick (Sim.pick_and_place_from_text (EP := Encoders.one_hot)
                   "put the blue block on the green cube" Scenes.create_scene)
    = Some u /\ In u (map fst Scenes.create_scene).
Proof.
  split; [discriminate |].
  apply (pick_is_a_visible_object (EP := Encoders.one_hot)). discriminate.
Defined.

Lemma place_is_not_the_phrase_pick_witness :
  truthy_opt (Sim.pick_phrase_of
                (lower "grab the red cube and put it on the blue cube")) = true /\
  result_pick (Sim.pick_and_place_from_text (EP := Encoders.one_hot)
                 "grab the red cube and put it on the blue cube"
                 Scenes.create_scene) = Some 2%Z /\
  result_place (Sim.pick_and_place_from_text (EP := Encoders.one_hot)
                  "grab the red cube and put it on the blue cube"
                  Scenes.create_scene) <> Some (Sim.PlaceObj 2).
Proof.
  split; [reflexivity |]. split; [reflexivity |].
  apply (place_is_not_the_phrase_pick (EP := Encoders.one_hot)
           "grab the red cube and put it on the blue cube"
           Scenes.create_scene 2%Z); [reflexivity | reflexivity | discriminate].
Defined.

End ClipTargets.

(* ================================================================== *)
(** * [decide] with one object in sight *)

Module SingleObject.
Import Py PyStr Spec PyFacts MatcherFacts Matcher.

Section Claims.
Context `{EP : EmbeddingProvider}.

Lemma all_equal_NoDup (l : list Z) (u : Z) :
  NoDup l -> (forall x, In x l <-> x = u) -> l = [u].
Proof.
  intros Hnd Hall. destruct l as [| a l].
  - exfalso. apply (proj2 (Hall u) eq_refl).
  - assert (a = u) by (apply Hall; now left). subst a.
    destruct l as [| b l]; [reflexivity |].
    assert (b = u) by (apply Hall; right; now left). subst b.
    inversion Hnd as [| ? ? Hnotin _]. exfalso. apply Hnotin. now left.
Qed.

(** With one object in sight and a command that is not blank, [decide]
    picks that object, and names the same object as the place target
    exactly when it embedded a place phrase: alone in sight, the object
    is to be placed on itself. *)
Theorem decide_single_object command u meta :
  truthy (strip command) = true ->
  exists dbg,
    P.decide command [(u, meta)]
    = Ok {| P.pick_uid := Some u;
            P.place_uid :=
              if P.include_place_of (lower (strip command)) then Some u
              else None;
            P.debug := dbg |}.
Proof.
  intro Htr. unfold P.decide. rewrite Htr. cbn [negb].
  set (txt := lower (strip command)).
  set (objects := [(u, meta)]).
  destruct (P.build_candidates objects) as [[texts uids] u2t] eqn:Hbc.
  apply build_candidates_spec in Hbc. destruct Hbc as [Huids Hlen].
  assert (Hu : uids = [u; u; u; u]) by (rewrite Huids; reflexivity).
  unfold P.include_place_of. fold txt.
  set (pp := P.pick_phrase_of txt).
  set (lp := P.place_phrase_of txt).
  set (ip := truthy_opt pp).
  set (il := truthy_opt lp && negb (opt_eqb lp pp)).
  match goal with |- context [encode ?t] => set (tte := t) end.
  assert (Hemb : List.length (encode tte) =
                 (1 + (if ip then 1 else 0) + (if il then 1 else 0)
                  + List.length uids)%nat).
  { rewrite encode_length. unfold tte. rewrite !length_app. simpl.
    destruct ip, il; simpl; lia. }
  destruct (split_embeddings_ok _ _ _ _ Hemb)
    as (ue & pe & le & cands & Hsplit & Hcands & Hpe & Hle).
  rewrite Hsplit. cbn [bind].
  destruct cands as [| c cands'] eqn:Hc; [rewrite Hu in Hcands; discriminate |].
  rewrite <- Hc in *.
  assert (Hcne : cands <> []) by (rewrite Hc; discriminate).
  clear Hc c cands'. symmetry in Hcands.
  assert (Hbest : forall e, exists s,
            P.best_uid_for uids cands e = Ok (u, s)).
  { intro e. destruct (best_uid_for_ok uids cands e Hcne Hcands)
      as (u' & s & k & E & Hin & _).
    exists s. rewrite E. rewrite Hu in Hin. simpl in Hin.
    now destruct Hin as [<- | [<- | [<- | [<- | []]]]]. }
  destruct (ranking_keys ue cands uids Hcands) as [Hrnd Hrin].
  assert (HR : keys (ranking ue cands uids) = [u]).
  { apply all_equal_NoDup; [assumption |]. intro x. rewrite Hrin, Hu.
    simpl. intuition. }
  assert (Hsame : forall pl dbg,
            P.resolve_same_object (List.length objects) ue cands uids
                                  (Some u) pl dbg = Ok (pl, dbg)).
  { intros [q |] dbg; simpl; [| reflexivity].
    now rewrite andb_false_r. }
  destruct pe as [e1 |], le as [e2 |]; simpl in Hpe, Hle;
    try (destruct (Hbest e1) as (s1 & ->));
    try (destruct (Hbest e2) as (s2 & ->));
    cbn [bind]; rewrite fallback_eq; cbn [P.is_none orb bind];
    rewrite ?HR; cbn [hd_error nth_error]; rewrite Hsame; cbn [bind];
    destruct il; try discriminate; eexists; reflexivity.
Qed.
End Claims.

Lemma decide_single_object_witness :
  truthy (strip "pick up the red cube and place it on the blue cube") = true /\
  exists dbg,
    P.decide (EP := Encoders.one_hot)
             "pick up the red cube and place it on the blue cube"
             [Scenes.cube 2 "red"]
    = Ok {| P.pick_uid := Some 2%Z; P.place_uid := Some 2%Z;
            P.debug := dbg |}.
Proof.
  split; [reflexivity |].
  exact (decide_single_object (EP := Encoders.one_hot)
           "pick up the red cube and place it on the blue cube" 2%Z
           (snd (Scenes.cube 2 "red")) eq_refl).
Defined.

End SingleObject.

(* ================================================================== *)
(** * [CLIPSemanticMatcher] with two or more crops *)

Module ClipPairs.
Import Py PyStr Spec PyFacts MatcherFacts PClipFacts.

Lemma scores_dict_acc (l : list (Z * Q)) : forall (acc : dict Z Q),
  let r := fold_left (fun (acc : dict Z Q) (us : Z * Q) =>
                        set Z.eqb acc (fst us) (snd us)) l acc in
  (NoDup (keys acc) -> NoDup (keys r)) /\
  (forall x, In x (keys r) <-> In x (keys acc) \/ In x (map fst l)).
Proof.
  induction l as [| [u s] l IH]; intro acc; simpl.
  - split; [auto | tauto].
  - destruct (IH (set Z.eqb acc u s)) as [H1 H2]. split.
    + intro Hnd. apply H1. now apply keys_set_NoDup.
    + intro x. rewrite H2, keys_set_In. simpl. intuition (subst; auto).
Qed.

Section Claims.
Context `{EP : EmbeddingProvider}.

Lemma image_scores_keys e feats :
  map fst (PClip.image_scores e feats) = map fst feats.
Proof. unfold PClip.image_scores. rewrite map_map. reflexivity. Qed.

(** The ranking of the crops against a text: a key per crop, each once. *)
Lemma crop_ranking e feats :
  let R := sorted_desc
             (fold_left (fun (acc : dict Z Q) (us : Z * Q) =>
                           set Z.eqb acc (fst us) (snd us))
                        (PClip.image_scores e feats) []) in
  NoDup (keys R) /\ (forall x, In x (keys R) <-> In x (map fst feats)).
Proof.
  intro R.
  destruct (scores_dict_acc (PClip.image_scores e feats) []) as [H1 H2].
  simpl in H1, H2.
  assert (HP : Permutation (keys R) (keys (fold_left
                 (fun (acc : dict Z Q) (us : Z * Q) =>
                    set Z.eqb acc (fst us) (snd us))
                 (PClip.image_scores e feats) [])))
    by (unfold keys; apply Permutation_map, sorted_desc_perm).
  split.
  - eapply Permutation_NoDup; [symmetry; exact HP |]. apply H1. constructor.
  - intro x. rewrite <- image_scores_keys with (e := e). split; intro H.
    + apply (Permutation_in _ HP) in H. apply H2 in H. tauto.
    + apply (Permutation_in _ (Permutation_sym HP)). apply H2. now right.
Qed.

Lemma best_uid_for_phrase_cases feats phrase :
  feats <> [] ->
  PClip.best_uid_for_phrase feats phrase = Ok (None, None) \/
  exists u s, PClip.best_uid_for_phrase feats phrase = Ok (Some u, Some s) /\
              In u (map fst feats).
Proof.
  intro Hne. unfold PClip.best_uid_for_phrase.
  destruct phrase as [p |]; [| now left].
  destruct (truthy (strip p)); [| now left]. cbn [negb].
  destruct (text_emb_ok p) as (e & ->). cbn [bind].
  set (scored := PClip.image_scores e feats).
  assert (Hlen : List.length (map snd scored) = List.length (map fst scored))
    by now rewrite !length_map.
  destruct (map snd scored) as [| s0 sims] eqn:Es.
  { exfalso. destruct feats; [congruence | discriminate]. }
  rewrite <- Es in *.
  destruct (argmax_ok (map snd scored)) as (k & Ek & Hk);
    [rewrite Es; discriminate |].
  rewrite Ek. cbn [bind]. unfold list_get.
  destruct (nth_error (map fst scored) k) as [u |] eqn:Eu.
  2:{ apply nth_error_None in Eu. lia. }
  destruct (nth_error (map snd scored) k) as [s |] eqn:Ess.
  2:{ apply nth_error_None in Ess. lia. }
  cbn [bind]. right. exists u, s. split; [reflexivity |].
  apply nth_error_In in Eu. unfold scored in Eu.
  now rewrite image_scores_keys in Eu.
Qed.

(** With two or more crops, of distinct objects, the matcher of
    [p_clip.py] always returns a pick and a place, both objects that have
    a crop, and never the same object for both. *)
Theorem clip_picks_and_places_two_objects text visible_uids feats :
  NoDup (map fst feats) -> (1 < List.length feats)%nat ->
  exists pk pl dbg,
    PClip.pick_and_place_from_text text visible_uids feats
    = Ok (Some pk, Some pl, dbg) /\
    pk <> pl /\ In pk (map fst feats) /\ In pl (map fst feats).
Proof.
  intros Hnd Hlen. unfold PClip.pick_and_place_from_text.
  set (txt := strip (lower text)).
  destruct feats as [| f0 feats'] eqn:Ef; [simpl in Hlen; lia |].
  rewrite <- Ef in *.
  assert (Hne : feats <> []) by (rewrite Ef; discriminate).
  clear Ef f0 feats'.
  destruct (text_emb_ok txt) as (e & He).
  destruct (crop_ranking e feats) as [HRnd HRin].
  set (R := sorted_desc _) in HRnd, HRin.
  (* another object, whatever the pick *)
  assert (Hfo : forall pk, exists u s,
            PClip.first_other pk R = Some (u, s) /\ u <> pk /\
            In u (map fst feats)).
  { intro pk.
    destruct (two_distinct _ pk Hnd ltac:(now rewrite length_map))
      as (y & Hy & Hyp).
    apply HRin in Hy. unfold keys in Hy. apply in_map_iff in Hy.
    destruct Hy as (ey & <- & Hey).
    destruct (first_other_some pk R) as (u & s & E & Hu & Hin);
      [now exists ey |].
    exists u, s. split; [exact E |]. split; [exact Hu |].
    apply HRin. unfold keys. now apply (in_map fst) in Hin. }
  (* the two first entries of the ranking *)
  assert (HR2 : exists a b rest, R = a :: b :: rest /\ fst a <> fst b /\
                  In (fst a) (map fst feats) /\ In (fst b) (map fst feats)).
  { destruct R as [| a [| b rest]] eqn:ER.
    - destruct feats as [| [u f] ?]; [congruence |].
      exfalso. apply (proj2 (HRin u)). now left.
    - exfalso.
      destruct (two_distinct _ (fst a) Hnd ltac:(now rewrite length_map))
        as (y & Hy & Hya).
      apply HRin in Hy. simpl in Hy. destruct Hy as [Hy | []]. congruence.
    - exists a, b, rest. split; [reflexivity |].
      split; [| split; apply HRin; simpl; auto].
      simpl in HRnd. inversion HRnd as [| ? ? Hnotin _]. intro E.
      apply Hnotin. rewrite E. now left. }
  destruct HR2 as (a & b & rest & ER & Hab & Ha & Hb).
  assert (HR0 : list_get R 0 = Ok a) by now rewrite ER.
  assert (HR1 : list_get R 1 = Ok b) by now rewrite ER.
  assert (HL1 : (1 <=? List.length R)%nat = true) by now rewrite ER.
  assert (HL2 : (2 <=? List.length R)%nat = true) by now rewrite ER.
  destruct (truthy_opt (PClip.pick_phrase_of txt));
    [destruct (best_uid_for_phrase_cases feats (PClip.pick_phrase_of txt) Hne)
       as [-> | (p & s & -> & Hp)] |];
    cbn [bind];
    (destruct (truthy_opt (PClip.place_phrase_of txt));
     [destruct (best_uid_for_phrase_cases feats (PClip.place_phrase_of txt) Hne)
        as [-> | (q & t & -> & Hq)] |]);
    cbn [bind P.is_none orb andb]; rewrite ?He; cbn [bind]; fold R;
    rewrite ?HL1, ?HL2, ?HR0, ?HR1; cbn [bind fst snd P.is_none andb];
    match goal with
    | |- context [if (?A =? ?B)%Z then _ else _] =>
        destruct (A =? B)%Z eqn:Eq;
        [ destruct (Hfo A) as (u & s' & -> & Hu & Huin); cbn [bind];
          eexists _, _, _; split; [reflexivity |];
          split; [congruence |]; split; assumption
        | apply Z.eqb_neq in Eq; cbn [bind];
          eexists _, _, _; split; [reflexivity |];
          split; [assumption |]; split; assumption ]
    end.
Qed.
End Claims.

Lemma clip_picks_and_places_two_objects_witness :
  NoDup [2%Z; 3%Z] /\ (1 < 2)%nat /\
  exists pk pl dbg,
    PClip.pick_and_place_from_text (EP := Encoders.constant)
      "pick up the red cube" [2%Z; 3%Z] [(2%Z, tt); (3%Z, tt)]
    = Ok (Some pk, Some pl, dbg) /\ pk <> pl.
Proof.
  assert (Hnd : NoDup [2%Z; 3%Z]).
  { constructor; [simpl; intros [H | []]; discriminate |].
    constructor; [simpl; tauto | constructor]. }
  split; [exact Hnd |]. split; [lia |].
  destruct (clip_picks_and_places_two_objects (EP := Encoders.constant)
              "pick up the red cube" [2%Z; 3%Z] [(2%Z, tt); (3%Z, tt)]
              Hnd ltac:(simpl; lia)) as (pk & pl & dbg & E & Hne & _).
  exists pk, pl, dbg. now split.
Defined.

End ClipPairs.

(* ================================================================== *)
(** * The requests the servers refuse, and the demo server *)

Module Requests.
Import PyStr PyExc Http.

Lemma truthy_strip_false s : truthy s = false <-> s = ""%string.
Proof. destruct s; simpl; split; congruence. Qed.

(* Reading the command of a body that is an object with some key. *)
Lemma read_command_of_object d :
  d <> [] ->
  match find (fun kv => String.eqb (fst kv) "command") d with
  | None =>
      read_command (JObj d)
      = Got (inr (error_response "Missing 'command' in request body" 400))
  | Some (_, JStr c) =>
      read_command (JObj d)
      = if truthy (strip c) then Got (inl (strip c))
        else Got (inr (error_response "Command cannot be empty" 400))
  | Some (_, _) => read_command (JObj d) = Raised AttributeError
  end.
Proof.
  unfold read_command. intro Hne. destruct d as [| kv d]; [congruence |].
  cbn [truthy_json negb contains_key and_then getitem].
  set (l := kv :: d).
  destruct (find (fun kv => String.eqb (fst kv) "command") l)
    as [[k v] |] eqn:Ef.
  - assert (Hex : existsb (fun kv => String.eqb (fst kv) "command") l = true).
    { apply existsb_exists. exists (k, v).
      apply find_some in Ef. exact Ef. }
    rewrite Hex. cbn [negb and_then snd].
    destruct v; try reflexivity.
    cbn [strip_of and_then]. now destruct (truthy (strip s)).
  - assert (Hex : existsb (fun kv => String.eqb (fst kv) "command") l = false).
    { apply not_true_is_false. intro H. apply existsb_exists in H.
      destruct H as (x & Hin & Hx).
      apply (find_none _ _ Ef) in Hin. congruence. }
    rewrite Hex. reflexivity.
Qed.

(* What is refused is refused with status 400. *)
Lemma read_command_refusal data refused :
  read_command data = Got (inr refused) -> snd refused = 400%Z.
Proof.
  unfold read_command. intro E.
  destruct (truthy_json data); cbn [negb and_then] in E.
  - destruct (contains_key "command" data) as [[|] |]; cbn in E;
      try discriminate.
    + destruct (getitem data "command") as [v |]; cbn in E; [| discriminate].
      destruct (strip_of v) as [c |]; cbn in E; [| discriminate].
      destruct (truthy c); cbn in E; [discriminate |].
      injection E as <-. reflexivity.
    + injection E as <-. reflexivity.
  - injection E as <-. reflexivity.
Qed.

(** The command of a request, as both servers read it. A body that is
    empty ([null], [false], [0], an empty string, list or object) or an
    object without the key ["command"] is refused with status 400 and
    "Missing 'command' in request body"; an object whose command is a
    blank string is refused with status 400 and "Command cannot be
    empty"; an object whose command is a string that is not blank gives
    that string, stripped. Anything else raises, which the view turns
    into status 500: a command that is not a string, a number or [true]
    as the body, and a string or a list as the body when it contains
    ["command"]. *)
Theorem read_command_cases (data : json) :
  (truthy_json data = false ->
   read_command data
   = Got (inr (error_response "Missing 'command' in request body" 400))) /\
  (forall d,
     data = JObj d -> d <> [] ->
     match find (fun kv => String.eqb (fst kv) "command") d with
     | None =>
         read_command data
         = Got (inr (error_response "Missing 'command' in request body" 400))
     | Some (_, JStr c) =>
         read_command data
         = if truthy (strip c) then Got (inl (strip c))
           else Got (inr (error_response "Command cannot be empty" 400))
     | Some (_, _) => read_command data = Raised AttributeError
     end) /\
  (forall q, data = JNum q -> truthy_json data = true ->
             read_command data = Raised TypeError) /\
  (data = JBool true -> read_command data = Raised TypeError) /\
  (forall s, data = JStr s -> truthy s = true ->
     read_command data
     = if contains "command" s then Raised TypeError
       else Got (inr (error_response "Missing 'command' in request body" 400))) /\
  (forall l, data = JList l -> l <> [] ->
     read_command data
     = if existsb (fun x => match x with
                            | JStr s => String.eqb s "command"
                            | _ => false
                            end) l
       then Raised TypeError
       else Got (inr (error_response "Missing 'command' in request body" 400))).
Proof.
  repeat split.
  - unfold read_command. intros ->. reflexivity.
  - intros d -> Hne. now apply read_command_of_object.
  - intros q -> H. unfold read_command. simpl in H. simpl. now rewrite H.
  - intros ->. reflexivity.
  - intros s -> H. unfold read_command. simpl. rewrite H. simpl.
    now destruct (contains "command" s).
  - intros l -> Hne. unfold read_command.
    destruct l as [| x l]; [congruence |].
    cbn [truthy_json negb contains_key and_then].
    now destruct (existsb _ (x :: l)).
Qed.

End Requests.

Module Demo.
Import PyStr PyExc Http DemoServer.
Local Open Scope Q_scope.

(* The pair that [match_objects] returns on the scene of the demo. *)
Lemma match_objects_value command :
  let r := contains "red" (lower command) in
  let g := contains "green" (lower command) in
  let b := contains "blue" (lower command) in
  match_objects simulation_state command
  = Got (if r then 2 else if g then 3 else if b then 4 else 2,
         if r then (if g then 3 else if b then 4 else 3)
         else if g then (if b then 4 else 3) else 3)%Z.
Proof.
  intros r g b.
  unfold match_objects, simulation_state. cbn [fold_left name uid].
  fold r g b. destruct r, g, b; reflexivity.
Qed.

(** The pick and the place of the demo depend only on which of the three
    names occur in the command, not on their order or on the verbs: the
    pick is the first object of the scene that is named (red when none
    is), the place the second one named (green when fewer than two are).
    So the two are the same object exactly when green is the only name in
    the command. *)
Theorem match_objects_by_names command :
  let r := contains "red" (lower command) in
  let g := contains "green" (lower command) in
  let b := contains "blue" (lower command) in
  match_objects simulation_state command
  = Got (if r then 2 else if g then 3 else if b then 4 else 2,
         if r then (if g then 3 else if b then 4 else 3)
         else if g then (if b then 4 else 3) else 3)%Z /\
  (forall pick place,
     match_objects simulation_state command = Got (pick, place) ->
     (pick = place <-> r = false /\ g = true /\ b = false)).
Proof.
  intros r g b.
  pose proof (match_objects_value command) as E. cbv zeta in E. fold r g b in E.
  split; [exact E |].
  intros pick place H. rewrite E in H.
  destruct r, g, b; injection H as <- <-; split;
    try (intros [? [? ?]]; discriminate); try discriminate; auto.
Qed.

Section Simulate.
Variable generate_mock_frame : string -> Z -> Z -> string.
Variable semantic_score : Q.
Variable str : exc -> string.

Local Abbreviation simulate :=
  (DemoServer.simulate generate_mock_frame semantic_score str).

(** A request with a command that is not blank is always answered with
    status 200 and "success", whatever the command says: the pick and the
    place are those of [match_objects] on the stripped command, and the
    drop position is 0.06 above the position of the place object. *)
Theorem simulate_always_succeeds d k c :
  find (fun kv => String.eqb (fst kv) "command") d = Some (k, JStr c) ->
  truthy (strip c) = true ->
  exists pick place place_obj,
    match_objects simulation_state (strip c) = Got (pick, place) /\
    object_of simulation_state place = Got place_obj /\
    snd (simulate (JObj d)) = 200%Z /\
    field (fst (simulate (JObj d))) "status" = Some (JStr "success") /\
    field (fst (simulate (JObj d))) "pick_uid" = Some (JNum (inject_Z pick)) /\
    field (fst (simulate (JObj d))) "place_uid" = Some (JNum (inject_Z place)) /\
    field (fst (simulate (JObj d))) "drop_position"
    = Some (let '(x, y, z) := position place_obj in
            JList [JNum x; JNum y; JNum (z + (6 # 100))]) /\
    field (fst (simulate (JObj d))) "frame"
    = Some (JStr (generate_mock_frame (strip c) pick place)).
Proof.
  intros Hfind Htr.
  assert (Hne : d <> []) by (intro E; rewrite E in Hfind; discriminate).
  pose proof (Requests.read_command_of_object d Hne) as Hobj.
  rewrite Hfind, Htr in Hobj.
  unfold DemoServer.simulate. rewrite Hobj. cbn [and_then].
  rewrite (match_objects_value (strip c)). cbn [and_then].
  destruct (contains "red" (lower (strip c))),
           (contains "green" (lower (strip c))),
           (contains "blue" (lower (strip c)));
    eexists _, _, _; (split; [reflexivity |]);
    (split; [reflexivity |]); cbn; repeat split.
Qed.

(** The status of every answer of the demo server: 400 with the refusal
    when the request is refused, 500 with the text of the exception when
    reading the command raises, and 200 for every command that is read:
    once the command is read nothing can fail. *)
Theorem simulate_status data :
  match read_command data with
  | Got (inl command) => snd (simulate data) = 200%Z
  | Got (inr refused) => simulate data = refused /\ snd refused = 400%Z
  | Raised e =>
      snd (simulate data) = 500%Z /\
      field (fst (simulate data)) "error" = Some (JStr (str e))
  end.
Proof.
  unfold DemoServer.simulate.
  destruct (read_command data) as [[command | refused] | e] eqn:E;
    cbn [and_then except_response].
  - rewrite (match_objects_value command). cbn [and_then].
    destruct (contains "red" (lower command)),
             (contains "green" (lower command)),
             (contains "blue" (lower command)); reflexivity.
  - split; [reflexivity |]. now apply (Requests.read_command_refusal data).
  - split; reflexivity.
Qed.
End Simulate.

Lemma simulate_always_succeeds_witness :
  truthy (strip "hello") = true /\
  snd (DemoServer.simulate (fun _ _ _ => ""%string) (8 # 10)
         (fun _ => ""%string) (JObj [("command", JStr "hello")])) = 200%Z.
Proof.
  split; [reflexivity |].
  destruct (simulate_always_succeeds (fun _ _ _ => ""%string) (8 # 10)
              (fun _ => ""%string) [("command", JStr "hello")]
              "command" "hello" eq_refl eq_refl)
    as (pick & place & obj & _ & _ & H & _).
  exact H.
Defined.

End Demo.

(* ================================================================== *)
(** * [RT2Simulation.handle_command] *)

Module Commands.
Import Py PyStr PyExc Spec Bullet RT2Simulation.
Local Open Scope Q_scope.

Section Engine.
Context `{E : Engine} `{EP : EmbeddingProvider}.
Variable round4 : Q -> Q.

Lemma ensure_started_ok self :
  is_started self = true -> _ensure_started self = ret tt.
Proof.
  unfold is_started, _ensure_started. intro H.
  destruct (physics_client self), (robot_id self), (controller self);
    try discriminate. reflexivity.
Qed.

Lemma settle_ok self n :
  is_started self = true -> settle self n = change (Nat.iter n stepSimulation).
Proof.
  unfold is_started, settle. intro H.
  destruct (physics_client self); [reflexivity | discriminate].
Qed.

Lemma capture_frame_ok self :
  is_started self = true -> capture_frame self = ask getCameraImage.
Proof.
  intro H. unfold capture_frame. now rewrite ensure_started_ok.
Qed.

Lemma visible_subset self seg u :
  In u (map fst (visible_objects self seg)) -> In u (map fst (objects self)).
Proof.
  unfold visible_objects. intro H. apply in_map_iff in H.
  destruct H as (x & <- & Hx). apply filter_In in Hx.
  apply in_map. tauto.
Qed.

Lemma visible_NoDup self seg :
  NoDup (map fst (objects self)) ->
  NoDup (map fst (visible_objects self seg)).
Proof.
  unfold visible_objects. generalize (objects self).
  intros l. induction l as [| x l IH]; intro H; [constructor |].
  inversion H as [| ? ? Hnotin Hnd]; subst. simpl.
  destruct (Frames.any _); [| now apply IH].
  simpl. constructor; [| now apply IH].
  intro Hin. apply Hnotin. apply in_map_iff in Hin.
  destruct Hin as (y & Ey & Hy). apply filter_In in Hy.
  rewrite <- Ey. apply in_map. tauto.
Qed.

(** With nothing in sight or a blank command the arm is not moved: the
    result has no pick, no place and no drop position, it carries the
    warning, and the engine has only settled 15 steps. No frame is
    captured and the scene is not reset, even when the caller asked for
    either. *)
Theorem handle_command_unresolved self command capture auto_reset w :
  is_started self = true ->
  visible_objects self
    (snd (getCameraImage (Nat.iter 15 stepSimulation w))) = [] \/
  strip command = ""%string ->
  exists dbg,
    handle_command round4 self command capture auto_reset w
    = (Got {| command := command; pick_uid := None; place_uid := None;
              drop_position := None; debug := dbg; frame_png := None |},
       Nat.iter 15 stepSimulation w) /\
    get String.eqb dbg "warning" = Some (Text "pick target unresolved").
Proof.
  intros Hs Hcase. unfold handle_command.
  rewrite ensure_started_ok, settle_ok, capture_frame_ok by assumption.
  unfold bindM, ret, change, ask. cbn [fst snd].
  set (w1 := Nat.iter 15 stepSimulation w) in *.
  set (visible := visible_objects self (snd (getCameraImage w1))) in *.
  assert (Hd : exists msg,
            P.decide command visible
            = Ok {| P.pick_uid := None; P.place_uid := None;
                    P.debug := [("error", VStr msg)] |}).
  { destruct visible as [| o rest] eqn:Ev.
    - eexists. reflexivity.
    - destruct Hcase as [Hc | Hc]; [discriminate |].
      eexists. apply Decide.decide_blank; [discriminate | assumption]. }
  destruct Hd as (msg & ->). cbn [of_result P.pick_uid P.place_uid P.debug].
  eexists. split; [reflexivity |]. apply Database.get_set_same.
Qed.

Lemma move_to_ok target n w :
  (forall t w0, fst (drive t w0) = Got tt) ->
  exists w', IKController.move_to target n w = (Got tt, w').
Proof.
  intro Hd. revert w. induction n as [| n IH]; intro w; simpl.
  - now exists w.
  - unfold bindM. specialize (Hd target w).
    destruct (drive target w) as [[[] | e] w0]; [| discriminate].
    unfold change. apply IH.
Qed.

Lemma pick_ok u w :
  (forall t w0, fst (drive t w0) = Got tt) ->
  (forall u0 w0, exists c, fst (createConstraint u0 w0) = Got c) ->
  exists c w', IKController.pick u w = (Got c, w').
Proof.
  intros Hd Hc. unfold IKController.pick, bindM, ask, ret.
  destruct (move_to_ok (IKController.raised_by (getBasePosition w u) (18 # 100))
                       80 w Hd) as (w1 & ->).
  destruct (move_to_ok (IKController.raised_by (getBasePosition w u) (2 # 100))
                       80 w1 Hd) as (w2 & ->).
  destruct (Hc u w2) as (c & Hcc).
  destruct (createConstraint u w2) as [[c' | e] w3]; [| discriminate].
  destruct (move_to_ok (IKController.raised_by (getBasePosition w u) (25 # 100))
                       80 w3 Hd) as (w4 & ->).
  now exists c', w4.
Qed.

Lemma place_and_release_ok drop cid w :
  (forall t w0, fst (drive t w0) = Got tt) ->
  exists w', IKController.place_and_release drop cid w = (Got None, w').
Proof.
  intro Hd. unfold IKController.place_and_release, bindM, ret, change.
  destruct (move_to_ok (IKController.raised_by drop (25 # 100)) 80 w Hd)
    as (w1 & ->).
  destruct (move_to_ok (IKController.raised_by drop (5 # 100)) 60 w1 Hd)
    as (w2 & ->).
  destruct cid as [c |].
  - destruct (move_to_ok (IKController.raised_by drop (30 # 100)) 80
                         (removeConstraint c w2) Hd) as (w3 & ->).
    now exists w3.
  - destruct (move_to_ok (IKController.raised_by drop (30 # 100)) 80 w2 Hd)
      as (w3 & ->).
    now exists w3.
Qed.

(** With a command that is not blank and two or more objects in sight, a
    result of [handle_command] names a pick and a place that are two
    different objects in sight, and its drop position is 0.06 above the
    position the place object has once the pick is done: the arm is never
    sent to put an object on itself. And there is a result whenever the
    calls that drive the arm do not raise. *)
Theorem handle_command_places_on_another_object
        self command capture auto_reset w :
  is_started self = true ->
  truthy (strip command) = true ->
  NoDup (map fst (objects self)) ->
  let w1 := Nat.iter 15 stepSimulation w in
  let visible := visible_objects self (snd (getCameraImage w1)) in
  (1 < List.length visible)%nat ->
  (forall r w',
     handle_command round4 self command capture auto_reset w = (Got r, w') ->
     exists pk q cid w2,
       pick_uid r = Some pk /\ place_uid r = Some q /\ pk <> q /\
       In pk (map fst visible) /\ In q (map fst visible) /\
       IKController.pick pk w1 = (Got cid, w2) /\
       drop_position r
       = Some (IKController.raised_by (getBasePosition w2 q) (6 # 100))) /\
  ((forall t w0, fst (drive t w0) = Got tt) ->
   (forall u0 w0, exists c, fst (createConstraint u0 w0) = Got c) ->
   exists r w',
     handle_command round4 self command capture auto_reset w = (Got r, w')).
Proof.
  intros Hs Htr Hnd w1 visible Hlen.
  assert (Hvne : visible <> []) by (destruct visible; [simpl in Hlen; lia | discriminate]).
  destruct (Decide.decide_main command visible Hvne Htr)
    as (pk & pl & dbg & Hdec & Hpk & Htwo & _).
  destruct (Htwo (visible_NoDup self _ Hnd) Hlen) as (q & -> & Hq & Hqin).
  assert (Hqobj : existsb (Z.eqb q) (map fst (objects self)) = true).
  { apply existsb_exists. exists q. split; [| apply Z.eqb_refl].
    now apply (visible_subset self (snd (getCameraImage w1))). }
  unfold handle_command.
  rewrite ensure_started_ok, !settle_ok, capture_frame_ok by assumption.
  unfold capture_frame_png, reset_scene.
  rewrite ensure_started_ok, !settle_ok, capture_frame_ok by assumption.
  unfold bindM, ret, change, ask. cbn [fst snd].
  fold w1. fold visible. rewrite Hdec.
  cbn [of_result P.pick_uid P.place_uid P.debug].
  unfold pick_and_place. rewrite Hqobj.
  split.
  - intros r w' H.
    destruct (IKController.pick pk w1) as [[cid | e] w2] eqn:Epick;
      [| discriminate].
    destruct (IKController.place_and_release _ (Some cid) w2)
      as [[[c |] | e] w3] eqn:Eplace; [| | discriminate];
      destruct capture, auto_reset; injection H as <- _;
      exists pk, q, cid, w2; repeat split; auto.
  - intros Hd Hc.
    destruct (pick_ok pk w1 Hd Hc) as (cid & w2 & ->).
    destruct (place_and_release_ok
                (IKController.raised_by (getBasePosition w2 q) (6 # 100))
                (Some cid) w2 Hd) as (w3 & ->).
    destruct capture, auto_reset; eexists _, _; reflexivity.
Qed.
End Engine.

Lemma handle_command_unresolved_witness :
  is_started Engines.started = true /\
  exists dbg,
    handle_command (E := Engines.still) (EP := Encoders.one_hot)
                   (fun x => x) Engines.started "   " true true tt
    = (Got {| command := "   "; pick_uid := None; place_uid := None;
              drop_position := None; debug := dbg; frame_png := None |}, tt).
Proof.
  split; [reflexivity |].
  destruct (handle_command_unresolved (E := Engines.still)
              (EP := Encoders.one_hot) (fun x => x) Engines.started "   "
              true true tt eq_refl (or_intror eq_refl)) as (dbg & H & _).
  exists dbg. exact H.
Defined.

Lemma handle_command_places_on_another_object_witness :
  is_started Engines.started = true /\
  truthy (strip "pick up the red cube and place it on the blue cube") = true /\
  exists r w',
    handle_command (E := Engines.still) (EP := Encoders.one_hot)
                   (fun x => x) Engines.started
                   "pick up the red cube and place it on the blue cube"
                   true false tt
    = (Got r, w').
Proof.
  split; [reflexivity |]. split; [reflexivity |].
  assert (Hnd : NoDup (map fst (objects Engines.started))).
  { repeat constructor; simpl; intuition discriminate. }
  apply (proj2 (handle_command_places_on_another_object
                  (E := Engines.still) (EP := Encoders.one_hot) (fun x => x)
                  Engines.started
                  "pick up the red cube and place it on the blue cube"
                  true false tt eq_refl eq_refl Hnd ltac:(simpl; lia))).
  - reflexivity.
  - intros. now exists 0%Z.
Defined.

End Commands.

(* ================================================================== *)
(** * [p_clip.py]: batches of texts and crops of objects *)

Module Batches.
Import Py PClipBatches.

Lemma chunks_from {A : Type} (l : list A) (n : nat) :
  (0 < n)%nat ->
  forall fuel i, (List.length l - i <= fuel)%nat ->
    List.concat (map (fun j => firstn n (skipn j l))
                     (range_from i (List.length l) n fuel))
    = skipn i l.
Proof.
  intros Hn. induction fuel as [| fuel IH]; intros i Hi; simpl.
  - symmetry. apply skipn_all2. lia.
  - destruct (i <? List.length l)%nat eqn:E.
    + apply Nat.ltb_lt in E. simpl. rewrite IH by lia.
      rewrite Nat.add_comm, <- skipn_skipn. apply firstn_skipn.
    + apply Nat.ltb_ge in E. symmetry. now apply skipn_all2.
Qed.

(** The batches of a list, put together again, are the list. *)
Lemma chunks_concat {A : Type} (l : list A) (n : nat) :
  (0 < n)%nat ->
  List.concat (map (fun j => firstn n (skipn j l)) (range (List.length l) n))
  = l.
Proof.
  intro Hn. unfold range. rewrite chunks_from by lia. reflexivity.
Qed.

Section Encoder.
Context `{EP : EmbeddingProvider}.

(** Batching loses nothing: [_encode_text] returns one row per text, and
    when the model encodes every text on its own, whatever the batch it
    comes in, the rows are the encodings of the texts, in order. *)
Theorem encode_text_keeps_every_text (texts : list string) :
  List.length (_encode_text texts) = List.length texts /\
  (forall f : string -> Emb,
     (forall batch, encode batch = map f batch) ->
     _encode_text texts = map f texts).
Proof.
  unfold _encode_text.
  destruct texts as [| t rest] eqn:Et; [now split |].
  rewrite <- Et. clear Et t rest.
  assert (Hn : (0 < max_text_batch)%nat) by (unfold max_text_batch; lia).
  split.
  - rewrite <- (chunks_concat texts max_text_batch Hn) at 2.
    rewrite !length_concat, !map_map. f_equal.
    apply map_ext. intro i. apply encode_length.
  - intros f Hf.
    rewrite <- (chunks_concat texts max_text_batch Hn) at 2.
    rewrite concat_map, map_map.
    f_equal. apply map_ext. intro i. apply Hf.
Qed.
End Encoder.

End Batches.

Module Crops.
Import Py Spec PClipCrops.

Lemma In_enumerate {A : Type} (l : list A) i a :
  In (i, a) (enumerate l) <-> nth_error l i = Some a.
Proof.
  unfold enumerate.
  assert (H : forall off, In (i, a) (combine (seq off (List.length l)) l)
                          <-> (off <= i)%nat /\ nth_error l (i - off) = Some a).
  { induction l as [| x l IH]; intro off; simpl.
    - split; [tauto |]. intros [_ H]. destruct (i - off)%nat; discriminate.
    - rewrite IH. split.
      + intros [[= <- <-] | [Hle Hn]].
        * split; [lia |]. now rewrite Nat.sub_diag.
        * split; [lia |].
          replace (i - off)%nat with (S (i - S off)) by lia. exact Hn.
      + intros [Hle Hn]. destruct (i - off)%nat as [| k] eqn:E.
        * left. injection Hn as <-. f_equal. lia.
        * right. split; [lia |].
          replace (i - S off)%nat with k by lia. exact Hn. }
  rewrite H. rewrite Nat.sub_0_r. split; [tauto | intro; split; [lia | assumption]].
Qed.

(** The pixels [np.where] lists are the pixels of the object. *)
Lemma where_uid_In seg uid y x :
  In (y, x) (where_uid seg uid) <->
  exists row, nth_error seg y = Some row /\ nth_error row x = Some uid.
Proof.
  unfold where_uid. rewrite in_flat_map. split.
  - intros ([y' row] & Hrow & Hin). apply In_enumerate in Hrow.
    apply in_flat_map in Hin. destruct Hin as ([x' s] & Hs & Hin).
    apply In_enumerate in Hs. simpl in Hin.
    destruct (Z.eqb s uid) eqn:E; [| destruct Hin].
    destruct Hin as [[= <- <-] | []]. apply Z.eqb_eq in E. subst s.
    now exists row.
  - intros (row & Hrow & Hx). exists (y, row). split.
    + now apply In_enumerate.
    + apply in_flat_map. exists (x, uid). split.
      * now apply In_enumerate.
      * simpl. rewrite Z.eqb_refl. now left.
Qed.

Lemma min_of_le a l : (min_of a l <= a)%nat.
Proof.
  unfold min_of. revert a. induction l as [| x l IH]; intro a; simpl; [lia |].
  specialize (IH (Nat.min a x)). lia.
Qed.

Lemma max_of_ge a l : (a <= max_of a l)%nat.
Proof.
  unfold max_of. revert a. induction l as [| x l IH]; intro a; simpl; [lia |].
  specialize (IH (Nat.max a x)). lia.
Qed.

Lemma max_of_lt a l b :
  (a < b)%nat -> (forall e, In e l -> (e < b)%nat) -> (max_of a l < b)%nat.
Proof.
  unfold max_of. revert a. induction l as [| x l IH]; intros a Ha Hl; simpl;
    [assumption |].
  apply IH.
  - specialize (Hl x (or_introl eq_refl)). lia.
  - intros e He. apply Hl. now right.
Qed.

Lemma keys_set_crops {V : Type} (d : dict Z V) k v :
  keys (set Z.eqb d k v)
  = if existsb (Z.eqb k) (keys d) then keys d else (keys d ++ [k])%list.
Proof.
  unfold keys. induction d as [| [k' v'] d IH]; simpl; [reflexivity |].
  rewrite (Z.eqb_sym k k').
  destruct (Z.eqb k' k) eqn:E; simpl; [reflexivity |].
  rewrite IH. now destruct (existsb (Z.eqb k) (map fst d)).
Qed.

Lemma In_set_crops {V : Type} (d : dict Z V) k v x :
  In x (set Z.eqb d k v) -> In x d \/ x = (k, v).
Proof.
  induction d as [| [k' v'] d IH]; simpl.
  - intros [<- | []]. now right.
  - destruct (Z.eqb k' k) eqn:E; simpl.
    + apply Z.eqb_eq in E. subst k'. intros [<- | H]; auto.
    + intros [<- | H]; auto. destruct (IH H); auto.
Qed.

Lemma in_skipn {B : Type} (l : list B) n x : In x (skipn n l) -> In x l.
Proof.
  intro H. rewrite <- (firstn_skipn n l). apply in_or_app. now right.
Qed.

Lemma in_firstn {B : Type} (l : list B) n x : In x (firstn n l) -> In x l.
Proof.
  intro H. rewrite <- (firstn_skipn n l). apply in_or_app. now left.
Qed.

Section Image.
Context {A : Type}.
Variable img : list (list A).
Variable seg : list (list Z).

Local Abbreviation mask_inside := (mask_inside img seg).
Local Abbreviation rectangular := (rectangular img).
Local Abbreviation in_sight := (in_sight seg).
Local Abbreviation step := (store_crop img seg).

Local Abbreviation crop_of := (crop_of img seg).

(** With the mask inside the image, the box around the pixels of an
    object lies inside the image. *)
Lemma box_bounds uid y x rest :
  mask_inside -> where_uid seg uid = (y, x) :: rest ->
  let y0 := Z.max 0 (Z.of_nat (min_of y (map fst rest)) - 2) in
  let y1 := Z.min (height img - 1) (Z.of_nat (max_of y (map fst rest)) + 2) in
  let x0 := Z.max 0 (Z.of_nat (min_of x (map snd rest)) - 2) in
  let x1 := Z.min (width img - 1) (Z.of_nat (max_of x (map snd rest)) + 2) in
  (0 <= y0 <= y1)%Z /\ (y1 < height img)%Z /\
  (0 <= x0 <= x1)%Z /\ (x1 < width img)%Z.
Proof.
  intros Hin Ew.
  assert (Hall : forall y' x', In (y', x') ((y, x) :: rest) ->
            (Z.of_nat y' < height img)%Z /\ (Z.of_nat x' < width img)%Z).
  { intros y' x' H. rewrite <- Ew in H. apply where_uid_In in H.
    destruct H as (row & Hrow & Hx). destruct (Hin y' row Hrow) as [Hy Hw].
    split; [assumption |].
    assert (x' < List.length row)%nat by (apply nth_error_Some; congruence).
    lia. }
  assert (Hy : (max_of y (map fst rest) < Z.to_nat (height img))%nat).
  { apply max_of_lt.
    - destruct (Hall y x (or_introl eq_refl)). lia.
    - intros e He. apply in_map_iff in He. destruct He as ([y' x'] & <- & He).
      destruct (Hall y' x' (or_intror He)). simpl. lia. }
  assert (Hx : (max_of x (map snd rest) < Z.to_nat (width img))%nat).
  { apply max_of_lt.
    - destruct (Hall y x (or_introl eq_refl)). lia.
    - intros e He. apply in_map_iff in He. destruct He as ([y' x'] & <- & He).
      destruct (Hall y' x' (or_intror He)). simpl. lia. }
  pose proof (min_of_le y (map fst rest)). pose proof (max_of_ge y (map fst rest)).
  pose proof (min_of_le x (map snd rest)). pose proof (max_of_ge x (map snd rest)).
  cbv zeta. lia.
Qed.

(** So one round of the loop stores the crop of an object in sight and
    leaves the dict alone otherwise. *)
Lemma step_spec crops uid :
  mask_inside ->
  step crops uid
  = if in_sight uid then set Z.eqb crops uid (crop_of uid) else crops.
Proof.
  intro Hin. unfold PClipCrops.in_sight, PClipCrops.crop_of, store_crop.
  destruct (where_uid seg uid) as [| [y x] rest] eqn:Ew; [reflexivity |].
  pose proof (box_bounds uid y x rest Hin Ew) as Hb. cbv zeta in Hb. cbv zeta.
  replace ((Z.min (height img - 1) (Z.of_nat (max_of y (map fst rest)) + 2)
            <? Z.max 0 (Z.of_nat (min_of y (map fst rest)) - 2))%Z) with false
    by (symmetry; apply Z.ltb_ge; lia).
  replace ((Z.min (width img - 1) (Z.of_nat (max_of x (map snd rest)) + 2)
            <? Z.max 0 (Z.of_nat (min_of x (map snd rest)) - 2))%Z) with false
    by (symmetry; apply Z.ltb_ge; lia).
  reflexivity.
Qed.

Lemma fold_crops uids : forall acc,
  mask_inside ->
  NoDup (keys acc ++ uids) ->
  keys (fold_left step uids acc) = (keys acc ++ filter in_sight uids)%list /\
  (forall x, In x (fold_left step uids acc) ->
             In x acc \/ exists u, In u uids /\ in_sight u = true /\
                                   x = (u, crop_of u)).
Proof.
  induction uids as [| u uids IH]; intros acc Hin Hnd.
  - simpl. rewrite app_nil_r. split; [reflexivity | auto].
  - change (fold_left step (u :: uids) acc)
      with (fold_left step uids (step acc u)).
    rewrite step_spec by assumption. cbn [filter].
    assert (Hfresh : existsb (Z.eqb u) (keys acc) = false).
    { apply not_true_is_false. intro H. apply existsb_exists in H.
      destruct H as (k & Hk & E). apply Z.eqb_eq in E. subst k.
      apply NoDup_remove_2 in Hnd. apply Hnd. apply in_or_app. now left. }
    destruct (in_sight u) eqn:Es.
    + destruct (IH (set Z.eqb acc u (crop_of u)) Hin) as [Hk Hx].
      { rewrite keys_set_crops, Hfresh, <- app_assoc. exact Hnd. }
      split.
      * rewrite Hk, keys_set_crops, Hfresh, <- app_assoc. reflexivity.
      * intros x Hxin. destruct (Hx x Hxin) as [H | (u' & Hu' & Hs' & ->)].
        -- apply In_set_crops in H. destruct H as [H | ->]; [now left |].
           right. exists u. split; [now left | now split].
        -- right. exists u'. split; [now right | now split].
    + destruct (IH acc Hin) as [Hk Hx].
      { apply NoDup_remove_1 in Hnd. exact Hnd. }
      split; [exact Hk |].
      intros x Hxin. destruct (Hx x Hxin) as [H | (u' & Hu' & Hs' & ->)];
        [now left |].
      right. exists u'. split; [now right | now split].
Qed.

Lemma slice_height y0 y1 x0 x1 :
  (0 <= y0)%Z -> (y0 <= y1)%Z -> (y1 < height img)%Z ->
  height (slice img y0 y1 x0 x1) = (y1 - y0 + 1)%Z.
Proof.
  intros H0 H1 H2. unfold height, slice in *.
  rewrite length_map, length_skipn, length_firstn. lia.
Qed.

Lemma slice_rows y0 y1 x0 x1 :
  rectangular ->
  (0 <= x0)%Z -> (x0 <= x1)%Z -> (x1 < width img)%Z ->
  forall row, In row (slice img y0 y1 x0 x1) ->
              Z.of_nat (List.length row) = (x1 - x0 + 1)%Z.
Proof.
  intros Hrect H0 H1 H2 row Hrow. unfold slice in Hrow.
  apply in_map_iff in Hrow. destruct Hrow as (r & <- & Hr).
  assert (Hrin : In r img).
  { apply in_skipn, in_firstn in Hr. exact Hr. }
  rewrite length_skipn, length_firstn. rewrite <- (Hrect r Hrin) in H2. lia.
Qed.

(** With the mask inside the image, the objects that get a crop are the
    objects with a pixel in the mask, in the order they are given in. *)
Theorem crops_are_the_objects_in_sight uids :
  mask_inside -> NoDup uids ->
  keys (seg_to_object_crops img seg uids) = filter in_sight uids.
Proof.
  intros Hin Hnd. unfold seg_to_object_crops.
  destruct (fold_crops uids [] Hin Hnd) as [Hk _]. exact Hk.
Qed.

(** In an image of at least 4 by 4 pixels every crop is at least 4 by 4
    pixels too. *)
Theorem crops_are_at_least_4_by_4 uids u crop :
  mask_inside -> rectangular -> NoDup uids ->
  (4 <= height img)%Z -> (4 <= width img)%Z ->
  In (u, crop) (seg_to_object_crops img seg uids) ->
  (4 <= height crop)%Z /\
  (forall row, In row crop -> (4 <= List.length row)%nat).
Proof.
  intros Hin Hrect Hnd Hh Hw Hc. unfold seg_to_object_crops in Hc.
  destruct (fold_crops uids [] Hin Hnd) as [_ Hx].
  destruct (Hx _ Hc) as [[] | (u' & Hu' & Hs & E)].
  injection E as <- ->. clear Hx Hc.
  unfold PClipCrops.in_sight in Hs. unfold PClipCrops.crop_of.
  destruct (where_uid seg u) as [| [y x] rest] eqn:Ew; [discriminate |].
  pose proof (box_bounds u y x rest Hin Ew) as Hb. cbv zeta in Hb.
  destruct Hb as (Hy01 & Hy1 & Hx01 & Hx1). cbv zeta.
  set (y0 := Z.max 0 (Z.of_nat (min_of y (map fst rest)) - 2)) in *.
  set (y1 := Z.min (height img - 1) (Z.of_nat (max_of y (map fst rest)) + 2)) in *.
  set (x0 := Z.max 0 (Z.of_nat (min_of x (map snd rest)) - 2)) in *.
  set (x1 := Z.min (width img - 1) (Z.of_nat (max_of x (map snd rest)) + 2)) in *.
  destruct ((height (slice img y0 y1 x0 x1) * width (slice img y0 y1 x0 x1) =? 0)%Z
            || (height (slice img y0 y1 x0 x1) <? 4)%Z
            || (width (slice img y0 y1 x0 x1) <? 4)%Z) eqn:Esmall.
  - (* the box in the middle of the image *)
    pose proof (Z.div_mod (height img) 2 ltac:(lia)) as Dh.
    pose proof (Z.mod_pos_bound (height img) 2 ltac:(lia)) as Mh.
    pose proof (Z.div_mod (width img) 2 ltac:(lia)) as Dw.
    pose proof (Z.mod_pos_bound (width img) 2 ltac:(lia)) as Mw.
    set (cy0 := Z.max 0 (height img / 2 - 16)) in *.
    set (cy1 := Z.min (height img - 1) (height img / 2 + 16)) in *.
    set (cx0 := Z.max 0 (width img / 2 - 16)) in *.
    set (cx1 := Z.min (width img - 1) (width img / 2 + 16)) in *.
    split.
    + rewrite slice_height by lia. lia.
    + intros row Hrow.
      pose proof (slice_rows cy0 cy1 cx0 cx1 Hrect ltac:(lia) ltac:(lia)
                             ltac:(lia) row Hrow) as Hl.
      lia.
  - apply orb_false_iff in Esmall. destruct Esmall as [Esmall Ewd].
    apply orb_false_iff in Esmall. destruct Esmall as [_ Eht].
    apply Z.ltb_ge in Eht, Ewd. split; [exact Eht |].
    intros row Hrow.
    pose proof (slice_rows y0 y1 x0 x1 Hrect ltac:(lia) ltac:(lia) ltac:(lia))
      as Hrows.
    pose proof (Hrows row Hrow) as Hl.
    destruct (slice img y0 y1 x0 x1) as [| r0 rs] eqn:Es; [destruct Hrow |].
    pose proof (Hrows r0 (or_introl eq_refl)) as Hl0.
    unfold width in Ewd. lia.
Qed.
End Image.

Lemma picture_mask_inside : mask_inside Pictures.picture Pictures.mask.
Proof.
  intros y row H.
  do 4 (destruct y as [| y];
        [injection H as <-; cbv; split; [reflexivity | discriminate] |]).
  destruct y; discriminate.
Qed.

Lemma picture_rectangular : rectangular Pictures.picture.
Proof.
  intros row H. simpl in H.
  destruct H as [<- | [<- | [<- | [<- | []]]]]; reflexivity.
Qed.

Lemma crops_are_the_objects_in_sight_witness :
  mask_inside Pictures.picture Pictures.mask /\ NoDup [2%Z; 3%Z] /\
  keys (seg_to_object_crops Pictures.picture Pictures.mask [2%Z; 3%Z])
  = [2%Z].
Proof.
  assert (Hnd : NoDup [2%Z; 3%Z]).
  { constructor; [simpl; intros [H | []]; discriminate |].
    constructor; [simpl; tauto | constructor]. }
  split; [exact picture_mask_inside |]. split; [exact Hnd |].
  exact (crops_are_the_objects_in_sight Pictures.picture Pictures.mask
           [2%Z; 3%Z] picture_mask_inside Hnd).
Defined.

Lemma crops_are_at_least_4_by_4_witness :
  mask_inside Pictures.picture Pictures.mask /\
  rectangular Pictures.picture /\
  (4 <= height Pictures.picture)%Z /\ (4 <= width Pictures.picture)%Z /\
  In (2%Z, Pictures.picture)
     (seg_to_object_crops Pictures.picture Pictures.mask [2%Z; 3%Z]) /\
  (4 <= height Pictures.picture)%Z.
Proof.
  assert (Hnd : NoDup [2%Z; 3%Z]).
  { constructor; [simpl; intros [H | []]; discriminate |].
    constructor; [simpl; tauto | constructor]. }
  split; [exact picture_mask_inside |]. split; [exact picture_rectangular |].
  split; [discriminate |]. split; [discriminate |].
  split; [now left |].
  apply (crops_are_at_least_4_by_4 Pictures.picture Pictures.mask
           [2%Z; 3%Z] 2%Z Pictures.picture picture_mask_inside
           picture_rectangular Hnd);
    [discriminate | discriminate | now left].
Defined.

End Crops.

(* ================================================================== *)
(** * A session of [main] *)

Module Session.
Import PyStr Py PyExc Spec ActionExecutor Streams Console SimMain SessionSpec.
Local Open Scope list_scope.

(** ** The matcher only names objects that are in sight *)

Section Matcher.
Context `{EP : EmbeddingProvider}.

Lemma clip_targets_in_sight text objects :
  (forall u, result_pick (Sim.pick_and_place_from_text text objects) = Some u ->
             In u (map fst objects)) /\
  (forall q, result_place (Sim.pick_and_place_from_text text objects)
             = Some (Sim.PlaceObj q) -> In q (map fst objects)).
Proof.
  unfold Sim.pick_and_place_from_text.
  set (txt := lower text).
  destruct (Sim.build_lookup objects) as [texts idx] eqn:Hbl.
  apply ClipTargets.build_lookup_spec in Hbl. destruct Hbl as [Hlen Hidx].
  set (cf := Sim.encode_text texts).
  assert (Hcf : List.length cf = List.length idx)
    by (unfold cf, Sim.encode_text; now rewrite encode_length).
  assert (Hbest : forall phrase ex u s,
            Sim.best_uid_for cf idx phrase ex = (Some u, s) ->
            In u (map fst objects)).
  { intros phrase ex u s Eb.
    destruct (ClipTargets.best_uid_for_spec cf idx phrase ex Hcf) as (Hin & _).
    apply Hidx. exact (proj1 (Hin u s Eb)). }
  pose proof (ClipTargets.direct_color_match_In txt objects) as Hcolor.
  set (place_flag := match Sim.place_phrase_of txt with
                     | Some p => if Sim.any_ground_keyword p then true
                                 else Sim.any_ground_keyword txt
                     | None => Sim.any_ground_keyword txt
                     end).
  clearbody place_flag cf.
  destruct (truthy_opt (Sim.pick_phrase_of txt));
    [destruct (Sim.best_uid_for cf idx (text_of (Sim.pick_phrase_of txt)) None)
       as [[u0 |] s0] eqn:E0 |];
    (destruct place_flag;
     [| destruct (truthy_opt (Sim.place_phrase_of txt) &&
                  negb (opt_eqb (Sim.place_phrase_of txt)
                                (Sim.pick_phrase_of txt)));
        [match goal with
         | |- context [Sim.best_uid_for cf idx ?p ?x] =>
             destruct (Sim.best_uid_for cf idx p x) as [[q0 |] qs0] eqn:E1
         end |]]);
    try (destruct (Sim.direct_color_match txt objects) as [[u1 c1] |] eqn:E2;
         [| destruct (Sim.best_uid_for cf idx txt None) as [[u2 |] s2] eqn:E3]);
    (split; [intros u H | intros q H]); cbn in H; try discriminate;
    injection H as <-; eauto.
Qed.
End Matcher.

Section Engine.
Context `{E : Engine} `{EP : EmbeddingProvider}.
Variable getBaseOrientation : World -> Z -> Q * Q * Q * Q.
Variable getEulerFromQuaternion : Q * Q * Q * Q -> Q * Q * Q.

(** ** Where the controller can fail *)

Lemma move_to_raises pos n : forall w e w',
  SimpleController.move_to pos n w = (Raised e, w') -> from_engine e.
Proof.
  induction n as [| n IH]; intros w e w' H; simpl in H.
  - discriminate.
  - unfold Bullet.bindM in H.
    destruct (drive pos w) as [[[] | e0] w0] eqn:Ed.
    + unfold Bullet.change in H. now apply IH in H.
    + injection H as <- _. left. exists pos, w. now rewrite Ed.
Qed.

Lemma pick_raises u w e w' :
  SimpleController.pick u w = (Raised e, w') -> from_engine e.
Proof.
  unfold SimpleController.pick, Bullet.bindM, Bullet.ask. intro H.
  destruct (SimpleController.move_to _ 80 w) as [[[] | e1] w1] eqn:E1;
    [| injection H as <- _; now apply move_to_raises in E1].
  destruct (SimpleController.move_to _ 80 w1) as [[[] | e2] w2] eqn:E2;
    [| injection H as <- _; now apply move_to_raises in E2].
  destruct (createConstraint u w2) as [[cid | e3] w3] eqn:E3;
    [| injection H as <- _; right; exists u, w2; now rewrite E3].
  destruct (SimpleController.move_to _ 80 w3) as [[[] | e4] w4] eqn:E4;
    [discriminate | injection H as <- _; now apply move_to_raises in E4].
Qed.

Lemma place_and_release_raises pos cid w e w' :
  SimpleController.place_and_release pos cid w = (Raised e, w') ->
  from_engine e.
Proof.
  unfold SimpleController.place_and_release, Bullet.bindM. intro H.
  destruct (SimpleController.move_to _ 80 w) as [[[] | e1] w1] eqn:E1;
    [| injection H as <- _; now apply move_to_raises in E1].
  destruct (SimpleController.move_to _ 60 w1) as [[[] | e2] w2] eqn:E2;
    [| injection H as <- _; now apply move_to_raises in E2].
  destruct cid as [cid |]; unfold Bullet.change, Bullet.ret in H;
    now apply move_to_raises in H.
Qed.

(** ** Rules *)

Lemma triple_bind {A B : Type} P (m : Run A) Q (f : A -> Run B) R X :
  triple P m Q X -> (forall a, triple (Q a) (f a) R X) ->
  triple P (bindR m f) R X.
Proof.
  intros Hm Hf s w HP. unfold bindR. specialize (Hm s w HP).
  destruct (m s w) as [[a | e] [s' w']]; [now apply Hf | exact Hm].
Qed.

Lemma triple_engine {A : Type} (P : state -> Prop) (m : Bullet.M A) X :
  (forall w e w', m w = (Raised e, w') -> forall s, P s -> X e s) ->
  triple P (engine m) (fun _ => P) X.
Proof.
  intros Hx s w HP. unfold engine.
  destruct (m w) as [[a | e] w'] eqn:Em; [exact HP |].
  now apply (Hx w e w').
Qed.

Lemma triple_ask {A : Type} (P : state -> Prop) (f : World -> A) X :
  triple P (engine (Bullet.ask f)) (fun _ => P) X.
Proof. apply triple_engine. discriminate. Qed.

Lemma triple_unit {A : Type} (P : state -> Prop) (a : A)
      (Q : A -> state -> Prop) X :
  (forall s, P s -> Q a s) -> triple P (unit_run a) Q X.
Proof. intros H s w HP. now apply H. Qed.

Lemma triple_print (P : state -> Prop) lines (Q : unit -> state -> Prop) X :
  (forall s, P s ->
     Q tt {| executor := executor s; database := database s;
             printed := printed s ++ lines |}) ->
  triple P (print lines) Q X.
Proof. intros H s w HP. now apply H. Qed.

Lemma triple_on_executor {A : Type} (P : state -> Prop)
      (f : ActionExecutor.t -> A * ActionExecutor.t)
      (Q : A -> state -> Prop) X :
  (forall s, P s ->
     Q (fst (f (executor s)))
       {| executor := snd (f (executor s)); database := database s;
          printed := printed s |}) ->
  triple P (on_executor f) Q X.
Proof.
  intros H s w HP. unfold on_executor. specialize (H s HP).
  now destruct (f (executor s)).
Qed.

Lemma triple_on_database (P : state -> Prop) f (Q : unit -> state -> Prop) X :
  (forall s d, P s ->
     Q tt {| executor := executor s; database := d; printed := printed s |}) ->
  triple P (on_database f) Q X.
Proof. intros H s w HP. now apply H. Qed.

(** ** Histories *)

Lemma alternating_app l1 : forall h l2,
  alternating h (l1 ++ l2)
  = alternating h l1 && alternating (holding_after h l1) l2.
Proof.
  induction l1 as [| c l1 IH]; intros h l2; [reflexivity |].
  destruct c; simpl; rewrite IH; unfold holding_after; simpl;
    now rewrite andb_assoc.
Qed.

Lemma holding_after_app l1 l2 h :
  holding_after h (l1 ++ l2) = holding_after (holding_after h l1) l2.
Proof. unfold holding_after. now rewrite fold_left_app. Qed.

Lemma after_app l1 l2 self : after (l1 ++ l2) self = after l2 (after l1 self).
Proof. unfold after. now rewrite fold_left_app. Qed.

Lemma stream_app l1 : forall self l2,
  stream self (l1 ++ l2) = stream self l1 ++ stream (after l1 self) l2.
Proof.
  induction l1 as [| c l1 IH]; intros self l2; [reflexivity |].
  simpl. rewrite IH, <- app_assoc. reflexivity.
Qed.

Lemma vectors_app l1 l2 : vectors (l1 ++ l2) = vectors l1 ++ vectors l2.
Proof. unfold vectors. now rewrite flat_map_app. Qed.

Lemma vectors_map_Vector actions : vectors (map Vector actions) = actions.
Proof.
  induction actions as [| a l IH]; [reflexivity |]. simpl. now rewrite IH.
Qed.

Lemma vectors_place_lines actions : vectors (place_lines actions) = actions.
Proof.
  induction actions as [| a l IH]; [reflexivity |].
  unfold place_lines in *. simpl.
  destruct (Z.eqb (terminate a) 1); simpl; unfold vectors in *; simpl;
    now rewrite IH.
Qed.

(** ** The steps of a round *)

Lemma kept_tokens h tokens s :
  kept h s ->
  kept h {| executor := executor s; database := database s;
            printed := printed s ++ [Tokens tokens] |}.
Proof.
  intros (history & Ha & Hf & Hh & Hv & He).
  exists history. cbn [printed executor]. rewrite vectors_app.
  cbn [vectors flat_map]. rewrite !app_nil_r. now repeat split.
Qed.

Lemma kept_database h d s :
  kept h s ->
  kept h {| executor := executor s; database := d; printed := printed s |}.
Proof. intros (history & H). now exists history. Qed.

Lemma kept_pick pos s :
  kept false s ->
  pending (CallPick pos false)
          (fst (generate_pick_actions (executor s) pos false))
          {| executor := snd (generate_pick_actions (executor s) pos false);
             database := database s; printed := printed s |}.
Proof.
  intros (history & Ha & Hf & Hh & Hv & He).
  exists history. cbn [printed executor].
  rewrite alternating_app, Ha, Hh, stream_app, after_app, <- He, Hv.
  repeat split.
  apply Forall_app. split; [assumption | now constructor].
Qed.

Lemma kept_place pos s :
  kept true s ->
  pending (CallPlace pos true)
          (fst (generate_place_actions (executor s) pos true))
          {| executor := snd (generate_place_actions (executor s) pos true);
             database := database s; printed := printed s |}.
Proof.
  intros (history & Ha & Hf & Hh & Hv & He).
  exists history. cbn [printed executor].
  rewrite alternating_app, Ha, Hh, stream_app, after_app, <- He, Hv.
  repeat split.
  apply Forall_app. split; [assumption | now constructor].
Qed.

Lemma pending_printed c actions lines s :
  vectors lines = actions ->
  pending c actions s ->
  kept (holding_after false [c])
       {| executor := executor s; database := database s;
          printed := printed s ++ lines |}.
Proof.
  intros Hl (history & Ha & Hf & Hv & He).
  exists (history ++ [c]). cbn [printed executor].
  rewrite vectors_app, Hl. repeat split; try assumption.
  rewrite holding_after_app. now destruct c.
Qed.

Lemma tokens_returned action_type pos rotation :
  exists tokens,
    ActionTokenizerV2.action_to_tokens (R := float32) tokenizer action_type
                                       pos rotation = Ok tokens.
Proof.
  unfold ActionTokenizerV2.action_to_tokens.
  destruct (Tokens.position_to_tokens_returned (R := float32) 3 1 pos rotation)
    as (nx & ny & nz & nw & Hpos & _).
  unfold tokenizer. rewrite Hpos. eexists. reflexivity.
Qed.

Lemma get_in {V : Type} (d : list (Z * V)) u :
  In u (map fst d) -> exists v, get Z.eqb d u = Some v.
Proof.
  induction d as [| [k v] d IH]; simpl; [contradiction |].
  intros [-> | H].
  - rewrite Z.eqb_refl. now exists v.
  - destruct (Z.eqb k u); [now exists v | now apply IH].
Qed.

Lemma triple_lookup (P : state -> Prop) objects_meta u X :
  In u (map fst objects_meta) ->
  triple P (lookup objects_meta u) (fun _ => P) X.
Proof.
  intros Hin s w HP. unfold lookup.
  destruct (get_in objects_meta u Hin) as [v ->]. exact HP.
Qed.

Local Abbreviation carry_out :=
  (SimMain.carry_out getBaseOrientation getEulerFromQuaternion).
Local Abbreviation round :=
  (SimMain.round getBaseOrientation getEulerFromQuaternion).
Local Abbreviation loop :=
  (SimMain.loop getBaseOrientation getEulerFromQuaternion).

Lemma triple_tokens h action_type pos rotation (f : list string -> Run flow) :
  (forall tokens, triple (kept h) (f tokens) (fun _ => kept false) crashed) ->
  triple (kept h)
         (bindR (returned
                   (of_result
                      (ActionTokenizerV2.action_to_tokens
                         (R := float32) tokenizer action_type pos rotation)))
                f)
         (fun _ => kept false) crashed.
Proof.
  intro Hf. destruct (tokens_returned action_type pos rotation) as [tokens ->].
  intros s w HP. exact (Hf tokens s w HP).
Qed.

Lemma carry_out_kept objects_meta pick_uid place_uid :
  In pick_uid (map fst objects_meta) ->
  (forall q, place_uid = Some (Sim.PlaceObj q) ->
             In q (map fst objects_meta)) ->
  triple (kept false) (carry_out objects_meta pick_uid place_uid)
         (fun _ => kept false) crashed.
Proof.
  intros Hpick Hplace. unfold SimMain.carry_out.
  eapply triple_bind; [apply triple_ask | intro pick_pos].
  eapply triple_bind; [apply triple_ask | intro pick_orn].
  eapply triple_bind; [now apply triple_lookup | intros ?].
  apply triple_tokens. intro pick_tokens.
  apply (triple_bind _ _ (fun _ => kept false));
    [apply triple_print; intros s; apply kept_tokens | intros ?].
  apply (triple_bind _ _ (pending (CallPick pick_pos false)));
    [apply triple_on_executor; intro s; apply kept_pick | intro pick_actions].
  apply (triple_bind _ _ (fun _ => kept true));
    [apply triple_print; intro s;
     apply (pending_printed (CallPick pick_pos false));
     apply vectors_map_Vector | intros ?].
  eapply triple_bind;
    [apply triple_engine; intros w e w' He s Hs; split;
     [now apply pick_raises in He | now exists true] | intro cid].
  apply (triple_bind _ _ (fun _ => kept true)).
  { destruct place_uid as [[q |] |].
    - eapply triple_bind; [apply triple_lookup; now apply Hplace | intros ?].
      eapply triple_bind; [apply triple_ask | intros [[x y] z]].
      now apply triple_unit.
    - destruct pick_pos as [[x y] z]. now apply triple_unit.
    - now apply triple_unit. }
  intro drop_pos.
  apply triple_tokens. intro place_tokens.
  apply (triple_bind _ _ (fun _ => kept true));
    [apply triple_print; intros s; apply kept_tokens | intros ?].
  apply (triple_bind _ _ (pending (CallPlace drop_pos true)));
    [apply triple_on_executor; intro s; apply kept_place | intro place_actions].
  apply (triple_bind _ _ (fun _ => kept false));
    [apply triple_print; intro s;
     apply (pending_printed (CallPlace drop_pos true));
     apply vectors_place_lines | intros ?].
  eapply triple_bind;
    [apply triple_engine; intros w e w' He s Hs; split;
     [now apply place_and_release_raises in He | now exists false]
    | intros ?].
  now apply triple_unit.
Qed.

Lemma in_visible cubes seg u :
  In u (map fst (visible cubes seg)) -> In u (map fst cubes).
Proof.
  unfold visible. rewrite !in_map_iff.
  intros (x & Hx & Hin). apply filter_In in Hin. exists x. tauto.
Qed.

Lemma round_kept cubes typed :
  triple (kept false) (round cubes typed) (fun _ => kept false) crashed.
Proof.
  unfold SimMain.round.
  eapply triple_bind; [apply triple_engine; discriminate | intros ?].
  eapply triple_bind; [apply triple_ask | intro frame].
  apply (triple_bind _ _ (fun _ => kept false));
    [apply triple_on_database; intros s d; apply kept_database | intros ?].
  destruct (existsb _ _); [now apply triple_unit |].
  destruct (Nat.eqb _ 0); [now apply triple_unit |].
  pose proof (clip_targets_in_sight (strip typed)
                (visible cubes (snd frame))) as [Hp Hq].
  destruct (Sim.pick_and_place_from_text (strip typed)
              (visible cubes (snd frame))) as [[[pick_uid |] place_uid] dbg];
    [| now apply triple_unit].
  apply carry_out_kept; [now apply Hp | exact Hq].
Qed.

Lemma loop_kept cubes typed :
  triple (kept false) (loop cubes typed) (fun _ => kept false) crashed.
Proof.
  induction typed as [| user rest IH]; simpl.
  - now apply triple_unit.
  - eapply triple_bind; [apply round_kept | intros [|]].
    + now apply triple_unit.
    + exact IH.
Qed.

Lemma kept_start : kept false start.
Proof. exists []. repeat split. constructor. Qed.


(** In every session of [main], also one that an error ends, the vectors
    printed are those of a history of calls of the executor in which
    picks and places take turns, starting with a pick, no pick is final
    and every place is; so between two vectors printed one after the
    other the gripper changes state only while the position stays the
    same. *)
Theorem main_prints_a_calm_stream cubes typed w :
  let s := fst (snd (loop cubes typed start w)) in
  (exists history,
     alternating false history = true /\
     flags_of_main history /\
     vectors (printed s) = stream init history /\
     executor s = after history init) /\
  (forall i a b,
     nth_error (vectors (printed s)) i = Some a ->
     nth_error (vectors (printed s)) (S i) = Some b ->
     gripper a <> gripper b -> position a = position b).
Proof.
  intro s.
  assert (Hk : exists holding, kept holding s).
  { pose proof (loop_kept cubes typed start w kept_start) as Hk. subst s.
    destruct (loop cubes typed start w) as [[[] | e] [s' w']];
      [now exists false | exact (proj2 Hk)]. }
  destruct Hk as (holding & history & Ha & Hf & Hh & Hv & He).
  split; [now exists history |].
  intros i a b Hi Hb Hne. rewrite Hv in Hi, Hb.
  destruct (stream init history) as [| x l] eqn:Es;
    [destruct i; discriminate |].
  assert (Hc : calm x (x :: l)).
  { rewrite <- Es. apply (Gripper.stream_calm history init false x Ha).
    destruct history as [| c rest]; [discriminate |].
    destruct c; simpl in Ha, Es; [| discriminate].
    injection Es as <- _. apply Gripper.gripper_vec. }
  destruct (Gripper.calm_nth _ _ Hc i a b Hi Hb); [contradiction | assumption].
Qed.
End Engine.


End Session.
